(** * resume-page: the configuration normalizer and the pagination planner

    A shallow embedding of [src/main.ts]: the scalar coercions, the alias and
    order resolver, [normalizeConfig] with its modern and legacy paths, and
    [getPagedCuts] with [findLastSafeCut]; followed by the properties the
    specification states about them. *)

From Stdlib Require Import List ZArith NArith Lia Bool Ascii String.
From Stdlib Require Import Permutation Sorted DecimalString.
Import ListNotations.

Set Implicit Arguments.
Set Warnings "-register-all".
Local Open Scope N_scope.

(* ================================================================== *)
(** * Strings *)
(* ================================================================== *)

(** A JavaScript string is a sequence of UTF-16 code units. *)
Definition jsstring := list N.

(** The code units of an ASCII literal of the source. *)
Definition lit (s : string) : jsstring :=
  map N_of_ascii (list_ascii_of_string s).

(** [a === b] on strings. *)
Fixpoint jsstring_eqb (a b : jsstring) : bool :=
  match a, b with
  | [], [] => true
  | x :: a', y :: b' => (x =? y) && jsstring_eqb a' b'
  | _, _ => false
  end.

(** [WhiteSpace] and [LineTerminator] of ECMAScript: what [trim] strips and
    what [\s] matches. *)
Definition isWhiteSpace (c : N) : bool :=
  ((9 <=? c) && (c <=? 13))
  || (c =? 32) || (c =? 0xA0) || (c =? 0x1680)
  || ((0x2000 <=? c) && (c <=? 0x200A))
  || (c =? 0x2028) || (c =? 0x2029) || (c =? 0x202F)
  || (c =? 0x205F) || (c =? 0x3000) || (c =? 0xFEFF).

Fixpoint dropWhile (A : Type) (p : A -> bool) (l : list A) : list A :=
  match l with
  | [] => []
  | x :: xs => if p x then dropWhile p xs else l
  end.

Definition trimStart (s : jsstring) : jsstring := dropWhile isWhiteSpace s.
Definition trimEnd (s : jsstring) : jsstring :=
  rev (dropWhile isWhiteSpace (rev s)).

(** [String.prototype.trim]. *)
Definition trim (s : jsstring) : jsstring := trimEnd (trimStart s).

(** [String.prototype.toLowerCase], on the code units whose lower case is an
    ASCII letter: [A-Z] and the Kelvin sign U+212A. Every other code unit is
    kept; where JavaScript maps it, the image is again outside ASCII, and
    the program compares lower-cased text with ASCII literals only. *)
Definition lowerUnit (c : N) : N :=
  if (65 <=? c) && (c <=? 90) then c + 32
  else if c =? 0x212A then 107
  else c.

Definition toLowerCase (s : jsstring) : jsstring := map lowerUnit s.

(** [s.startsWith('#')]. *)
Definition startsWithHash (s : jsstring) : bool :=
  match s with
  | c :: _ => c =? 35
  | [] => false
  end.

(** [stripPrefix p s] is the rest of [s] after its prefix [p], if [p] is one. *)
Fixpoint stripPrefix (p s : jsstring) : option jsstring :=
  match p, s with
  | [], _ => Some s
  | _ :: _, [] => None
  | a :: p', b :: s' => if a =? b then stripPrefix p' s' else None
  end.

(** [s.replace(pat, '')] with a string pattern: the first occurrence of
    [pat] is removed. *)
Fixpoint removeFirst (pat s : jsstring) : jsstring :=
  match stripPrefix pat s with
  | Some rest => rest
  | None =>
      match s with
      | [] => []
      | c :: s' => c :: removeFirst pat s'
      end
  end.

(** [s.replace(/re/g, '')] for a character class [re]. *)
Definition removeAll (cls : N -> bool) (s : jsstring) : jsstring :=
  filter (fun c => negb (cls c)) s.

(** [s.split(/[cls]/)]: one piece between every two separators, empty
    pieces kept. *)
Fixpoint splitOn (cls : N -> bool) (s : jsstring) : list jsstring :=
  match s with
  | [] => [[]]
  | c :: s' =>
      if cls c then [] :: splitOn cls s'
      else match splitOn cls s' with
           | piece :: rest => (c :: piece) :: rest
           | [] => [[c]]
           end
  end.

(** [s.split(/[cls]+/)]: a run of separators counts once; a separator at
    either end of [s] leaves an empty piece there. [inRun] tells that the
    code unit before was a separator. *)
Fixpoint splitRunsFrom (cls : N -> bool) (inRun : bool) (s : jsstring)
  : list jsstring :=
  match s with
  | [] => [[]]
  | c :: s' =>
      if cls c then
        if inRun then splitRunsFrom cls true s'
        else [] :: splitRunsFrom cls true s'
      else match splitRunsFrom cls false s' with
           | piece :: rest => (c :: piece) :: rest
           | [] => [[c]]
           end
  end.

Definition splitRuns (cls : N -> bool) (s : jsstring) : list jsstring :=
  splitRunsFrom cls false s.

(** Errors a call can end with. *)
Inductive JsError := TypeError | URIError.

(** The outcome of a call: a value, or a thrown error. *)
Inductive Result (A : Type) :=
| Ok (a : A)
| Throw (e : JsError).

Arguments Ok {A} a.
Arguments Throw {A} e.

Definition bind (A B : Type) (r : Result A) (k : A -> Result B) : Result B :=
  match r with
  | Ok a => k a
  | Throw e => Throw e
  end.

Notation "'let*' x ':=' r 'in' k" := (bind r (fun x => k))
  (at level 10, x name, r at level 100, k at level 200).

(** The characters [encodeURIComponent] leaves as they are. *)
Definition isUriUnreserved (c : N) : bool :=
  ((65 <=? c) && (c <=? 90)) || ((97 <=? c) && (c <=? 122))
  || ((48 <=? c) && (c <=? 57))
  || (c =? 45) || (c =? 95) || (c =? 46) || (c =? 33) || (c =? 126)
  || (c =? 42) || (c =? 39) || (c =? 40) || (c =? 41).

Definition hexDigit (n : N) : N := if n <? 10 then 48 + n else 55 + n.

Definition percentEncode (byte : N) : jsstring :=
  [37; hexDigit (byte / 16); hexDigit (byte mod 16)].

Definition utf8 (cp : N) : list N :=
  if cp <? 0x80 then [cp]
  else if cp <? 0x800 then [0xC0 + cp / 64; 0x80 + cp mod 64]
  else if cp <? 0x10000 then
    [0xE0 + cp / 4096; 0x80 + (cp / 64) mod 64; 0x80 + cp mod 64]
  else
    [0xF0 + cp / 262144; 0x80 + (cp / 4096) mod 64;
     0x80 + (cp / 64) mod 64; 0x80 + cp mod 64].

Definition isHighSurrogate (c : N) : bool := (0xD800 <=? c) && (c <=? 0xDBFF).
Definition isLowSurrogate (c : N) : bool := (0xDC00 <=? c) && (c <=? 0xDFFF).

Definition prepend (p : jsstring) (r : Result jsstring) : Result jsstring :=
  let* rest := r in Ok (p ++ rest).

(** [encodeURIComponent]: a surrogate without its partner is a [URIError]. *)
Fixpoint encodeURIComponent (s : jsstring) : Result jsstring :=
  match s with
  | [] => Ok []
  | c :: s' =>
      if isUriUnreserved c then prepend [c] (encodeURIComponent s')
      else if isLowSurrogate c then Throw URIError
      else if isHighSurrogate c then
        match s' with
        | d :: s'' =>
            if isLowSurrogate d then
              prepend
                (flat_map percentEncode
                   (utf8 ((c - 0xD800) * 0x400 + (d - 0xDC00) + 0x10000)))
                (encodeURIComponent s'')
            else Throw URIError
        | [] => Throw URIError
        end
      else prepend (flat_map percentEncode (utf8 c)) (encodeURIComponent s')
  end.

(* ================================================================== *)
(** * Values of the untyped tree *)
(* ================================================================== *)

(** What the YAML loader hands over, and what the canonical document is
    made of when it is fed back. A number is an integer here; [JNative name]
    is the built-in object that the member [name] of [Object.prototype]
    holds (a function, and [Object.prototype] itself for [__proto__]). The
    properties of an object are listed in enumeration order, each key
    once. *)
Inductive JsValue :=
| JUndefined
| JNull
| JBool (b : bool)
| JNum (n : Z)
| JStr (s : jsstring)
| JArr (elems : list JsValue)
| JObj (props : list (jsstring * JsValue))
| JNative (name : jsstring).

Definition Props := list (jsstring * JsValue).

(** [String(n)] for an integer: the same text for every integer of at most
    2^53 in absolute value. Beyond that a number no longer holds every
    integer, and [String] rounds to 17 significant digits and writes an
    exponent from 10^21 on. For every number [String(n)] is a text that is
    not empty and holds no white space, as this one is. *)
Definition numberToString (n : Z) : jsstring :=
  lit (NilZero.string_of_int (Z.to_int n)).

(** [Boolean(v)], the test behind [!v] and [v ? a : b]. *)
Definition truthy (v : JsValue) : bool :=
  match v with
  | JUndefined | JNull => false
  | JBool b => b
  | JNum n => negb (n =? 0)%Z
  | JStr s => match s with [] => false | _ => true end
  | JArr _ | JObj _ | JNative _ => true
  end.

(** [Boolean(s)] for [s : string | undefined]. *)
Definition truthyStr (s : option jsstring) : bool :=
  match s with
  | Some (_ :: _) => true
  | _ => false
  end.

(** [a ?? b]. *)
Definition nullish (a b : JsValue) : JsValue :=
  match a with
  | JUndefined | JNull => b
  | _ => a
  end.

Definition orElse (A : Type) (a b : option A) : option A :=
  match a with
  | Some _ => a
  | None => b
  end.

Definition withDefault (A : Type) (a : option A) (d : A) : A :=
  match a with
  | Some x => x
  | None => d
  end.

(** [obj[key]] on the own properties of a record read from the tree. *)
Fixpoint lookup (key : jsstring) (props : Props) : JsValue :=
  match props with
  | [] => JUndefined
  | (k, v) :: rest => if jsstring_eqb k key then v else lookup key rest
  end.

Fixpoint hasKey (key : jsstring) (props : Props) : bool :=
  match props with
  | [] => false
  | (k, _) :: rest => jsstring_eqb k key || hasKey key rest
  end.

(** [rec?.key]. *)
Definition getOpt (rec : option Props) (key : string) : JsValue :=
  match rec with
  | Some props => lookup (lit key) props
  | None => JUndefined
  end.

(** [data.key] at the root, a record or an array: none of the names this
    program reads is a member of an array. *)
Definition getProp (data : JsValue) (key : string) : JsValue :=
  match data with
  | JObj props => lookup (lit key) props
  | _ => JUndefined
  end.

(** * Scalar coercions *)

Definition asRecord (input : JsValue) : option Props :=
  match input with
  | JObj props => Some props
  | JNative name => if jsstring_eqb name (lit "__proto__") then Some [] else None
  | _ => None
  end.

Definition toArray (input : JsValue) : list JsValue :=
  match input with
  | JArr elems => elems
  | _ => []
  end.

Definition toStringValue (input : JsValue) : option jsstring :=
  match input with
  | JStr s => Some (trim s)
  | JNum n => Some (numberToString n)
  | _ => None
  end.

Definition nonEmpty (s : jsstring) : bool :=
  match s with [] => false | _ => true end.

Definition toStringArray (input : JsValue) : list jsstring :=
  match input with
  | JArr elems =>
      filter nonEmpty
        (map trim (map (fun item => withDefault (toStringValue item) []) elems))
  | _ =>
      match toStringValue input with
      | Some (c :: s) => [c :: s]
      | _ => []
      end
  end.

Definition toBooleanValue (input : JsValue) (fallback : bool) : bool :=
  match input with
  | JBool b => b
  | _ => fallback
  end.

(** [[start, end].filter(Boolean).join(' - ')], or nothing when both are
    missing or empty. *)
Definition joinTimeRange (start end_ : option jsstring) : option jsstring :=
  match truthyStr start, truthyStr end_ with
  | false, false => None
  | true, false => start
  | false, true => end_
  | true, true =>
      Some (withDefault start [] ++ lit " - " ++ withDefault end_ [])
  end.

(* ================================================================== *)
(** * Alias and order resolver *)
(* ================================================================== *)

Inductive ModuleKey :=
| Education | Skills | Projects | Profile | Work | Honors | OpenSource.

(** The string a [ModuleKey] is at run time. *)
Definition keyName (k : ModuleKey) : jsstring :=
  match k with
  | Education => lit "education"
  | Skills => lit "skills"
  | Projects => lit "projects"
  | Profile => lit "profile"
  | Work => lit "work"
  | Honors => lit "honors"
  | OpenSource => lit "openSource"
  end.

Definition ModuleKey_eqb (a b : ModuleKey) : bool :=
  match a, b with
  | Education, Education | Skills, Skills | Projects, Projects
  | Profile, Profile | Work, Work | Honors, Honors
  | OpenSource, OpenSource => true
  | _, _ => false
  end.

Definition DEFAULT_ORDER : list ModuleKey :=
  [Education; Skills; Projects; Profile; Work; Honors; OpenSource].

Definition MODULE_ALIAS : list (jsstring * ModuleKey) :=
  [ (lit "education", Education);
    (lit "edu", Education);
    (lit "skill", Skills);
    (lit "skills", Skills);
    (lit "project", Projects);
    (lit "projects", Projects);
    (lit "exp", Projects);
    (lit "profile", Profile);
    (lit "evaluation", Profile);
    (lit "work", Work);
    (lit "workexperience", Work);
    (lit "honer", Honors);
    (lit "honor", Honors);
    (lit "honors", Honors);
    (lit "opensource", OpenSource);
    (lit "open_source", OpenSource) ].

(** [MODULE_ALIAS] is an object literal, so its prototype is
    [Object.prototype]: a key that is not its own is looked up there. *)
Definition objectPrototypeMembers : list jsstring :=
  [ lit "constructor"; lit "hasOwnProperty"; lit "isPrototypeOf";
    lit "propertyIsEnumerable"; lit "toLocaleString"; lit "toString";
    lit "valueOf"; lit "__defineGetter__"; lit "__defineSetter__";
    lit "__lookupGetter__"; lit "__lookupSetter__"; lit "__proto__" ].

(** What [MODULE_ALIAS[key]] evaluates to when it is not [undefined]: a
    module identifier, or the built-in object an inherited member holds. *)
Inductive AliasValue :=
| AKey (k : ModuleKey)
| AProto (name : jsstring).

Definition AliasValue_eqb (a b : AliasValue) : bool :=
  match a, b with
  | AKey x, AKey y => ModuleKey_eqb x y
  | AProto x, AProto y => jsstring_eqb x y
  | _, _ => false
  end.

Fixpoint ownAlias (key : jsstring) (table : list (jsstring * ModuleKey))
  : option ModuleKey :=
  match table with
  | [] => None
  | (k, v) :: rest => if jsstring_eqb k key then Some v else ownAlias key rest
  end.

(** [MODULE_ALIAS[key]]. *)
Definition aliasLookup (key : jsstring) : option AliasValue :=
  match ownAlias key MODULE_ALIAS with
  | Some k => Some (AKey k)
  | None =>
      if existsb (jsstring_eqb key) objectPrototypeMembers
      then Some (AProto key)
      else None
  end.

(** The class [[_\s-]]. *)
Definition isKeyNoise (c : N) : bool :=
  (c =? 95) || isWhiteSpace c || (c =? 45).

Definition normalizeModuleKey (value : option jsstring) : option AliasValue :=
  match value with
  | Some (c :: s) => aliasLookup (toLowerCase (removeAll isKeyNoise (c :: s)))
  | _ => None
  end.

(** [output.includes(v)]. *)
Definition includes (output : list AliasValue) (v : AliasValue) : bool :=
  existsb (AliasValue_eqb v) output.

Definition pushResolved (output : list AliasValue) (rawKey : jsstring)
  : list AliasValue :=
  match normalizeModuleKey (Some rawKey) with
  | Some v => if includes output v then output else output ++ [v]
  | None => output
  end.

Definition pushFallback (output : list AliasValue) (fallbackKey : ModuleKey)
  : list AliasValue :=
  if includes output (AKey fallbackKey) then output
  else output ++ [AKey fallbackKey].

Definition normalizeOrder (order : list jsstring) : list AliasValue :=
  let source :=
    match order with
    | [] => map keyName DEFAULT_ORDER
    | _ => order
    end in
  let output := fold_left pushResolved source [] in
  fold_left pushFallback DEFAULT_ORDER output.

(** An object keyed by what [normalizeModuleKey] returns, in insertion
    order. *)
Definition TitleMap := list (AliasValue * jsstring).

(** [output[key] = text]. *)
Fixpoint setTitle (output : TitleMap) (key : AliasValue) (text : jsstring)
  : TitleMap :=
  match output with
  | [] => [(key, text)]
  | (k, t) :: rest =>
      if AliasValue_eqb k key then (k, text) :: rest
      else (k, t) :: setTitle rest key text
  end.

Definition MODULE_TITLES : TitleMap :=
  [ (AKey Education, [0x6559; 0x80B2; 0x7ECF; 0x5386]);
    (AKey Skills, [0x4E13; 0x4E1A; 0x6280; 0x80FD]);
    (AKey Projects, [0x9879; 0x76EE; 0x7ECF; 0x5386]);
    (AKey Profile, [0x81EA; 0x6211; 0x63CF; 0x8FF0]);
    (AKey Work, [0x5DE5; 0x4F5C; 0x7ECF; 0x5386]);
    (AKey Honors, [0x8363; 0x8A89]);
    (AKey OpenSource, [0x5F00; 0x6E90; 0x7ECF; 0x5386]) ].

Definition normalizeModuleTitleMap (input : option Props) : TitleMap :=
  match input with
  | None => []
  | Some entries =>
      fold_left
        (fun output entry =>
           match normalizeModuleKey (Some (fst entry)),
                 toStringValue (snd entry) with
           | Some moduleKey, Some (c :: text) =>
               setTitle output moduleKey (c :: text)
           | _, _ => output
           end)
        entries []
  end.

(** [{ ...a, ...b }]. *)
Definition spread (a b : TitleMap) : TitleMap :=
  fold_left (fun output entry => setTitle output (fst entry) (snd entry)) b a.

(** * Leaf normalizers *)

Definition defaultColor : jsstring := lit "#111111".

Definition normalizeColor (value : jsstring) : jsstring :=
  match trim value with
  | [] => defaultColor
  | c :: rest => if startsWithHash (c :: rest) then c :: rest
                 else 35 :: c :: rest
  end.

(** The class [[\s,/|]]. *)
Definition isStackSeparator (c : N) : bool :=
  isWhiteSpace c || (c =? 44) || (c =? 47) || (c =? 124).

Definition normalizeTechStack (input : JsValue) : list jsstring :=
  match toStringArray input with
  | x :: fromArray => x :: fromArray
  | [] =>
      match toStringValue input with
      | Some (c :: value) =>
          filter nonEmpty (map trim (splitRuns isStackSeparator (c :: value)))
      | _ => []
      end
  end.

(** The class of tilde, fullwidth tilde, em dash, en dash and hyphen. *)
Definition isPeriodSeparator (c : N) : bool :=
  (c =? 0x7E) || (c =? 0xFF5E) || (c =? 0x2014) || (c =? 0x2013)
  || (c =? 0x2D).

Record WorkPeriod := {
  wp_start : option jsstring;
  wp_end : option jsstring
}.

Definition parseWorkPeriodText (value : option jsstring) : option WorkPeriod :=
  match value with
  | Some (c :: v) =>
      let parts := map trim (splitOn isPeriodSeparator (c :: v)) in
      let start := nth_error parts 0 in
      let end_ := nth_error parts 1 in
      if negb (truthyStr start) && negb (truthyStr end_) then None
      else Some {| wp_start := start; wp_end := end_ |}
  | _ => None
  end.

(* ================================================================== *)
(** * The canonical document *)
(* ================================================================== *)

Record SiteConfig := {
  title : jsstring;
  themeColor : jsstring;
  pdfFileName : jsstring;
  order : list AliasValue;
  moduleTitles : TitleMap
}.

Record BasicEducationSummary := {
  sum_school : option jsstring;
  sum_major : option jsstring;
  sum_degree : option jsstring;
  graduationYear : option jsstring;
  raw : option jsstring
}.

Record ResumeLink := {
  label : jsstring;
  url : jsstring
}.

Record Contacts := {
  wechat : option jsstring;
  phone : option jsstring;
  email : option jsstring
}.

Record BasicConfig := {
  name : jsstring;
  gender : option jsstring;
  age : option jsstring;
  position : option jsstring;
  workPeriod : option WorkPeriod;
  contacts : Contacts;
  educationSummary : option BasicEducationSummary;
  addressLinks : list ResumeLink
}.

Record EducationCourse := {
  course_name : jsstring;
  credit : option jsstring
}.

Record EducationItem := {
  school : jsstring;
  edu_start : option jsstring;
  edu_end : option jsstring;
  gpa : option jsstring;
  major : option jsstring;
  courses : list EducationCourse;
  rank : option jsstring;
  degree : option jsstring
}.

Record SkillsConfig := {
  skills_enabled : bool;
  ordered : bool;
  hideIndex : bool;
  skills_items : list jsstring
}.

Record ProjectItem := {
  proj_name : jsstring;
  proj_time : option jsstring;
  proj_description : option jsstring;
  responsibilities : list jsstring;
  techStack : list jsstring
}.

Record WorkItem := {
  company : jsstring;
  work_time : option jsstring;
  work_position : option jsstring;
  work_achievements : list jsstring
}.

Record HonorItem := {
  honor_name : jsstring;
  honor_time : option jsstring
}.

Record OpenSourceItem := {
  os_name : jsstring;
  os_url : option jsstring;
  stars : option jsstring;
  os_description : option jsstring;
  os_achievements : list jsstring
}.

(** [{ enabled: boolean; items: A[] }]. *)
Record Section (A : Type) := {
  enabled : bool;
  items : list A
}.

Record ProfileSection := {
  profile_enabled : bool;
  content : jsstring
}.

Record NormalizedResumeConfig := {
  site : SiteConfig;
  basic : BasicConfig;
  education : option (Section EducationItem);
  skills : option SkillsConfig;
  projects : option (Section ProjectItem);
  profile : option ProfileSection;
  work : option (Section WorkItem);
  honors : option (Section HonorItem);
  openSource : option (Section OpenSourceItem)
}.

(* ================================================================== *)
(** * Module sections *)
(* ================================================================== *)

(** A [for] loop that pushes one entry per accepted item and [continue]s
    on the others. *)
Fixpoint filterMap (A B : Type) (f : A -> option B) (l : list A) : list B :=
  match l with
  | [] => []
  | x :: xs =>
      match f x with
      | Some y => y :: filterMap f xs
      | None => filterMap f xs
      end
  end.

(** [section?.items ?? input], as an array. *)
Definition sectionItems (section : option Props) (input : JsValue)
  : list JsValue :=
  toArray (nullish (getOpt section "items") input).

(** The closing lines every list section shares: nothing when no item
    was kept, the section otherwise. *)
Definition closeSection (A : Type) (section : option Props) (kept : list A)
  : option (Section A) :=
  match kept with
  | [] => None
  | _ :: _ =>
      Some {| enabled := toBooleanValue (getOpt section "enabled") true;
              items := kept |}
  end.

Definition educationCourse (course : JsValue) : option EducationCourse :=
  let courseObj := asRecord course in
  match orElse (toStringValue (getOpt courseObj "name")) (toStringValue course) with
  | Some (c :: n) =>
      Some {| course_name := c :: n;
              credit := toStringValue (getOpt courseObj "credit") |}
  | _ => None
  end.

Definition educationItem (item : JsValue) : option EducationItem :=
  let source := asRecord item in
  match toStringValue (getOpt source "school") with
  | Some (c :: s) =>
      Some {| school := c :: s;
              edu_start := toStringValue (getOpt source "start");
              edu_end := toStringValue (getOpt source "end");
              gpa := toStringValue (getOpt source "gpa");
              major := toStringValue (getOpt source "major");
              courses := filterMap educationCourse
                           (toArray (getOpt source "courses"));
              rank := toStringValue (getOpt source "rank");
              degree := toStringValue (getOpt source "degree") |}
  | _ => None
  end.

Definition normalizeEducationSection (input : JsValue)
  : option (Section EducationItem) :=
  if negb (truthy input) then None
  else
    let section := asRecord input in
    closeSection section (filterMap educationItem (sectionItems section input)).

Definition normalizeSkillsSection (input : JsValue) : option SkillsConfig :=
  if negb (truthy input) then None
  else
    let section := asRecord input in
    match toStringArray (nullish (getOpt section "items") input) with
    | [] => None
    | x :: xs =>
        let listStyle :=
          option_map toLowerCase (toStringValue (getOpt section "listStyle")) in
        Some {| skills_enabled := toBooleanValue (getOpt section "enabled") true;
                ordered :=
                  match listStyle with
                  | Some style => jsstring_eqb style (lit "ordered")
                  | None => false
                  end
                  || toBooleanValue (getOpt section "ordered") false;
                hideIndex := toBooleanValue (getOpt section "hideIndex") false;
                skills_items := x :: xs |}
    end.

Definition projectItem (item : JsValue) : option ProjectItem :=
  let source := asRecord item in
  match toStringValue (getOpt source "name") with
  | Some (c :: n) =>
      Some {| proj_name := c :: n;
              proj_time := toStringValue (getOpt source "time");
              proj_description := toStringValue (getOpt source "description");
              responsibilities := toStringArray (getOpt source "responsibilities");
              techStack := normalizeTechStack (getOpt source "techStack") |}
  | _ => None
  end.

Definition normalizeProjectsSection (input : JsValue)
  : option (Section ProjectItem) :=
  if negb (truthy input) then None
  else
    let section := asRecord input in
    closeSection section (filterMap projectItem (sectionItems section input)).

Definition normalizeProfileSection (input : JsValue) : option ProfileSection :=
  if negb (truthy input) then None
  else
    let section := asRecord input in
    match toStringValue (nullish (getOpt section "content") input) with
    | Some (c :: text) =>
        Some {| profile_enabled := toBooleanValue (getOpt section "enabled") true;
                content := c :: text |}
    | _ => None
    end.

Definition workItem (item : JsValue) : option WorkItem :=
  let source := asRecord item in
  match toStringValue (getOpt source "company") with
  | Some (c :: n) =>
      Some {| company := c :: n;
              work_time := toStringValue (getOpt source "time");
              work_position := toStringValue (getOpt source "position");
              work_achievements := toStringArray (getOpt source "achievements") |}
  | _ => None
  end.

Definition normalizeWorkSection (input : JsValue) : option (Section WorkItem) :=
  if negb (truthy input) then None
  else
    let section := asRecord input in
    closeSection section (filterMap workItem (sectionItems section input)).

Definition honorItem (item : JsValue) : option HonorItem :=
  let source := asRecord item in
  match orElse (toStringValue (getOpt source "name")) (toStringValue item) with
  | Some (c :: n) =>
      Some {| honor_name := c :: n;
              honor_time := toStringValue (getOpt source "time") |}
  | _ => None
  end.

Definition normalizeHonorsSection (input : JsValue) : option (Section HonorItem) :=
  if negb (truthy input) then None
  else
    let section := asRecord input in
    closeSection section (filterMap honorItem (sectionItems section input)).

Definition openSourceItem (item : JsValue) : option OpenSourceItem :=
  let source := asRecord item in
  match toStringValue (getOpt source "name") with
  | Some (c :: n) =>
      Some {| os_name := c :: n;
              os_url := toStringValue (getOpt source "url");
              stars := toStringValue (getOpt source "stars");
              os_description := toStringValue (getOpt source "description");
              os_achievements := toStringArray (getOpt source "achievements") |}
  | _ => None
  end.

Definition normalizeOpenSourceSection (input : JsValue)
  : option (Section OpenSourceItem) :=
  if negb (truthy input) then None
  else
    let section := asRecord input in
    closeSection section (filterMap openSourceItem (sectionItems section input)).

(** The label [role] starts with in legacy documents. *)
Definition legacyRolePrefix : jsstring :=
  [0x540E; 0x7AEF; 0x5F00; 0x53D1; 0x20; 0x2022; 0x20].

Definition legacyProject (item : JsValue) : option ProjectItem :=
  let source := asRecord item in
  match toStringValue (getOpt source "name") with
  | Some (c :: n) =>
      Some {| proj_name := c :: n;
              proj_time := option_map (removeFirst legacyRolePrefix)
                             (toStringValue (getOpt source "role"));
              proj_description := toStringValue (getOpt source "bg");
              responsibilities := toStringArray (getOpt source "des");
              techStack := normalizeTechStack (getOpt source "stack") |}
  | _ => None
  end.

Definition normalizeLegacyProjects (items : list JsValue) : list ProjectItem :=
  filterMap legacyProject items.

Definition legacyWorkItem (item : JsValue) : option WorkItem :=
  let source := asRecord item in
  match toStringValue (getOpt source "company") with
  | Some (c :: n) =>
      Some {| company := c :: n;
              work_time := joinTimeRange
                             (toStringValue (getOpt source "startDate"))
                             (toStringValue (getOpt source "endDate"));
              work_position := toStringValue (getOpt source "position");
              work_achievements := toStringArray (getOpt source "responsibilities") |}
  | _ => None
  end.

Definition normalizeLegacyWorkItems (items : list JsValue) : list WorkItem :=
  filterMap legacyWorkItem items.

Definition resumeLink (item : JsValue) : option ResumeLink :=
  let source := asRecord item in
  match toStringValue (getOpt source "label"),
        toStringValue (getOpt source "url") with
  | Some (c :: l), Some (d :: u) => Some {| label := c :: l; url := d :: u |}
  | _, _ => None
  end.

Definition normalizeLinks (items : list JsValue) : list ResumeLink :=
  filterMap resumeLink items.

Definition normalizeLegacyAddressLinks (basic : option Props)
  : Result (list ResumeLink) :=
  match toStringValue (getOpt basic "city") with
  | Some (c :: city) =>
      let* encoded := encodeURIComponent (c :: city) in
      Ok [ {| label := c :: city;
              url := lit "https://maps.google.com/?q=" ++ encoded |} ]
  | _ => Ok []
  end.

Definition normalizeEducationSummary (input : option Props)
  : option BasicEducationSummary :=
  match input with
  | None => None
  | Some props =>
      Some {| sum_school := toStringValue (lookup (lit "school") props);
              sum_major := toStringValue (lookup (lit "major") props);
              sum_degree := toStringValue (lookup (lit "degree") props);
              graduationYear := toStringValue (lookup (lit "graduationYear") props);
              raw := toStringValue (lookup (lit "raw") props) |}
  end.

(* ================================================================== *)
(** * normalizeConfig *)
(* ================================================================== *)

Definition defaultTitle : jsstring := [0x4E2A; 0x4EBA; 0x7B80; 0x5386].
Definition defaultName : jsstring := [0x672A; 0x547D; 0x540D].
Definition defaultPdfFileName : jsstring := lit "resume.pdf".

Definition normalizeModernConfig (data : JsValue) : NormalizedResumeConfig :=
  let siteObject := asRecord (getProp data "site") in
  let basicObject := asRecord (getProp data "basic") in
  let moduleTitles :=
    spread MODULE_TITLES
      (normalizeModuleTitleMap (asRecord (getOpt siteObject "moduleTitles"))) in
  let site :=
    {| title := withDefault (toStringValue (getOpt siteObject "title")) defaultTitle;
       themeColor :=
         normalizeColor
           (withDefault (toStringValue (getOpt siteObject "themeColor")) defaultColor);
       pdfFileName :=
         withDefault (toStringValue (getOpt siteObject "pdfFileName"))
           defaultPdfFileName;
       order := normalizeOrder (toStringArray (getOpt siteObject "order"));
       moduleTitles := moduleTitles |} in
  let basic :=
    {| name := withDefault (toStringValue (getOpt basicObject "name")) defaultName;
       gender := toStringValue (getOpt basicObject "gender");
       age := toStringValue (getOpt basicObject "age");
       position := toStringValue (getOpt basicObject "position");
       workPeriod :=
         Some
           {| wp_start :=
                toStringValue
                  (getOpt (asRecord (getOpt basicObject "workPeriod")) "start");
              wp_end :=
                toStringValue
                  (getOpt (asRecord (getOpt basicObject "workPeriod")) "end") |};
       contacts :=
         {| wechat :=
              toStringValue
                (getOpt (asRecord (getOpt basicObject "contacts")) "wechat");
            phone :=
              toStringValue
                (getOpt (asRecord (getOpt basicObject "contacts")) "phone");
            email :=
              toStringValue
                (getOpt (asRecord (getOpt basicObject "contacts")) "email") |};
       educationSummary :=
         normalizeEducationSummary
           (asRecord (getOpt basicObject "educationSummary"));
       addressLinks :=
         normalizeLinks (toArray (getOpt basicObject "addressLinks")) |} in
  {| site := site;
     basic := basic;
     education := normalizeEducationSection (getProp data "education");
     skills := normalizeSkillsSection (getProp data "skills");
     projects := normalizeProjectsSection (getProp data "projects");
     profile := normalizeProfileSection (getProp data "profile");
     work := normalizeWorkSection (getProp data "work");
     honors := normalizeHonorsSection (getProp data "honors");
     openSource := normalizeOpenSourceSection (getProp data "openSource") |}.

(** [Object.keys(rec ?? {})]. *)
Definition objectKeys (rec : option Props) : list jsstring :=
  match rec with
  | Some props => map fst props
  | None => []
  end.

Definition normalizeLegacyConfig (data : JsValue)
  : Result NormalizedResumeConfig :=
  let conf := asRecord (getProp data "conf") in
  let basicLegacy := asRecord (getProp data "basic") in
  let modulesFromConf := asRecord (getOpt conf "modules") in
  let overall := toStringValue (getOpt basicLegacy "overall") in
  let workPeriod := parseWorkPeriodText overall in
  let site :=
    {| title := withDefault (toStringValue (getOpt conf "title")) defaultTitle;
       themeColor :=
         normalizeColor
           (withDefault (toStringValue (getOpt conf "mainThemeColor")) defaultColor);
       pdfFileName :=
         withDefault (toStringValue (getOpt conf "pdf")) defaultPdfFileName;
       order := normalizeOrder (objectKeys modulesFromConf);
       moduleTitles :=
         spread MODULE_TITLES (normalizeModuleTitleMap modulesFromConf) |} in
  let* links := normalizeLegacyAddressLinks basicLegacy in
  let basic :=
    {| name := withDefault (toStringValue (getOpt basicLegacy "cnName")) defaultName;
       gender := toStringValue (getOpt basicLegacy "sex");
       age := toStringValue (getOpt basicLegacy "birth");
       position := toStringValue (getOpt basicLegacy "objective");
       workPeriod := workPeriod;
       contacts :=
         {| wechat := orElse (toStringValue (getOpt basicLegacy "wechat"))
                        (toStringValue (getOpt basicLegacy "wechatText"));
            phone := orElse (toStringValue (getOpt basicLegacy "phone"))
                       (toStringValue (getOpt basicLegacy "phoneNumber"));
            email := orElse (toStringValue (getOpt basicLegacy "email"))
                       (toStringValue (getOpt basicLegacy "emailText")) |};
       educationSummary :=
         if truthy (getOpt basicLegacy "college")
         then Some {| sum_school := None;
                      sum_major := None;
                      sum_degree := None;
                      graduationYear := None;
                      raw := toStringValue (getOpt basicLegacy "college") |}
         else None;
       addressLinks := links |} in
  let profileContent := toStringValue (getProp data "evaluation") in
  Ok {| site := site;
        basic := basic;
        education := None;
        skills :=
          Some {| skills_enabled := true;
                  ordered := false;
                  hideIndex := false;
                  skills_items := toStringArray (getProp data "skill") |};
        projects :=
          Some {| enabled := true;
                  items := normalizeLegacyProjects (toArray (getProp data "exp")) |};
        profile :=
          match profileContent with
          | Some (c :: text) =>
              Some {| profile_enabled := true; content := c :: text |}
          | _ => None
          end;
        work :=
          Some {| enabled := true;
                  items :=
                    normalizeLegacyWorkItems
                      (toArray (getProp data "workExperience")) |};
        honors := normalizeHonorsSection (getProp data "honors");
        openSource := normalizeOpenSourceSection (getProp data "openSource") |}.

(** ['key' in data]: a [TypeError] unless [data] is an object. Neither
    marker key is a member of an array or of a built-in. *)
Definition hasProperty (key : string) (data : JsValue) : Result bool :=
  match data with
  | JObj props => Ok (hasKey (lit key) props)
  | JArr _ | JNative _ => Ok false
  | JUndefined | JNull | JBool _ | JNum _ | JStr _ => Throw TypeError
  end.

(** The structural test that selects the legacy path. *)
Definition isLegacy (data : JsValue) : Result bool :=
  let* conf := hasProperty "conf" data in
  if conf then hasProperty "basic" data else Ok false.

Definition normalizeConfig (raw : JsValue) : Result NormalizedResumeConfig :=
  let data := nullish raw (JObj []) in
  let* legacy := isLegacy data in
  if legacy then normalizeLegacyConfig data
  else Ok (normalizeModernConfig data).

(* ================================================================== *)
(** * Pagination planner *)
(* ================================================================== *)

Local Open Scope Z_scope.

(** Pixel offsets are integers: the page height is floored and a canvas
    has an integral height. *)
Definition Segment := (Z * Z)%type.

(** The last cut of [cuts] within [[min, max]], scanning until the first
    cut above [max]. *)
Fixpoint findLastSafeCutFrom (output : option Z) (cuts : list Z) (min max : Z)
  : option Z :=
  match cuts with
  | [] => output
  | cut :: rest =>
      if cut <? min then findLastSafeCutFrom output rest min max
      else if cut >? max then output
      else findLastSafeCutFrom (Some cut) rest min max
  end.

Definition findLastSafeCut (cuts : list Z) (min max : Z) : option Z :=
  findLastSafeCutFrom None cuts min max.

(** [Math.floor(pageHeightPx * 0.55)] for an integral page height. The
    code multiplies in floating point; the result is this integer for
    every height a canvas can have, and never below it for an integer of
    at most 2^53. *)
Definition minimumSegment (pageHeightPx : Z) : Z := pageHeightPx * 55 / 100.

(** The [while] loop of [getPagedCuts], from [cursor] on; the result is the
    segments pushed from there. [fuel] bounds the number of iterations:
    [None] means they did not suffice. *)
Fixpoint pagedCutsLoop (fuel : nat) (safeCuts : list Z)
  (totalHeightPx pageHeightPx cursor : Z) : option (list Segment) :=
  match fuel with
  | O => None
  | S fuel' =>
      if cursor <? totalHeightPx then
        let target := cursor + pageHeightPx in
        if target >=? totalHeightPx then Some [(cursor, totalHeightPx)]
        else
          let candidate :=
            findLastSafeCut safeCuts (cursor + minimumSegment pageHeightPx) target in
          let next := withDefault candidate target in
          let next :=
            if next <=? cursor + 80 then Z.min totalHeightPx target else next in
          option_map (cons (cursor, next))
            (pagedCutsLoop fuel' safeCuts totalHeightPx pageHeightPx next)
      else Some []
  end.

(** [getPagedCuts], given the offsets [collectSafeCuts] measured on the
    page. *)
Definition getPagedCuts (fuel : nat) (safeCuts : list Z)
  (totalHeightPx pageHeightPx : Z) : option (list Segment) :=
  pagedCutsLoop fuel safeCuts totalHeightPx pageHeightPx 0.

(* ================================================================== *)
(** * The canonical document as a tree *)
(* ================================================================== *)

(** The document [normalizeConfig] returns is itself a value that can be
    handed to [normalizeConfig]. These definitions spell that value out,
    field by field, in the order of the object literals that build it; a
    field holding [undefined] is still a property of its object. *)

Local Open Scope N_scope.

Definition field (key : string) (v : JsValue) : jsstring * JsValue :=
  (lit key, v).

Definition treeOfString (s : option jsstring) : JsValue :=
  match s with
  | Some text => JStr text
  | None => JUndefined
  end.

Definition treeOfStrings (l : list jsstring) : JsValue := JArr (map JStr l).

Definition treeOfOption (A : Type) (f : A -> JsValue) (o : option A) : JsValue :=
  match o with
  | Some a => f a
  | None => JUndefined
  end.

Definition treeOfAlias (v : AliasValue) : JsValue :=
  match v with
  | AKey k => JStr (keyName k)
  | AProto member => JNative member
  end.

(** [String(v)] for a built-in: the source text of a native function, whose
    name is [Object] for the member [constructor]. *)
Definition nativeSource (member : jsstring) : jsstring :=
  if jsstring_eqb member (lit "__proto__") then lit "[object Object]"
  else
    lit "function "
    ++ (if jsstring_eqb member (lit "constructor") then lit "Object" else member)
    ++ lit "() { [native code] }".

(** The property name a key of a [TitleMap] stands for. *)
Definition propertyKey (v : AliasValue) : jsstring :=
  match v with
  | AKey k => keyName k
  | AProto member => nativeSource member
  end.

Definition treeOfTitles (m : TitleMap) : JsValue :=
  JObj (map (fun entry => (propertyKey (fst entry), JStr (snd entry))) m).

Definition treeOfSite (s : SiteConfig) : JsValue :=
  JObj [ field "title" (JStr (title s));
         field "themeColor" (JStr (themeColor s));
         field "pdfFileName" (JStr (pdfFileName s));
         field "order" (JArr (map treeOfAlias (order s)));
         field "moduleTitles" (treeOfTitles (moduleTitles s)) ].

Definition treeOfWorkPeriod (w : WorkPeriod) : JsValue :=
  JObj [ field "start" (treeOfString (wp_start w));
         field "end" (treeOfString (wp_end w)) ].

Definition treeOfContacts (c : Contacts) : JsValue :=
  JObj [ field "wechat" (treeOfString (wechat c));
         field "phone" (treeOfString (phone c));
         field "email" (treeOfString (email c)) ].

Definition treeOfSummary (e : BasicEducationSummary) : JsValue :=
  JObj [ field "school" (treeOfString (sum_school e));
         field "major" (treeOfString (sum_major e));
         field "degree" (treeOfString (sum_degree e));
         field "graduationYear" (treeOfString (graduationYear e));
         field "raw" (treeOfString (raw e)) ].

Definition treeOfLink (l : ResumeLink) : JsValue :=
  JObj [ field "label" (JStr (label l)); field "url" (JStr (url l)) ].

Definition treeOfBasic (b : BasicConfig) : JsValue :=
  JObj [ field "name" (JStr (name b));
         field "gender" (treeOfString (gender b));
         field "age" (treeOfString (age b));
         field "position" (treeOfString (position b));
         field "workPeriod" (treeOfOption treeOfWorkPeriod (workPeriod b));
         field "contacts" (treeOfContacts (contacts b));
         field "educationSummary" (treeOfOption treeOfSummary (educationSummary b));
         field "addressLinks" (JArr (map treeOfLink (addressLinks b))) ].

Definition treeOfCourse (c : EducationCourse) : JsValue :=
  JObj [ field "name" (JStr (course_name c));
         field "credit" (treeOfString (credit c)) ].

Definition treeOfEducationItem (e : EducationItem) : JsValue :=
  JObj [ field "school" (JStr (school e));
         field "start" (treeOfString (edu_start e));
         field "end" (treeOfString (edu_end e));
         field "gpa" (treeOfString (gpa e));
         field "major" (treeOfString (major e));
         field "courses" (JArr (map treeOfCourse (courses e)));
         field "rank" (treeOfString (rank e));
         field "degree" (treeOfString (degree e)) ].

Definition treeOfProjectItem (p : ProjectItem) : JsValue :=
  JObj [ field "name" (JStr (proj_name p));
         field "time" (treeOfString (proj_time p));
         field "description" (treeOfString (proj_description p));
         field "responsibilities" (treeOfStrings (responsibilities p));
         field "techStack" (treeOfStrings (techStack p)) ].

Definition treeOfWorkItem (w : WorkItem) : JsValue :=
  JObj [ field "company" (JStr (company w));
         field "time" (treeOfString (work_time w));
         field "position" (treeOfString (work_position w));
         field "achievements" (treeOfStrings (work_achievements w)) ].

Definition treeOfHonorItem (h : HonorItem) : JsValue :=
  JObj [ field "name" (JStr (honor_name h));
         field "time" (treeOfString (honor_time h)) ].

Definition treeOfOpenSourceItem (o : OpenSourceItem) : JsValue :=
  JObj [ field "name" (JStr (os_name o));
         field "url" (treeOfString (os_url o));
         field "stars" (treeOfString (stars o));
         field "description" (treeOfString (os_description o));
         field "achievements" (treeOfStrings (os_achievements o)) ].

Definition treeOfSection (A : Type) (f : A -> JsValue) (s : Section A) : JsValue :=
  JObj [ field "enabled" (JBool (enabled s));
         field "items" (JArr (map f (items s))) ].

Definition treeOfSkills (s : SkillsConfig) : JsValue :=
  JObj [ field "enabled" (JBool (skills_enabled s));
         field "ordered" (JBool (ordered s));
         field "hideIndex" (JBool (hideIndex s));
         field "items" (treeOfStrings (skills_items s)) ].

Definition treeOfProfile (p : ProfileSection) : JsValue :=
  JObj [ field "enabled" (JBool (profile_enabled p));
         field "content" (JStr (content p)) ].

Definition treeOfConfig (doc : NormalizedResumeConfig) : JsValue :=
  JObj [ field "site" (treeOfSite (site doc));
         field "basic" (treeOfBasic (basic doc));
         field "education"
           (treeOfOption (treeOfSection treeOfEducationItem) (education doc));
         field "skills" (treeOfOption treeOfSkills (skills doc));
         field "projects"
           (treeOfOption (treeOfSection treeOfProjectItem) (projects doc));
         field "profile" (treeOfOption treeOfProfile (profile doc));
         field "work" (treeOfOption (treeOfSection treeOfWorkItem) (work doc));
         field "honors" (treeOfOption (treeOfSection treeOfHonorItem) (honors doc));
         field "openSource"
           (treeOfOption (treeOfSection treeOfOpenSourceItem) (openSource doc)) ].

(** [normalizeConfig] applied to its own result. *)
Definition renormalize (doc : NormalizedResumeConfig)
  : Result NormalizedResumeConfig :=
  normalizeConfig (treeOfConfig doc).

(* ================================================================== *)
(** * Predicates of the specification *)
(* ================================================================== *)

Local Open Scope Z_scope.

(** [chained from segs to]: the segments run from [from] to [to], each one
    starting where the one before ends, none of them empty. *)
Fixpoint chained (from : Z) (segs : list Segment) (to : Z) : Prop :=
  match segs with
  | [] => from = to
  | (a, b) :: rest => a = from /\ a < b /\ chained b rest to
  end.

(** The segments cover [[0, totalHeight)] exactly. *)
Definition partitions (totalHeight : Z) (segs : list Segment) : Prop :=
  option_map fst (hd_error segs) = Some 0
  /\ option_map snd (hd_error (rev segs)) = Some totalHeight
  /\ (forall i a b c d,
         nth_error segs i = Some (a, b) ->
         nth_error segs (S i) = Some (c, d) -> c = b)
  /\ Forall (fun seg => fst seg < snd seg) segs.

(** Where the first page ends. *)
Definition firstCut (segs : option (list Segment)) : option Z :=
  match segs with
  | Some (seg :: _) => Some (snd seg)
  | _ => None
  end.

(** The end the loop of [getPagedCuts] chooses for the page that starts at
    [cursor], when the naive target falls short of the total height. *)
Definition chosenEnd (safeCuts : list Z) (totalHeightPx pageHeightPx cursor : Z)
  : Z :=
  let target := cursor + pageHeightPx in
  let next :=
    withDefault
      (findLastSafeCut safeCuts (cursor + minimumSegment pageHeightPx) target)
      target in
  if next <=? cursor + 80 then Z.min totalHeightPx target else next.

Local Open Scope N_scope.








Definition isHexDigit (c : N) : bool :=
  ((48 <=? c) && (c <=? 57)) || ((97 <=? c) && (c <=? 102))
  || ((65 <=? c) && (c <=? 70)).

(** The forms [#rgb] and [#rrggbb]. *)
Definition isHexColor (s : jsstring) : bool :=
  match s with
  | c :: digits =>
      (c =? 35) && forallb isHexDigit digits
      && ((List.length digits =? 3)%nat || (List.length digits =? 6)%nat)
  | [] => false
  end.

(** The legacy document of the specification's mapping example. *)
Definition legacyFixture : JsValue :=
  JObj [ field "conf" (JObj [ field "title" (JStr (lit "T")) ]);
         field "basic"
           (JObj [ field "cnName" (JStr (lit "N"));
                   field "overall" (JStr (lit "2019.01~2021.06")) ]) ].




(** A modern document whose module order names [constructor]. *)
Definition constructorOrder : JsValue :=
  JObj [ field "site"
           (JObj [ field "order" (JArr [ JStr (lit "constructor") ]) ]) ].

(** The field [college] of the legacy [basic] record of [raw], as
    [normalizeConfig] reads it. *)
Definition legacyCollege (raw : JsValue) : JsValue :=
  getOpt (asRecord (getProp (nullish raw (JObj [])) "basic")) "college".

(** A legacy document with a college, and with education-like data at its
    root. *)
Definition collegeLegacy : JsValue :=
  JObj [ field "conf" (JObj []);
         field "basic" (JObj [ field "college" (JStr (lit "MIT")) ]);
         field "education"
           (JArr [ JObj [ field "school" (JStr (lit "MIT")) ] ]) ].

(** The summary the legacy path builds from the college. *)
Definition summaryOfCollege (college : JsValue) : option BasicEducationSummary :=
  if truthy college
  then Some {| sum_school := None;
               sum_major := None;
               sum_degree := None;
               graduationYear := None;
               raw := toStringValue college |}
  else None.

(** Whether an entry of the order is a module identifier. *)
Definition isModuleKey (v : AliasValue) : bool :=
  match v with
  | AKey _ => true
  | AProto _ => false
  end.

(** What [clean] of [normalizeModuleKey] can hold: no underscore and no
    upper-case ASCII letter. *)
Definition isCleanUnit (c : N) : bool :=
  negb (c =? 95) && negb ((65 <=? c) && (c <=? 90)).

(** [keepFirst seen l]: the entries of [l] in order, without those in
    [seen] and without repetitions. *)
Fixpoint keepFirst (seen l : list AliasValue) : list AliasValue :=
  match l with
  | [] => []
  | v :: rest =>
      if includes seen v then keepFirst seen rest
      else v :: keepFirst (seen ++ [v]) rest
  end.

(** The order as the specification words it: the supplied sequence (the
    default one if none was supplied), resolved and deduplicated in
    first-seen order, then the identifiers still missing, in the default
    order. *)
Definition resolvedOrder (order : list jsstring) : list AliasValue :=
  let source :=
    match order with
    | [] => map keyName DEFAULT_ORDER
    | _ => order
    end in
  let seen :=
    keepFirst [] (filterMap (fun rawKey => normalizeModuleKey (Some rawKey)) source) in
  seen ++ keepFirst seen (map AKey DEFAULT_ORDER).

(** * Canonical documents *)

(** A text that [trim] leaves as it is. *)
Definition trimmed (s : jsstring) : Prop := trimStart s = s /\ trimEnd s = s.

Definition trimmedOpt (o : option jsstring) : Prop :=
  match o with
  | Some s => trimmed s
  | None => True
  end.

(** A trimmed text that is not empty. *)
Definition filledText (s : jsstring) : Prop := trimmed s /\ s <> [].

Definition canonicalSite (s : SiteConfig) : Prop :=
  trimmed (title s)
  /\ (trimmed (themeColor s) /\ startsWithHash (themeColor s) = true)
  /\ trimmed (pdfFileName s)
  /\ (NoDup (order s)
      /\ Forall (fun v => isModuleKey v = true) (order s)
      /\ forall k, In (AKey k) (order s))
  /\ (map fst (moduleTitles s) = map fst MODULE_TITLES
      /\ Forall (fun entry => filledText (snd entry)) (moduleTitles s)).

Definition canonicalSummary (e : BasicEducationSummary) : Prop :=
  trimmedOpt (sum_school e) /\ trimmedOpt (sum_major e)
  /\ trimmedOpt (sum_degree e) /\ trimmedOpt (graduationYear e)
  /\ trimmedOpt (raw e).

Definition canonicalLink (l : ResumeLink) : Prop :=
  filledText (label l) /\ filledText (url l).

Definition canonicalBasic (b : BasicConfig) : Prop :=
  trimmed (name b)
  /\ trimmedOpt (gender b) /\ trimmedOpt (age b) /\ trimmedOpt (position b)
  /\ (exists w, workPeriod b = Some w
                /\ trimmedOpt (wp_start w) /\ trimmedOpt (wp_end w))
  /\ (trimmedOpt (wechat (contacts b)) /\ trimmedOpt (phone (contacts b))
      /\ trimmedOpt (email (contacts b)))
  /\ match educationSummary b with
     | Some e => canonicalSummary e
     | None => True
     end
  /\ Forall canonicalLink (addressLinks b).

Definition canonicalCourse (c : EducationCourse) : Prop :=
  filledText (course_name c) /\ trimmedOpt (credit c).

Definition canonicalEducationItem (e : EducationItem) : Prop :=
  filledText (school e)
  /\ trimmedOpt (edu_start e) /\ trimmedOpt (edu_end e)
  /\ trimmedOpt (gpa e) /\ trimmedOpt (major e)
  /\ Forall canonicalCourse (courses e)
  /\ trimmedOpt (rank e) /\ trimmedOpt (degree e).

Definition canonicalProjectItem (p : ProjectItem) : Prop :=
  filledText (proj_name p)
  /\ trimmedOpt (proj_time p) /\ trimmedOpt (proj_description p)
  /\ Forall filledText (responsibilities p)
  /\ Forall filledText (techStack p).

Definition canonicalWorkItem (w : WorkItem) : Prop :=
  filledText (company w)
  /\ trimmedOpt (work_time w) /\ trimmedOpt (work_position w)
  /\ Forall filledText (work_achievements w).

Definition canonicalHonorItem (h : HonorItem) : Prop :=
  filledText (honor_name h) /\ trimmedOpt (honor_time h).

Definition canonicalOpenSourceItem (o : OpenSourceItem) : Prop :=
  filledText (os_name o)
  /\ trimmedOpt (os_url o) /\ trimmedOpt (stars o)
  /\ trimmedOpt (os_description o)
  /\ Forall filledText (os_achievements o).

Definition canonicalSection (A : Type) (P : A -> Prop) (s : option (Section A))
  : Prop :=
  match s with
  | Some sec => items sec <> [] /\ Forall P (items sec)
  | None => True
  end.

Definition canonicalSkills (s : option SkillsConfig) : Prop :=
  match s with
  | Some sec => skills_items sec <> [] /\ Forall filledText (skills_items sec)
  | None => True
  end.

Definition canonicalProfile (p : option ProfileSection) : Prop :=
  match p with
  | Some sec => filledText (content sec)
  | None => True
  end.

(** The shape of a document of the modern path that holds no inherited
    built-in: every text trimmed, every identifying text and list entry
    filled, every present list section filled, the order a duplicate-free
    list of all module identifiers, one title per module. *)
Definition canonical (doc : NormalizedResumeConfig) : Prop :=
  canonicalSite (site doc)
  /\ canonicalBasic (basic doc)
  /\ canonicalSection canonicalEducationItem (education doc)
  /\ canonicalSkills (skills doc)
  /\ canonicalSection canonicalProjectItem (projects doc)
  /\ canonicalProfile (profile doc)
  /\ canonicalSection canonicalWorkItem (work doc)
  /\ canonicalSection canonicalHonorItem (honors doc)
  /\ canonicalSection canonicalOpenSourceItem (openSource doc).

(** A legacy document whose city is an unpaired surrogate. *)
Definition surrogateCity : JsValue :=
  JObj [ field "conf" (JObj []);
         field "basic" (JObj [ field "city" (JStr [0xD800]) ]) ].

(* ================================================================== *)
(** * Safe cut offsets *)
(* ================================================================== *)

Local Open Scope Z_scope.

(** [values.add(v)] on a [Set], whose elements stay in insertion order. *)
Definition setAdd (values : list Z) (v : Z) : list Z :=
  if existsb (Z.eqb v) values then values else values ++ [v].

Fixpoint insertAscending (v : Z) (sorted : list Z) : list Z :=
  match sorted with
  | [] => [v]
  | x :: rest => if v <=? x then v :: sorted else x :: insertAscending v rest
  end.

(** [Array.from(values).sort((a, b) => a - b)]: the ascending arrangement
    of the numbers, built here by insertion. *)
Definition sortAscending (values : list Z) : list Z :=
  fold_right insertAscending [] values.

(** A node matched by [.resume-section, .entry], by the two offsets the
    loop computes for it: [Math.floor(node.offsetTop * scale)] and
    [Math.floor((node.offsetTop + node.offsetHeight) * scale)]. *)
Definition NodeEdges := (Z * Z)%type.

Definition addNodeEdges (totalHeightPx : Z) (values : list Z) (node : NodeEdges)
  : list Z :=
  let top := fst node in
  let bottom := snd node in
  let values :=
    if (top >? 0) && (top <? totalHeightPx) then setAdd values top else values in
  if (bottom >? 0) && (bottom <? totalHeightPx) then setAdd values bottom
  else values.

Definition collectSafeCuts (nodes : list NodeEdges) (totalHeightPx : Z) : list Z :=
  let values := setAdd (setAdd [] 0) totalHeightPx in
  sortAscending (fold_left (addNodeEdges totalHeightPx) nodes values).

(** Whether [cut] is the top or the bottom of one of the nodes. *)
Definition isNodeEdge (nodes : list NodeEdges) (cut : Z) : Prop :=
  exists node, In node nodes /\ (cut = fst node \/ cut = snd node).

(** How a segment that is not the last one ends: at the naive target, or
    at a safe cut that leaves at least the minimum segment and more than
    80 pixels. *)
Definition endsWell (safeCuts : list Z) (pageHeightPx : Z) (seg : Segment) : Prop :=
  snd seg = fst seg + pageHeightPx
  \/ (In (snd seg) safeCuts
      /\ fst seg + minimumSegment pageHeightPx <= snd seg
      /\ fst seg + 80 < snd seg
      /\ snd seg <= fst seg + pageHeightPx).

Local Open Scope N_scope.

(** What [normalizeModuleKey] looks up for [key]. *)
Definition cleanKey (key : jsstring) : jsstring :=
  toLowerCase (removeAll isKeyNoise key).

(** The keys a modern document gives for the module order and for the
    module titles. *)
Definition orderKeys (data : JsValue) : list jsstring :=
  toStringArray (getOpt (asRecord (getProp data "site")) "order").

Definition titleKeys (data : JsValue) : list jsstring :=
  objectKeys (asRecord (getOpt (asRecord (getProp data "site")) "moduleTitles")).

(** A small modern document. *)
Definition smallModern : JsValue :=
  JObj [ field "site"
           (JObj [ field "order" (JArr [ JStr (lit "Work"); JStr (lit "edu") ]);
                   field "moduleTitles"
                     (JObj [ field "work" (JStr (lit " Jobs ")) ]) ]);
         field "basic" (JObj [ field "name" (JStr (lit " Ann ")) ]);
         field "skills" (JArr [ JStr (lit "Go"); JStr (lit " ") ]) ].

(* ================================================================== *)
(** * File name, escaping and masking *)
(* ================================================================== *)

(** Whether [c] matches the lower-case letter [letter] of a pattern with
    the [i] flag: the letter itself or its upper case. *)
Definition matchesLetter (letter c : N) : bool :=
  (c =? letter) || (c =? letter - 32).

(** [/\.pdf$/i.test(value)]. *)
Definition endsWithPdf (value : jsstring) : bool :=
  match rev value with
  | f :: d :: p :: dot :: _ =>
      (dot =? 46) && matchesLetter 112 p && matchesLetter 100 d
      && matchesLetter 102 f
  | _ => false
  end.

Definition ensurePdfFileName (value : jsstring) : jsstring :=
  if endsWithPdf value then value else value ++ lit ".pdf".

(** [s.replaceAll(c, rep)] for a pattern of one character. *)
Definition replaceAllUnit (c : N) (rep s : jsstring) : jsstring :=
  flat_map (fun x => if x =? c then rep else [x]) s.

Definition escapeHtml (value : jsstring) : jsstring :=
  replaceAllUnit 39 (lit "&#39;")
    (replaceAllUnit 34 (lit "&quot;")
       (replaceAllUnit 62 (lit "&gt;")
          (replaceAllUnit 60 (lit "&lt;")
             (replaceAllUnit 38 (lit "&amp;") value)))).

(** Escaping in one pass, character by character. *)
Definition escapeUnit (c : N) : jsstring :=
  if c =? 38 then lit "&amp;"
  else if c =? 60 then lit "&lt;"
  else if c =? 62 then lit "&gt;"
  else if c =? 34 then lit "&quot;"
  else if c =? 39 then lit "&#39;"
  else [c].

(** The characters of markup that escaping must remove. *)
Definition isMarkupUnit (c : N) : bool :=
  (c =? 60) || (c =? 62) || (c =? 34) || (c =? 39).

(** [s.slice(-n)]. *)
Definition lastUnits (n : nat) (s : jsstring) : jsstring :=
  skipn (List.length s - n) s.

(** [s[0] ?? '*']. *)
Definition firstOrStar (s : jsstring) : jsstring :=
  match s with
  | c :: _ => [c]
  | [] => lit "*"
  end.

Definition maskPhone (phone : jsstring) : jsstring :=
  let cleaned := removeAll isWhiteSpace phone in
  if (List.length cleaned <? 7)%nat then cleaned
  else firstn 3 cleaned ++ lit "****" ++ lastUnits 4 cleaned.



Definition maskWeChat (wechat : jsstring) : jsstring :=
  if (List.length wechat <=? 4)%nat then firstOrStar wechat ++ lit "***"
  else firstn 2 wechat ++ lit "***" ++ lastUnits 2 wechat.

(* ================================================================== *)
(** * Theme colors as numbers *)
(* ================================================================== *)

Local Open Scope Z_scope.

(** The value of a hexadecimal digit, in either letter case. *)
Definition hexValue (c : N) : option Z :=
  if ((48 <=? c) && (c <=? 57))%N then Some (Z.of_N c - 48)
  else if ((97 <=? c) && (c <=? 102))%N then Some (Z.of_N c - 87)
  else if ((65 <=? c) && (c <=? 70))%N then Some (Z.of_N c - 55)
  else None.

(** The number the longest prefix of hexadecimal digits of [s] denotes,
    from [acc] on; [acc] is [None] as long as no digit was read. *)
Fixpoint hexPrefix (acc : option Z) (s : jsstring) : option Z :=
  match s with
  | [] => acc
  | c :: rest =>
      match hexValue c with
      | Some d => hexPrefix (Some (16 * withDefault acc 0 + d)) rest
      | None => acc
      end
  end.

(** [Number.parseInt(s, 16)]; [None] is [NaN]. Leading white space is
    skipped, a sign and then a prefix [0x] or [0X] are accepted, and what
    follows the last hexadecimal digit is ignored. *)
Definition parseInt16 (s : jsstring) : option Z :=
  let s := trimStart s in
  let sign :=
    match s with
    | c :: _ => if (c =? 45)%N then -1 else 1
    | [] => 1
    end in
  let s :=
    match s with
    | c :: rest => if ((c =? 45) || (c =? 43))%N then rest else s
    | [] => s
    end in
  let s :=
    match s with
    | zero :: x :: rest =>
        if ((zero =? 48) && ((x =? 120) || (x =? 88)))%N then rest else s
    | _ => s
    end in
  option_map (Z.mul sign) (hexPrefix None s).

(** The digit of [Number.prototype.toString(16)]. *)
Definition hexUnit (d : Z) : N := Z.to_N (if d <? 10 then 48 + d else 87 + d).

(** [v.toString(16)] for an integer from 0 to 255. *)
Definition toString16 (v : Z) : jsstring :=
  if v <? 16 then [hexUnit v] else [hexUnit (v / 16); hexUnit (v mod 16)].

(** [s.padStart(2, '0')]. *)
Definition padStart2 (s : jsstring) : jsstring :=
  repeat 48%N (2 - List.length s) ++ s.

(** [toHex], on an integer. *)
Definition toHex (value : Z) : jsstring :=
  padStart2 (toString16 (Z.min 255 (Z.max 0 value))).

(** The channels of a color; [None] is [NaN]. *)
Record Rgb := {
  rgb_r : option Z;
  rgb_g : option Z;
  rgb_b : option Z
}.

(** [s[i] + s[i]]. *)
Definition doubled (s : jsstring) (i : nat) : jsstring :=
  match nth_error s i with
  | Some c => [c; c]
  | None => []
  end.

(** [s.slice(from, to)] for [from <= to]. *)
Definition slice (from to : nat) (s : jsstring) : jsstring :=
  firstn (to - from) (skipn from s).

(** [Number.isNaN(v) ? 17 : v]. *)
Definition or17 (v : option Z) : option Z := Some (withDefault v 17).

Definition hexToRgb (input : jsstring) : Rgb :=
  let normalized := removeFirst [35%N] (normalizeColor input) in
  if (List.length normalized =? 3)%nat then
    {| rgb_r := parseInt16 (doubled normalized 0);
       rgb_g := parseInt16 (doubled normalized 1);
       rgb_b := parseInt16 (doubled normalized 2) |}
  else
    let hex := slice 0 6 normalized in
    {| rgb_r := or17 (parseInt16 (slice 0 2 hex));
       rgb_g := or17 (parseInt16 (slice 2 4 hex));
       rgb_b := or17 (parseInt16 (slice 4 6 hex)) |}.

(** A channel value as [toHex] clamps it. *)
Definition clampChannel (v : Z) : Z := Z.min 255 (Z.max 0 v).

(* ================================================================== *)
(** * Work experience text *)
(* ================================================================== *)

Local Open Scope N_scope.

(** [\d]; [\D] is its complement. *)
Definition isDigit (c : N) : bool := (48 <=? c) && (c <=? 57).

(** [s.includes(sub)]. *)
Fixpoint includesText (sub s : jsstring) : bool :=
  match stripPrefix sub s with
  | Some _ => true
  | None =>
      match s with
      | [] => false
      | _ :: s' => includesText sub s'
      end
  end.

(** Group 2 of the pattern, [(\d{1,2})?], tried at [s]: two digits if there
    are two, else one, else nothing. *)
Definition monthDigits (s : jsstring) : option jsstring :=
  match s with
  | d1 :: rest =>
      if isDigit d1 then
        match rest with
        | d2 :: _ => if isDigit d2 then Some [d1; d2] else Some [d1]
        | [] => Some [d1]
        end
      else None
  | [] => None
  end.

(** [\D?(\d{1,2})?] after the year: one code unit that is no digit is
    passed over if there is one, then group 2 is tried. *)
Definition afterYear (s : jsstring) : option jsstring :=
  match s with
  | c :: rest => if isDigit c then monthDigits s else monthDigits rest
  | [] => None
  end.

(** [input.match(/(\d{4})\D?(\d{1,2})?/)]: groups 1 and 2 of the leftmost
    match, which starts at the first four digits in a row. *)
Fixpoint matchYearMonth (input : jsstring)
  : option (jsstring * option jsstring) :=
  match input with
  | [] => None
  | a :: tail =>
      match tail with
      | b :: c :: d :: rest =>
          if isDigit a && isDigit b && isDigit c && isDigit d
          then Some ([a; b; c; d], afterYear rest)
          else matchYearMonth tail
      | _ => None
      end
  end.

Local Open Scope Z_scope.

(** [Number(s)] for a text of digits. *)
Definition numberOfDigits (s : jsstring) : Z :=
  fold_left (fun acc c => 10 * acc + (Z.of_N c - 48)) s 0.

(** A [Date] by what the program reads off it. *)
Record YearMonth := {
  getFullYear : Z;
  getMonth : Z
}.

(** [new Date(year, monthIndex, 1)] for integers: a year from 0 to 99
    counts from 1900, and a month index past 11 runs into the following
    years. *)
Definition newDate (year monthIndex : Z) : YearMonth :=
  let year := if (0 <=? year) && (year <=? 99) then 1900 + year else year in
  {| getFullYear := year + monthIndex / 12;
     getMonth := monthIndex mod 12 |}.

(** [parseYearMonth]; [now] is [new Date()]. The two numbers come from
    digits, so they are finite. *)
Definition parseYearMonth (now : YearMonth) (input : option jsstring)
  : option YearMonth :=
  match input with
  | None | Some [] => None
  | Some input =>
      if includesText [0x81F3; 0x4ECA]%N input
         || includesText [0x73B0; 0x5728]%N input
      then Some now
      else
        match matchYearMonth input with
        | None => None
        | Some (y, m) =>
            let year := numberOfDigits y in
            let month :=
              match m with
              | Some digits => numberOfDigits digits
              | None => 1
              end in
            Some (newDate year (Z.max 0 (month - 1)))
        end
  end.

(** [[start, end].filter(Boolean).join(' - ')]. *)
Definition joinFilled (start end_ : option jsstring) : jsstring :=
  withDefault (joinTimeRange start end_) [].

(** [getExperienceText]; every [new Date()] of one call is [now]. *)
Definition getExperienceText (now : YearMonth) (start end_ : option jsstring)
  : jsstring :=
  if negb (truthyStr start) then joinFilled start end_
  else
    let dateStart := parseYearMonth now start in
    let dateEnd := parseYearMonth now end_ in
    match dateStart with
    | None => joinFilled start end_
    | Some dateStart =>
        let effectiveEnd := withDefault dateEnd now in
        let monthDiff :=
          (getFullYear effectiveEnd - getFullYear dateStart) * 12
          + (getMonth effectiveEnd - getMonth dateStart) in
        let monthDiff := if monthDiff <? 0 then 0 else monthDiff in
        let years := monthDiff / 12 in
        let months := monthDiff mod 12 in
        let duration :=
          (if years >? 0 then numberToString years ++ [0x5E74%N] else [])
          ++ (if months >? 0 then numberToString months ++ [0x4E2A; 0x6708]%N
              else if years =? 0 then [0x4E0D; 0x8DB3; 0x31; 0x5E74]%N
              else []) in
        withDefault start []
        ++ (if truthyStr end_ then lit " - " ++ withDefault end_ [] else [])
        ++ (match duration with
            | [] => []
            | _ => [0xFF08%N] ++ duration ++ [0xFF09%N]
            end)
    end.

(** The months from [a] to [b]. *)
Definition monthsBetween (a b : YearMonth) : Z :=
  (getFullYear b - getFullYear a) * 12 + (getMonth b - getMonth a).

(** Whether neither word for the present occurs in [s]. *)
Definition namesNoPresent (s : jsstring) : Prop :=
  includesText [0x81F3; 0x4ECA]%N s = false
  /\ includesText [0x73B0; 0x5728]%N s = false.

Local Open Scope N_scope.

(** Whether four digits in a row occur in [s]. *)
Definition hasYear (s : jsstring) : Prop :=
  exists before year rest,
    s = before ++ year ++ rest
    /\ List.length year = 4%nat
    /\ Forall (fun c => isDigit c = true) year.

(** A legacy document with a city and a self evaluation. *)
Definition cityLegacy : JsValue :=
  JObj [ field "conf" (JObj []);
         field "basic" (JObj [ field "city" (JStr (lit " Oslo ")) ]);
         field "evaluation" (JStr (lit " Careful. ")) ].

(* ================================================================== *)
(** * Properties of the pagination planner *)
(* ================================================================== *)

Local Open Scope Z_scope.

Section Planner.

Variable safeCuts : list Z.
Variables totalHeightPx pageHeightPx : Z.

Lemma findLastSafeCutFrom_range output cuts min max r :
  findLastSafeCutFrom output cuts min max = Some r ->
  output = Some r \/ (min <= r <= max).
Proof.
  revert output. induction cuts as [|cut rest IH]; intros output H; simpl in H.
  - now left.
  - destruct (cut <? min) eqn:Hlo; [now apply IH|].
    destruct (cut >? max) eqn:Hhi; [now left|].
    apply IH in H. destruct H as [H|H]; [|now right].
    injection H as <-. right. lia.
Qed.

Lemma findLastSafeCut_range cuts min max r :
  findLastSafeCut cuts min max = Some r -> min <= r <= max.
Proof.
  intros H. apply findLastSafeCutFrom_range in H.
  destruct H as [H|H]; [discriminate|exact H].
Qed.

Lemma chosenEnd_bounds cursor :
  0 < pageHeightPx ->
  cursor + pageHeightPx < totalHeightPx ->
  cursor < chosenEnd safeCuts totalHeightPx pageHeightPx cursor <= cursor + pageHeightPx.
Proof.
  intros Hp Ht. unfold chosenEnd.
  destruct (findLastSafeCut safeCuts _ _) as [r|] eqn:Hc; simpl.
  - apply findLastSafeCut_range in Hc.
    destruct (r <=? cursor + 80) eqn:Hs; lia.
  - destruct (cursor + pageHeightPx <=? cursor + 80) eqn:Hs; lia.
Qed.

Lemma pagedCutsLoop_step fuel cursor :
  cursor < totalHeightPx ->
  cursor + pageHeightPx < totalHeightPx ->
  pagedCutsLoop (S fuel) safeCuts totalHeightPx pageHeightPx cursor
  = option_map (cons (cursor, chosenEnd safeCuts totalHeightPx pageHeightPx cursor))
      (pagedCutsLoop fuel safeCuts totalHeightPx pageHeightPx
         (chosenEnd safeCuts totalHeightPx pageHeightPx cursor)).
Proof.
  intros Hc Ht. simpl.
  replace (cursor <? totalHeightPx) with true by (symmetry; lia).
  replace (cursor + pageHeightPx >=? totalHeightPx) with false
    by (symmetry; lia).
  reflexivity.
Qed.

Lemma pagedCutsLoop_last fuel cursor :
  cursor < totalHeightPx ->
  totalHeightPx <= cursor + pageHeightPx ->
  pagedCutsLoop (S fuel) safeCuts totalHeightPx pageHeightPx cursor
  = Some [(cursor, totalHeightPx)].
Proof.
  intros Hc Ht. simpl.
  replace (cursor <? totalHeightPx) with true by (symmetry; lia).
  replace (cursor + pageHeightPx >=? totalHeightPx) with true
    by (symmetry; lia).
  reflexivity.
Qed.

(** With a positive page height every iteration moves the cursor forward,
    so the loop ends within [totalHeightPx - cursor] iterations. *)
Lemma pagedCutsLoop_chained fuel : forall cursor,
  0 < pageHeightPx ->
  cursor < totalHeightPx ->
  (Z.to_nat (totalHeightPx - cursor) <= fuel)%nat ->
  exists segs,
    pagedCutsLoop fuel safeCuts totalHeightPx pageHeightPx cursor = Some segs
    /\ chained cursor segs totalHeightPx.
Proof.
  induction fuel as [|fuel IH]; intros cursor Hp Hc Hf; [lia|].
  destruct (Z_lt_le_dec (cursor + pageHeightPx) totalHeightPx) as [Ht|Ht].
  - pose proof (@chosenEnd_bounds cursor Hp Ht) as Hb.
    rewrite pagedCutsLoop_step by assumption.
    destruct (IH (chosenEnd safeCuts totalHeightPx pageHeightPx cursor))
      as (segs & Hs & Hch); [lia|lia|lia|].
    rewrite Hs. exists ((cursor, chosenEnd safeCuts totalHeightPx pageHeightPx cursor) :: segs).
    split; [reflexivity|]. simpl. repeat split; [lia|exact Hch].
  - rewrite pagedCutsLoop_last by assumption.
    eexists; split; [reflexivity|]. simpl. auto.
Qed.

Lemma pagedCutsLoop_more_fuel fuel : forall fuel' cursor segs,
  pagedCutsLoop fuel safeCuts totalHeightPx pageHeightPx cursor = Some segs ->
  (fuel <= fuel')%nat ->
  pagedCutsLoop fuel' safeCuts totalHeightPx pageHeightPx cursor = Some segs.
Proof.
  induction fuel as [|fuel IH]; intros fuel' cursor segs H Hle; [discriminate|].
  destruct fuel' as [|fuel']; [lia|].
  simpl in H |- *.
  destruct (cursor <? totalHeightPx); [|exact H].
  destruct (cursor + pageHeightPx >=? totalHeightPx); [exact H|].
  match type of H with
  | option_map _ (pagedCutsLoop _ _ _ _ ?n) = _ =>
      destruct (pagedCutsLoop fuel safeCuts totalHeightPx pageHeightPx n)
        as [rest|] eqn:Hr; [|discriminate]
  end.
  rewrite (IH fuel' _ rest Hr) by lia. exact H.
Qed.

End Planner.

Lemma chained_last from segs to :
  chained from segs to -> segs <> [] ->
  option_map snd (hd_error (rev segs)) = Some to.
Proof.
  revert from. induction segs as [|[a b] rest IH]; intros from H Hne;
    [congruence|].
  destruct H as (_ & _ & H). destruct rest as [|seg rest'].
  - simpl in *. now subst.
  - specialize (IH b H ltac:(discriminate)).
    change (rev ((a, b) :: seg :: rest')) with (rev (seg :: rest') ++ [(a, b)]).
    destruct (rev (seg :: rest')) eqn:Hrev; [discriminate IH|exact IH].
Qed.

Lemma chained_adjacent from segs to :
  chained from segs to ->
  forall i a b c d,
    nth_error segs i = Some (a, b) ->
    nth_error segs (S i) = Some (c, d) -> c = b.
Proof.
  revert from. induction segs as [|[x y] rest IH]; intros from H i a b c d Hi Hj.
  - destruct i; discriminate.
  - destruct H as (_ & _ & H). destruct i as [|i].
    + injection Hi as <- <-. destruct rest as [|[u v] rest']; [discriminate|].
      injection Hj as <- <-. now destruct H.
    + exact (IH y H i a b c d Hi Hj).
Qed.

Lemma chained_nonempty from segs to :
  chained from segs to -> Forall (fun seg => fst seg < snd seg) segs.
Proof.
  revert from. induction segs as [|[a b] rest IH]; intros from H; [constructor|].
  destruct H as (-> & Hlt & H). constructor; [exact Hlt|exact (IH b H)].
Qed.

Lemma chained_partitions segs total :
  0 < total -> chained 0 segs total -> partitions total segs.
Proof.
  intros Hpos H. assert (Hne : segs <> []).
  { intros ->. simpl in H. lia. }
  repeat split.
  - destruct segs as [|[a b] rest]; [congruence|]. simpl. now destruct H as (-> & _).
  - now apply chained_last with (from := 0).
  - now apply chained_adjacent with (from := 0) (to := total).
  - now apply chained_nonempty with (from := 0) (to := total).
Qed.

(** ** What [findLastSafeCut] finds in a sorted list *)

Lemma findLastSafeCutFrom_some cuts : forall o min max,
  exists r, findLastSafeCutFrom (Some o) cuts min max = Some r
            /\ (r = o \/ In r cuts).
Proof.
  induction cuts as [|cut rest IH]; intros o min max; simpl.
  - exists o. auto.
  - destruct (cut <? min).
    + destruct (IH o min max) as (r & Hr & Hor). exists r.
      split; [exact Hr|]. destruct Hor; [left|right; right]; assumption.
    + destruct (cut >? max); [exists o; auto|].
      destruct (IH cut min max) as (r & Hr & Hor). exists r.
      split; [exact Hr|]. right. destruct Hor; [left; symmetry|right]; assumption.
Qed.

Lemma findLastSafeCutFrom_sorted cuts : forall output min max c,
  StronglySorted Z.le cuts ->
  In c cuts -> min <= c <= max ->
  exists r, findLastSafeCutFrom output cuts min max = Some r
            /\ c <= r /\ In r cuts.
Proof.
  induction cuts as [|cut rest IH]; intros output min max c Hs Hin Hc;
    [contradiction|].
  apply StronglySorted_inv in Hs. destruct Hs as [Hs Hall].
  rewrite Forall_forall in Hall. simpl.
  destruct (cut <? min) eqn:Hlo.
  - destruct Hin as [->|Hin]; [lia|].
    destruct (IH output min max c Hs Hin Hc) as (r & Hr & Hle & Hr').
    exists r. auto.
  - destruct (cut >? max) eqn:Hhi.
    + destruct Hin as [->|Hin]; [lia|]. specialize (Hall c Hin). lia.
    + destruct Hin as [->|Hin].
      * destruct (findLastSafeCutFrom_some rest c min max) as (r & Hr & [->|Hr']).
        -- exists c. split; [exact Hr|]. split; [lia|now left].
        -- exists r. split; [exact Hr|]. split; [now apply Hall|now right].
      * destruct (IH (Some cut) min max c Hs Hin Hc) as (r & Hr & Hle & Hr').
        exists r. auto.
Qed.

(** In a sorted list [findLastSafeCut] returns the largest cut within
    [[min, max]], and nothing exactly when no cut lies there. *)
Lemma findLastSafeCut_greatest cuts min max r :
  StronglySorted Z.le cuts ->
  findLastSafeCut cuts min max = Some r ->
  min <= r <= max
  /\ forall c, In c cuts -> min <= c <= max -> c <= r.
Proof.
  intros Hs Hr. split; [exact (findLastSafeCut_range _ _ _ Hr)|].
  intros c Hin Hc.
  destruct (findLastSafeCutFrom_sorted None Hs Hin Hc) as (r' & Hr' & Hle & _).
  unfold findLastSafeCut in Hr. congruence.
Qed.

Lemma findLastSafeCut_none cuts min max :
  StronglySorted Z.le cuts ->
  findLastSafeCut cuts min max = None ->
  forall c, In c cuts -> ~ (min <= c <= max).
Proof.
  intros Hs Hn c Hin Hc.
  destruct (findLastSafeCutFrom_sorted None Hs Hin Hc) as (r & Hr & _).
  unfold findLastSafeCut in Hn. congruence.
Qed.

(** ** The claims about the planner *)

(** C3. For a positive total height and a positive page height, and for
    every list of safe cut offsets (sorted or not), [getPagedCuts] returns:
    every number of iterations from [totalHeightPx] on yields the same list
    of segments. That list partitions [[0, totalHeightPx)]: its first
    segment starts at 0, its last one ends at [totalHeightPx], every segment
    starts where the one before ends, and every segment has its end above
    its start. *)
Theorem getPagedCuts_partitions (safeCuts : list Z) (totalHeightPx pageHeightPx : Z) :
  0 < totalHeightPx ->
  0 < pageHeightPx ->
  exists segs,
    (forall fuel, (Z.to_nat totalHeightPx <= fuel)%nat ->
       getPagedCuts fuel safeCuts totalHeightPx pageHeightPx = Some segs)
    /\ partitions totalHeightPx segs.
Proof.
  intros Ht Hp.
  destruct (@pagedCutsLoop_chained safeCuts totalHeightPx pageHeightPx
              (Z.to_nat totalHeightPx) 0 Hp Ht) as (segs & Hrun & Hch).
  { rewrite Z.sub_0_r. apply Nat.le_refl. }
  exists segs. split.
  - intros fuel Hf. unfold getPagedCuts.
    now apply pagedCutsLoop_more_fuel with (fuel := Z.to_nat totalHeightPx).
  - now apply chained_partitions.
Qed.

Lemma getPagedCuts_partitions_witness :
  exists segs,
    (forall fuel, (Z.to_nat 1500 <= fuel)%nat ->
       getPagedCuts fuel [0; 400; 820; 1500] 1500 800 = Some segs)
    /\ partitions 1500 segs.
Proof.
  apply (@getPagedCuts_partitions [0; 400; 820; 1500] 1500 800); lia.
Defined.

(** C4, as the code has it. With safe cut offsets {0, 400, 820, 1500}, a
    page height of 800 and a total height of 1500, the minimum segment is
    440, no safe offset lies within [[440, 800]] (400 is below, 820 above),
    and the planner falls back to the naive target: the first cut lands at
    800 and the segments are [[0, 800)] and [[800, 1500)]. *)
Theorem getPagedCuts_boundary_fixture (fuel : nat) :
  minimumSegment 800 = 440
  /\ findLastSafeCut [0; 400; 820; 1500] 440 800 = None
  /\ getPagedCuts (S (S fuel)) [0; 400; 820; 1500] 1500 800
     = Some [(0, 800); (800, 1500)]
  /\ firstCut (getPagedCuts (S (S fuel)) [0; 400; 820; 1500] 1500 800)
     = Some 800.
Proof.
  repeat split; reflexivity.
Qed.

(** C4 as stated fails: no run of the planner on that fixture puts the
    first cut at 820. *)
Lemma first_cut_is_not_820 :
  ~ exists fuel,
      firstCut (getPagedCuts fuel [0; 400; 820; 1500] 1500 800) = Some 820.
Proof.
  intros [fuel H]. destruct fuel as [|fuel]; [discriminate|].
  unfold getPagedCuts in H. rewrite pagedCutsLoop_step in H by lia.
  destruct (pagedCutsLoop fuel _ _ _ _); discriminate.
Qed.

(** C8, as the code has it. For every positive total height that does not
    exceed the page height, the planner returns exactly one segment, the
    range [[0, totalHeightPx)], after one iteration and whatever the safe
    cut offsets are. *)
Theorem getPagedCuts_single_page (fuel : nat) (safeCuts : list Z)
  (totalHeightPx pageHeightPx : Z) :
  0 < totalHeightPx ->
  totalHeightPx <= pageHeightPx ->
  getPagedCuts (S fuel) safeCuts totalHeightPx pageHeightPx
  = Some [(0, totalHeightPx)].
Proof.
  intros Hpos Hle. unfold getPagedCuts.
  apply pagedCutsLoop_last; lia.
Qed.

Lemma getPagedCuts_single_page_witness :
  getPagedCuts 1 [0; 800] 800 800 = Some [(0, 800)].
Proof.
  apply (@getPagedCuts_single_page 0 [0; 800] 800 800); lia.
Defined.

(** C8 as stated fails at a total height of 0, which is not above the
    page height: the loop body never runs and no segment is returned. *)
Lemma no_segment_for_empty_document :
  0 <= 800
  /\ getPagedCuts 1 [0] 0 800 = Some []
  /\ ~ exists fuel, getPagedCuts fuel [0] 0 800 = Some [(0, 0)].
Proof.
  split; [lia|]. split; [reflexivity|].
  intros [fuel H]. destruct fuel; discriminate.
Qed.

(* ================================================================== *)
(** * Properties of the normalizer *)
(* ================================================================== *)

Local Open Scope N_scope.

(** ** Which path a document takes, and when the call throws *)

Lemma normalizeConfig_nullish :
  normalizeConfig JUndefined = normalizeConfig (JObj [])
  /\ normalizeConfig JNull = normalizeConfig (JObj []).
Proof. split; reflexivity. Qed.

(** An array at the root has none of the keys the normalizer reads: it
    yields the document of an empty record. *)
Lemma normalizeConfig_array elems :
  normalizeConfig (JArr elems) = normalizeConfig (JObj []).
Proof. reflexivity. Qed.

Lemma normalizeConfig_modern raw :
  isLegacy (nullish raw (JObj [])) = Ok false ->
  normalizeConfig raw = Ok (normalizeModernConfig (nullish raw (JObj []))).
Proof. intros H. unfold normalizeConfig. now rewrite H. Qed.

Lemma normalizeConfig_legacy raw :
  isLegacy (nullish raw (JObj [])) = Ok true ->
  normalizeConfig raw = normalizeLegacyConfig (nullish raw (JObj [])).
Proof. intros H. unfold normalizeConfig. now rewrite H. Qed.

(** The structural test throws on a primitive and on nothing else. *)
Lemma isLegacy_throws data e :
  isLegacy data = Throw e <->
  e = TypeError
  /\ ((exists b, data = JBool b) \/ (exists n, data = JNum n)
      \/ (exists s, data = JStr s) \/ data = JUndefined \/ data = JNull).
Proof.
  unfold isLegacy, hasProperty. split.
  - destruct data; simpl; try discriminate;
      try (intros H; injection H as <-; split; [reflexivity|]; eauto 8).
    destruct (hasKey (lit "conf") props); discriminate.
  - intros [-> [[b ->]|[[n ->]|[[s ->]|[->| ->]]]]]; reflexivity.
Qed.

(** The modern path never throws; the legacy path throws only the
    [URIError] of [encodeURIComponent], applied to the legacy city. *)
Lemma normalizeLegacyConfig_throws data e :
  normalizeLegacyConfig data = Throw e ->
  exists city,
    toStringValue (getOpt (asRecord (getProp data "basic")) "city") = Some city
    /\ encodeURIComponent city = Throw e.
Proof.
  unfold normalizeLegacyConfig, normalizeLegacyAddressLinks.
  destruct (toStringValue (getOpt (asRecord (getProp data "basic")) "city"))
    as [[|c city]|]; try (cbn [bind]; discriminate).
  destruct (encodeURIComponent (c :: city)) as [enc|e'] eqn:He; cbn [bind];
    [discriminate|].
  intros H. injection H as <-. eauto.
Qed.

Lemma normalizeConfig_object_returns props :
  hasKey (lit "conf") props && hasKey (lit "basic") props = false ->
  exists doc, normalizeConfig (JObj props) = Ok doc.
Proof.
  intros H. unfold normalizeConfig, isLegacy. simpl.
  destruct (hasKey (lit "conf") props); simpl in *.
  - rewrite H. eauto.
  - eauto.
Qed.

(** ** The claims on fixed inputs *)

(** C1, at inputs where the code departs from it. A root that is a number,
    a string or a boolean is not treated as an empty document: the test
    ['conf' in data] throws a [TypeError] on it. *)
Theorem normalizeConfig_scalar_throws :
  normalizeConfig (JNum 42) = Throw TypeError
  /\ normalizeConfig (JStr (lit "resume")) = Throw TypeError
  /\ normalizeConfig (JBool true) = Throw TypeError.
Proof. repeat split; reflexivity. Qed.

(** C5, at an input where the code departs from it. The key [constructor]
    is not an alias, yet [MODULE_ALIAS] inherits a member of that name: the
    built-in is pushed into the order, which then has eight entries and is
    no permutation of the seven module identifiers. *)
Theorem normalizeOrder_inherited_member :
  normalizeOrder [lit "constructor"]
  = [ AProto (lit "constructor"); AKey Education; AKey Skills; AKey Projects;
      AKey Profile; AKey Work; AKey Honors; AKey OpenSource ]
  /\ ~ Permutation (normalizeOrder [lit "constructor"]) (map AKey DEFAULT_ORDER).
Proof.
  split; [reflexivity|]. intros H. apply Permutation_length in H.
  vm_compute in H. discriminate H.
Qed.

(** C6, at an input where the code departs from it. The document built
    from the order [[constructor]] holds the inherited built-in in its
    order; fed back, the built-in is no string and is dropped, so the second
    document has an order of seven entries and differs from the first. *)
Theorem renormalize_drops_inherited_member :
  exists doc doc',
    normalizeConfig constructorOrder = Ok doc
    /\ isLegacy constructorOrder = Ok false
    /\ renormalize doc = Ok doc'
    /\ List.length (order (site doc)) = 8%nat
    /\ List.length (order (site doc')) = 7%nat
    /\ doc' <> doc.
Proof.
  exists (normalizeModernConfig constructorOrder).
  exists (normalizeModernConfig
            (treeOfConfig (normalizeModernConfig constructorOrder))).
  split; [reflexivity|]. split; [reflexivity|]. split; [reflexivity|].
  split; [vm_compute; reflexivity|]. split; [vm_compute; reflexivity|].
  intros H. apply (f_equal (fun d => List.length (order (site d)))) in H.
  vm_compute in H. discriminate H.
Qed.

(** C7. The legacy document
    {conf: {title: "T"}, basic: {cnName: "N", overall: "2019.01~2021.06"}}
    takes the legacy path, and its canonical document has the name "N",
    the title "T" and the work period from "2019.01" to "2021.06". *)
Theorem legacy_mapping :
  isLegacy legacyFixture = Ok true
  /\ exists doc,
       normalizeConfig legacyFixture = Ok doc
       /\ name (basic doc) = lit "N"
       /\ title (site doc) = lit "T"
       /\ workPeriod (basic doc)
          = Some {| wp_start := Some (lit "2019.01");
                    wp_end := Some (lit "2021.06") |}.
Proof.
  split; [reflexivity|]. eexists. split; [reflexivity|].
  repeat split; reflexivity.
Qed.

(** ** The two paths *)

Lemma normalizeConfig_cases raw doc :
  normalizeConfig raw = Ok doc ->
  (isLegacy (nullish raw (JObj [])) = Ok false
   /\ doc = normalizeModernConfig (nullish raw (JObj [])))
  \/ (isLegacy (nullish raw (JObj [])) = Ok true
      /\ normalizeLegacyConfig (nullish raw (JObj [])) = Ok doc).
Proof.
  unfold normalizeConfig.
  destruct (isLegacy (nullish raw (JObj []))) as [[|]|e]; cbn [bind]; intros H.
  - right. auto.
  - left. split; [reflexivity|congruence].
  - discriminate.
Qed.

(** The fields of a legacy document, once the address links are there. *)
Lemma normalizeLegacyConfig_fields data doc :
  normalizeLegacyConfig data = Ok doc ->
  education doc = None
  /\ skills doc
     = Some {| skills_enabled := true; ordered := false; hideIndex := false;
               skills_items := toStringArray (getProp data "skill") |}
  /\ projects doc
     = Some {| enabled := true;
               items := normalizeLegacyProjects (toArray (getProp data "exp")) |}
  /\ work doc
     = Some {| enabled := true;
               items := normalizeLegacyWorkItems
                          (toArray (getProp data "workExperience")) |}
  /\ honors doc = normalizeHonorsSection (getProp data "honors")
  /\ openSource doc = normalizeOpenSourceSection (getProp data "openSource")
  /\ educationSummary (basic doc)
     = summaryOfCollege (getOpt (asRecord (getProp data "basic")) "college")
  /\ themeColor (site doc)
     = normalizeColor
         (withDefault
            (toStringValue (getOpt (asRecord (getProp data "conf")) "mainThemeColor"))
            defaultColor).
Proof.
  unfold normalizeLegacyConfig.
  destruct (normalizeLegacyAddressLinks _) as [links|e]; cbn [bind];
    [|discriminate].
  intros H. injection H as <-. cbn [education skills projects work honors
    openSource basic site educationSummary themeColor].
  repeat split; reflexivity.
Qed.

(** ** Entry dropping *)

Lemma filterMap_Forall (A B : Type) (f : A -> option B) (P : B -> Prop) l :
  (forall x y, f x = Some y -> P y) -> Forall P (filterMap f l).
Proof.
  intros Hf. induction l as [|x xs IH]; simpl; [constructor|].
  destruct (f x) as [y|] eqn:Hx; [constructor; eauto|exact IH].
Qed.



















(** C10. On the legacy path the document has no structured education
    section, whatever the input holds; its education summary is built from
    the field [college] of the legacy [basic] record alone: absent when
    the college is falsy, and otherwise a summary whose only field is the
    college text. *)
Theorem legacy_education_absent (raw : JsValue) (doc : NormalizedResumeConfig) :
  isLegacy (nullish raw (JObj [])) = Ok true ->
  normalizeConfig raw = Ok doc ->
  education doc = None
  /\ educationSummary (basic doc) = summaryOfCollege (legacyCollege raw).
Proof.
  intros Hpath H. rewrite (normalizeConfig_legacy _ Hpath) in H.
  apply normalizeLegacyConfig_fields in H.
  destruct H as (He & _ & _ & _ & _ & _ & Hsum & _). now split.
Qed.

Lemma legacy_education_absent_witness :
  exists doc,
    normalizeConfig collegeLegacy = Ok doc
    /\ education doc = None
    /\ educationSummary (basic doc)
       = Some {| sum_school := None; sum_major := None; sum_degree := None;
                 graduationYear := None; raw := Some (lit "MIT") |}.
Proof.
  eexists. split; [reflexivity|].
  match goal with
  | |- education ?d = _ /\ _ =>
      pose proof (@legacy_education_absent collegeLegacy d eq_refl eq_refl)
        as (He & Hs)
  end.
  split; [exact He|exact Hs].
Defined.

(** ** Theme color *)

Lemma normalizeColor_hash value : startsWithHash (normalizeColor value) = true.
Proof.
  unfold normalizeColor. destruct (trim value) as [|c rest]; [reflexivity|].
  destruct (startsWithHash (c :: rest)) eqn:H; [exact H|reflexivity].
Qed.

(** The stored theme color of every document starts with [#]. *)
Lemma themeColor_hash raw doc :
  normalizeConfig raw = Ok doc -> startsWithHash (themeColor (site doc)) = true.
Proof.
  intros H. apply normalizeConfig_cases in H.
  destruct H as [[_ ->]|[_ H]].
  - apply normalizeColor_hash.
  - apply normalizeLegacyConfig_fields in H.
    destruct H as (_ & _ & _ & _ & _ & _ & _ & ->). apply normalizeColor_hash.
Qed.

(** C9, as the code has it. For every string the normalized color starts
    with [#]. A blank string gives the default [#111111], and so does an
    input that is neither a string nor a number. Any other text is kept as
    it is after trimming, with [#] put in front when it is missing: no
    check of the hexadecimal form is made. *)
Theorem normalizeColor_leading_hash (value : jsstring) (input : JsValue) :
  startsWithHash (normalizeColor value) = true
  /\ (trim value = [] -> normalizeColor value = lit "#111111")
  /\ (toStringValue input = None ->
      normalizeColor (withDefault (toStringValue input) defaultColor)
      = lit "#111111")
  /\ (trim value <> [] ->
      normalizeColor value
      = if startsWithHash (trim value) then trim value else 35 :: trim value).
Proof.
  split; [apply normalizeColor_hash|]. split; [|split].
  - intros H. unfold normalizeColor. now rewrite H.
  - intros ->. reflexivity.
  - intros H. unfold normalizeColor. destruct (trim value); [congruence|].
    reflexivity.
Qed.

Lemma normalizeColor_leading_hash_witness :
  normalizeColor (lit "   ") = lit "#111111"
  /\ normalizeColor (withDefault (toStringValue JNull) defaultColor)
     = lit "#111111"
  /\ normalizeColor (lit " 0af ") = lit "#0af".
Proof.
  pose proof (@normalizeColor_leading_hash (lit "   ") JNull) as (_ & Hb & Ha & _).
  pose proof (@normalizeColor_leading_hash (lit " 0af ") JNull) as (_ & _ & _ & Hk).
  split; [apply Hb; reflexivity|]. split; [apply Ha; reflexivity|].
  rewrite Hk; [reflexivity|discriminate].
Defined.

(** C9 as stated fails: the color [red] is stored as [#red], which is
    neither [#rgb] nor [#rrggbb]. *)
Lemma stored_color_not_hex :
  normalizeColor (lit "red") = lit "#red"
  /\ isHexColor (normalizeColor (lit "red")) = false.
Proof. split; reflexivity. Qed.

(** ** The resolved order *)

Lemma jsstring_eqb_eq a b : jsstring_eqb a b = true <-> a = b.
Proof.
  revert b. induction a as [|x a IH]; intros [|y b]; simpl;
    try (split; congruence).
  rewrite andb_true_iff, N.eqb_eq, IH. split.
  - now intros [-> ->].
  - intros H. injection H as -> ->. auto.
Qed.

Lemma ModuleKey_eqb_eq a b : ModuleKey_eqb a b = true <-> a = b.
Proof. destruct a, b; simpl; split; congruence. Qed.

Lemma AliasValue_eqb_eq a b : AliasValue_eqb a b = true <-> a = b.
Proof.
  destruct a as [x|x], b as [y|y]; simpl; try (split; congruence).
  - rewrite ModuleKey_eqb_eq. split; congruence.
  - rewrite jsstring_eqb_eq. split; congruence.
Qed.

Lemma includes_In output v : includes output v = true <-> In v output.
Proof.
  unfold includes. rewrite existsb_exists. split.
  - intros (x & Hin & Heq). apply AliasValue_eqb_eq in Heq. now subst.
  - intros Hin. exists v. split; [exact Hin|now apply AliasValue_eqb_eq].
Qed.

Lemma includes_false output v : includes output v = false <-> ~ In v output.
Proof.
  rewrite <- includes_In. destruct (includes output v); split; congruence.
Qed.

Lemma NoDup_snoc (A : Type) (l : list A) x :
  NoDup l -> ~ In x l -> NoDup (l ++ [x]).
Proof.
  intros Hl Hx. apply NoDup_app; [exact Hl|repeat constructor; intros []|].
  intros y Hy [<-|[]]. contradiction.
Qed.

(** Both loops of [normalizeOrder] push an entry only when it is not there
    yet, and never remove one. *)
Lemma pushResolved_spec output rawKey :
  NoDup output ->
  NoDup (pushResolved output rawKey)
  /\ (forall v, In v output -> In v (pushResolved output rawKey))
  /\ (forall v, In v (pushResolved output rawKey) ->
        In v output \/ normalizeModuleKey (Some rawKey) = Some v).
Proof.
  intros Hnd. unfold pushResolved.
  destruct (normalizeModuleKey (Some rawKey)) as [w|]; [|now auto].
  destruct (includes output w) eqn:Hinc; [now auto|].
  apply includes_false in Hinc. split; [now apply NoDup_snoc|]. split.
  - intros v Hv. apply in_or_app. now left.
  - intros v Hv. apply in_app_or in Hv.
    destruct Hv as [Hv|[<-|[]]]; auto.
Qed.

Lemma fold_pushResolved_spec source : forall output,
  NoDup output ->
  NoDup (fold_left pushResolved source output)
  /\ (forall v, In v output -> In v (fold_left pushResolved source output))
  /\ (forall v, In v (fold_left pushResolved source output) ->
        In v output
        \/ exists rawKey, In rawKey source
                          /\ normalizeModuleKey (Some rawKey) = Some v).
Proof.
  induction source as [|rawKey rest IH]; intros output Hnd; simpl.
  - auto.
  - destruct (pushResolved_spec rawKey Hnd) as (Hnd' & Hkeep & Hnew).
    destruct (IH _ Hnd') as (Hnd'' & Hkeep' & Hnew').
    split; [exact Hnd''|]. split; [now auto|].
    intros v Hv. apply Hnew' in Hv. destruct Hv as [Hv|(k & Hk & Hv)].
    + apply Hnew in Hv. destruct Hv as [Hv|Hv]; [now left|].
      right. exists rawKey. auto.
    + right. exists k. auto.
Qed.

Lemma pushFallback_spec output k :
  NoDup output ->
  NoDup (pushFallback output k)
  /\ In (AKey k) (pushFallback output k)
  /\ (forall v, In v output -> In v (pushFallback output k))
  /\ (forall v, In v (pushFallback output k) -> In v output \/ v = AKey k).
Proof.
  intros Hnd. unfold pushFallback.
  destruct (includes output (AKey k)) eqn:Hinc.
  - apply includes_In in Hinc. auto.
  - apply includes_false in Hinc. split; [now apply NoDup_snoc|].
    split; [apply in_or_app; right; now left|]. split.
    + intros v Hv. apply in_or_app. now left.
    + intros v Hv. apply in_app_or in Hv.
      destruct Hv as [Hv|[<-|[]]]; auto.
Qed.

Lemma fold_pushFallback_spec keys : forall output,
  NoDup output ->
  NoDup (fold_left pushFallback keys output)
  /\ (forall v, In v output -> In v (fold_left pushFallback keys output))
  /\ (forall k, In k keys -> In (AKey k) (fold_left pushFallback keys output))
  /\ (forall v, In v (fold_left pushFallback keys output) ->
        In v output \/ exists k, v = AKey k).
Proof.
  induction keys as [|key rest IH]; intros output Hnd; simpl.
  - repeat split; auto. intros k [].
  - destruct (pushFallback_spec key Hnd) as (Hnd' & Hin & Hkeep & Hnew).
    destruct (IH _ Hnd') as (Hnd'' & Hkeep' & Hall & Hnew').
    split; [exact Hnd''|]. split; [now auto|]. split.
    + intros k [<-|Hk]; [now apply Hkeep'|now apply Hall].
    + intros v Hv. apply Hnew' in Hv. destruct Hv as [Hv|Hv]; [|now right].
      apply Hnew in Hv. destruct Hv as [Hv|Hv]; [now left|right; eauto].
Qed.

Lemma DEFAULT_ORDER_complete k : In k DEFAULT_ORDER.
Proof. destruct k; simpl; auto 8. Qed.

Lemma DEFAULT_ORDER_NoDup : NoDup (map AKey DEFAULT_ORDER).
Proof.
  simpl. repeat constructor; simpl; intros H;
    repeat (destruct H as [H|H]; [discriminate H|]); exact H.
Qed.

(** The order never repeats an entry and holds every module identifier. *)
Lemma normalizeOrder_NoDup order : NoDup (normalizeOrder order).
Proof.
  unfold normalizeOrder. apply fold_pushFallback_spec.
  apply fold_pushResolved_spec. constructor.
Qed.

Lemma normalizeOrder_complete order k : In (AKey k) (normalizeOrder order).
Proof.
  unfold normalizeOrder.
  apply fold_pushFallback_spec;
    [apply fold_pushResolved_spec; constructor|apply DEFAULT_ORDER_complete].
Qed.

(** The module identifiers of the order are a permutation of the seven
    canonical ones. *)
Lemma normalizeOrder_keys order :
  Permutation (filter isModuleKey (normalizeOrder order)) (map AKey DEFAULT_ORDER).
Proof.
  apply NoDup_Permutation.
  - apply NoDup_filter, normalizeOrder_NoDup.
  - exact DEFAULT_ORDER_NoDup.
  - intros v. rewrite filter_In. split.
    + intros [_ Hk]. destruct v as [k|n]; [|discriminate].
      apply in_map, DEFAULT_ORDER_complete.
    + intros Hv. apply in_map_iff in Hv. destruct Hv as (k & <- & _).
      split; [apply normalizeOrder_complete|reflexivity].
Qed.

Lemma filter_all (A : Type) (p : A -> bool) l :
  Forall (fun x => p x = true) l -> filter p l = l.
Proof.
  induction 1 as [|x xs Hx _ IH]; simpl; [reflexivity|]. now rewrite Hx, IH.
Qed.

(** When no inherited member got in, the order is that permutation. *)
Lemma normalizeOrder_permutation order :
  Forall (fun v => isModuleKey v = true) (normalizeOrder order) ->
  Permutation (normalizeOrder order) (map AKey DEFAULT_ORDER).
Proof.
  intros H. rewrite <- (filter_all _ H) at 1. apply normalizeOrder_keys.
Qed.

(** What gets into the order besides module identifiers comes from a key
    of the input that names an inherited member. *)
Lemma normalizeOrder_inherited order member :
  In (AProto member) (normalizeOrder order) ->
  exists rawKey,
    In rawKey order /\ normalizeModuleKey (Some rawKey) = Some (AProto member).
Proof.
  unfold normalizeOrder. intros H.
  apply fold_pushFallback_spec in H;
    [|apply fold_pushResolved_spec; constructor].
  destruct H as [H|[k H]]; [|discriminate].
  apply fold_pushResolved_spec in H; [|constructor].
  destruct H as [[]|(rawKey & Hin & Hres)].
  destruct order as [|x xs]; [|eauto].
  simpl in Hin. repeat (destruct Hin as [<-|Hin]; [discriminate Hres|]).
  destruct Hin.
Qed.

Lemma forallb_forall' (A : Type) (p : A -> bool) l :
  Forall (fun x => p x = true) l -> forallb p l = true.
Proof. intros H. apply forallb_forall. now apply Forall_forall. Qed.

Lemma removeAll_clean s :
  Forall (fun c => isCleanUnit c = true) (toLowerCase (removeAll isKeyNoise s)).
Proof.
  unfold toLowerCase, removeAll. apply Forall_forall. intros c Hin.
  apply in_map_iff in Hin. destruct Hin as (d & <- & Hd).
  apply filter_In in Hd. destruct Hd as [_ Hd].
  unfold isKeyNoise in Hd. unfold isCleanUnit, lowerUnit.
  destruct (d =? 95) eqn:H95; [discriminate Hd|]. apply N.eqb_neq in H95.
  destruct ((65 <=? d) && (d <=? 90)) eqn:Hup.
  - apply andb_true_iff in Hup. destruct Hup as [Hlo Hhi].
    apply N.leb_le in Hlo. apply N.leb_le in Hhi.
    apply andb_true_iff. split; apply negb_true_iff.
    + apply N.eqb_neq. lia.
    + apply andb_false_iff. right. apply N.leb_gt. lia.
  - destruct (d =? 0x212A) eqn:Hk; [reflexivity|].
    apply andb_true_iff. split; apply negb_true_iff;
      [now apply N.eqb_neq|exact Hup].
Qed.

(** The one inherited member a cleaned key can name is [constructor]. *)
Lemma normalizeModuleKey_inherited value member :
  normalizeModuleKey value = Some (AProto member) ->
  member = lit "constructor".
Proof.
  unfold normalizeModuleKey. destruct value as [[|c s]|]; try discriminate.
  pose proof (removeAll_clean (c :: s)) as Hclean.
  remember (toLowerCase (removeAll isKeyNoise (c :: s))) as clean eqn:Hc.
  clear Hc. unfold aliasLookup.
  destruct (ownAlias clean MODULE_ALIAS); [discriminate|].
  destruct (existsb (jsstring_eqb clean) objectPrototypeMembers) eqn:Hex;
    [|discriminate].
  intros H. injection H as <-.
  apply existsb_exists in Hex. destruct Hex as (m & Hin & Heq).
  apply jsstring_eqb_eq in Heq. subst m.
  apply forallb_forall' in Hclean.
  simpl in Hin.
  repeat (destruct Hin as [<-|Hin];
          [first [reflexivity|vm_compute in Hclean; discriminate Hclean]|]).
  destruct Hin.
Qed.

Lemma normalizeOrder_entries order v :
  In v (normalizeOrder order) ->
  isModuleKey v = true \/ v = AProto (lit "constructor").
Proof.
  intros H. destruct v as [k|member]; [now left|right].
  apply normalizeOrder_inherited in H. destruct H as (rawKey & _ & H).
  apply normalizeModuleKey_inherited in H. now subst.
Qed.

(** The two loops compute what the specification describes. *)
Lemma fold_pushResolved_keepFirst source : forall output,
  fold_left pushResolved source output
  = output
    ++ keepFirst output
         (filterMap (fun rawKey => normalizeModuleKey (Some rawKey)) source).
Proof.
  induction source as [|rawKey rest IH]; intros output;
    cbn [fold_left filterMap].
  - cbn [keepFirst]. now rewrite app_nil_r.
  - rewrite IH. unfold pushResolved.
    destruct (normalizeModuleKey (Some rawKey)) as [v|]; [|reflexivity].
    cbn [keepFirst]. destruct (includes output v); [reflexivity|].
    now rewrite <- app_assoc.
Qed.

Lemma fold_pushFallback_keepFirst keys : forall output,
  fold_left pushFallback keys output
  = output ++ keepFirst output (map AKey keys).
Proof.
  induction keys as [|key rest IH]; intros output;
    cbn [fold_left map keepFirst].
  - now rewrite app_nil_r.
  - rewrite IH. unfold pushFallback.
    destruct (includes output (AKey key)); [reflexivity|].
    now rewrite <- app_assoc.
Qed.

Lemma normalizeOrder_resolvedOrder order :
  normalizeOrder order = resolvedOrder order.
Proof.
  unfold normalizeOrder, resolvedOrder.
  now rewrite fold_pushFallback_keepFirst, fold_pushResolved_keepFirst.
Qed.

(* ================================================================== *)
(** * Texts that trimming leaves alone *)
(* ================================================================== *)

Lemma dropWhile_head (A : Type) (p : A -> bool) l x rest :
  dropWhile p l = x :: rest -> p x = false.
Proof.
  induction l as [|y ys IH]; simpl; [discriminate|].
  destruct (p y) eqn:Hy; [exact IH|]. intros H. injection H as <- _. exact Hy.
Qed.

Lemma dropWhile_fixed (A : Type) (p : A -> bool) x rest :
  p x = false -> dropWhile p (x :: rest) = x :: rest.
Proof. intros H. simpl. now rewrite H. Qed.

Lemma dropWhile_idem (A : Type) (p : A -> bool) l :
  dropWhile p (dropWhile p l) = dropWhile p l.
Proof.
  destruct (dropWhile p l) as [|x rest] eqn:H; [reflexivity|].
  apply dropWhile_fixed. exact (dropWhile_head _ _ H).
Qed.

Lemma dropWhile_keeps_last (A : Type) (p : A -> bool) l x :
  p x = false -> exists l', dropWhile p (l ++ [x]) = l' ++ [x].
Proof.
  intros Hx. induction l as [|y ys IH]; simpl.
  - rewrite Hx. now exists [].
  - destruct (p y); [exact IH|]. now exists (y :: ys).
Qed.

Lemma trimEnd_head x rest :
  isWhiteSpace x = false -> exists rest', trimEnd (x :: rest) = x :: rest'.
Proof.
  intros Hx. unfold trimEnd. simpl.
  destruct (@dropWhile_keeps_last _ isWhiteSpace (rev rest) x Hx) as (l' & ->).
  rewrite rev_app_distr. simpl. eauto.
Qed.

Lemma trimEnd_idem s : trimEnd (trimEnd s) = trimEnd s.
Proof. unfold trimEnd. now rewrite rev_involutive, dropWhile_idem. Qed.

Lemma trimmed_fixed s : trimmed s -> trim s = s.
Proof. intros [Hs He]. unfold trim. now rewrite Hs. Qed.

Lemma trimmed_trim s : trimmed (trim s).
Proof.
  unfold trim, trimmed. split; [|apply trimEnd_idem].
  remember (trimStart s) as y eqn:Hy. symmetry in Hy.
  destruct y as [|x rest]; [reflexivity|].
  apply dropWhile_head in Hy.
  destruct (@trimEnd_head x rest Hy) as (rest' & ->).
  now apply dropWhile_fixed.
Qed.

Lemma trimmed_nil : trimmed [].
Proof. split; reflexivity. Qed.

(** A text without white space is trimmed. *)
Lemma trimmed_no_space s :
  Forall (fun c => isWhiteSpace c = false) s -> trimmed s.
Proof.
  intros H. split.
  - destruct H as [|x rest Hx _]; [reflexivity|now apply dropWhile_fixed].
  - unfold trimEnd.
    assert (dropWhile isWhiteSpace (rev s) = rev s) as ->.
    { apply Forall_rev in H. destruct (rev s) as [|x rest]; [reflexivity|].
      inversion H; subst. now apply dropWhile_fixed. }
    apply rev_involutive.
Qed.

Lemma string_of_uint_no_space u :
  Forall (fun c => isWhiteSpace c = false) (lit (NilEmpty.string_of_uint u)).
Proof.
  induction u; simpl; constructor; try reflexivity; assumption.
Qed.

Lemma numberToString_no_space n :
  Forall (fun c => isWhiteSpace c = false) (numberToString n).
Proof.
  unfold numberToString, NilZero.string_of_int, NilZero.string_of_uint.
  destruct (Z.to_int n) as [u|u].
  - destruct u; try apply string_of_uint_no_space. repeat constructor.
  - change (lit (String "-" ?s)) with (45 :: lit s).
    constructor; [reflexivity|].
    destruct u; try apply string_of_uint_no_space. repeat constructor.
Qed.

Lemma toStringValue_trimmed input s : toStringValue input = Some s -> trimmed s.
Proof.
  destruct input; simpl; try discriminate; intros H; injection H as <-.
  - apply trimmed_no_space, numberToString_no_space.
  - apply trimmed_trim.
Qed.

Lemma toStringValue_trimmedOpt input : trimmedOpt (toStringValue input).
Proof.
  destruct (toStringValue input) eqn:H; simpl; [|exact I].
  exact (toStringValue_trimmed _ H).
Qed.

Lemma toStringValue_filled input c s :
  toStringValue input = Some (c :: s) -> filledText (c :: s).
Proof.
  intros H. split; [exact (toStringValue_trimmed _ H)|discriminate].
Qed.

Lemma nonEmpty_true s : nonEmpty s = true <-> s <> [].
Proof. destruct s; simpl; split; congruence. Qed.

Lemma toStringArray_filled input : Forall filledText (toStringArray input).
Proof.
  unfold toStringArray.
  assert (Hscalar : forall v,
             Forall filledText
               match toStringValue v with
               | Some (c :: s) => [c :: s]
               | _ => []
               end).
  { intros v. destruct (toStringValue v) as [[|c s]|] eqn:H;
      try constructor; [|constructor].
    exact (toStringValue_filled _ H). }
  destruct input; try apply Hscalar.
  apply Forall_forall. intros item Hin. apply filter_In in Hin.
  destruct Hin as [Hin Hne]. apply in_map_iff in Hin.
  destruct Hin as (x & <- & _). split; [apply trimmed_trim|].
  now apply nonEmpty_true.
Qed.

Lemma normalizeTechStack_filled input : Forall filledText (normalizeTechStack input).
Proof.
  unfold normalizeTechStack.
  pose proof (toStringArray_filled input) as H.
  destruct (toStringArray input) as [|x xs]; [|exact H].
  destruct (toStringValue input) as [[|c s]|]; try constructor.
  apply Forall_forall. intros item Hin. apply filter_In in Hin.
  destruct Hin as [Hin Hne]. apply in_map_iff in Hin.
  destruct Hin as (x & <- & _). split; [apply trimmed_trim|].
  now apply nonEmpty_true.
Qed.

(** ** Reading a canonical text back *)

Lemma toStringValue_JStr s : trimmed s -> toStringValue (JStr s) = Some s.
Proof. intros H. simpl. now rewrite trimmed_fixed. Qed.

Lemma toStringValue_treeOfString o :
  trimmedOpt o -> toStringValue (treeOfString o) = o.
Proof.
  destruct o as [s|]; simpl; [|reflexivity]. intros H. now rewrite trimmed_fixed.
Qed.

Lemma filter_trim_filled l :
  Forall filledText l ->
  filter nonEmpty (map (fun s => trim (trim s)) l) = l.
Proof.
  induction 1 as [|s rest [Ht Hne] _ IH]; cbn [map filter]; [reflexivity|].
  rewrite (trimmed_fixed Ht), (trimmed_fixed Ht), IH.
  destruct s; [congruence|reflexivity].
Qed.

Lemma toStringArray_treeOfStrings l :
  Forall filledText l -> toStringArray (treeOfStrings l) = l.
Proof.
  intros H. unfold treeOfStrings, toStringArray. rewrite !map_map.
  cbn [toStringValue withDefault]. now apply filter_trim_filled.
Qed.

Lemma normalizeTechStack_treeOfStrings l :
  Forall filledText l -> normalizeTechStack (treeOfStrings l) = l.
Proof.
  intros H. unfold normalizeTechStack.
  rewrite (toStringArray_treeOfStrings H). now destruct l.
Qed.

(** ** Reading a property of an object literal *)

Lemma lookup_hit key n v rest :
  jsstring_eqb (lit n) key = true -> lookup key (field n v :: rest) = v.
Proof. intros H. unfold field. simpl. now rewrite H. Qed.

Lemma lookup_miss key n v rest :
  jsstring_eqb (lit n) key = false ->
  lookup key (field n v :: rest) = lookup key rest.
Proof. intros H. unfold field. simpl. now rewrite H. Qed.

Ltac read_fields :=
  cbn [asRecord getOpt getProp];
  repeat first
    [ rewrite lookup_hit by reflexivity
    | rewrite lookup_miss by reflexivity
    | progress change (lookup ?k []) with JUndefined ].

(* ================================================================== *)
(** * A canonical document is a fixed point *)
(* ================================================================== *)

Lemma filterMap_tree (A : Type) (f : JsValue -> option A) (g : A -> JsValue)
  (P : A -> Prop) l :
  (forall a, P a -> f (g a) = Some a) ->
  Forall P l -> filterMap f (map g l) = l.
Proof.
  intros Hfg. induction 1 as [|a rest Ha _ IH]; cbn [map filterMap];
    [reflexivity|].
  now rewrite (Hfg a Ha), IH.
Qed.

Ltac fill_text H :=
  let Ht := fresh "Ht" in
  let Hne := fresh "Hne" in
  destruct H as [Ht Hne];
  rewrite (toStringValue_JStr Ht).

Lemma educationCourse_tree c :
  canonicalCourse c -> educationCourse (treeOfCourse c) = Some c.
Proof.
  destruct c as [n cr]. unfold canonicalCourse, educationCourse, treeOfCourse.
  cbn [course_name credit]. intros (Hn & Hc). read_fields.
  fill_text Hn. rewrite (toStringValue_treeOfString _ Hc).
  destruct n; [congruence|reflexivity].
Qed.

Lemma educationItem_tree e :
  canonicalEducationItem e -> educationItem (treeOfEducationItem e) = Some e.
Proof.
  destruct e as [sc st en gp mj cs rk dg].
  unfold canonicalEducationItem, educationItem, treeOfEducationItem.
  cbn [school edu_start edu_end gpa major courses rank degree].
  intros (Hs & H1 & H2 & H3 & H4 & Hc & H5 & H6). read_fields.
  fill_text Hs.
  rewrite !toStringValue_treeOfString by assumption.
  cbn [toArray]. rewrite (filterMap_tree _ _ educationCourse_tree Hc).
  destruct sc; [congruence|reflexivity].
Qed.

Lemma projectItem_tree p :
  canonicalProjectItem p -> projectItem (treeOfProjectItem p) = Some p.
Proof.
  destruct p as [nm tm ds rs ts]. unfold canonicalProjectItem, projectItem, treeOfProjectItem.
  cbn [proj_name proj_time proj_description responsibilities techStack].
  intros (Hn & H1 & H2 & Hr & Ht). read_fields.
  fill_text Hn.
  rewrite !toStringValue_treeOfString by assumption.
  rewrite (toStringArray_treeOfStrings Hr), (normalizeTechStack_treeOfStrings Ht).
  destruct nm; [congruence|reflexivity].
Qed.

Lemma workItem_tree w :
  canonicalWorkItem w -> workItem (treeOfWorkItem w) = Some w.
Proof.
  destruct w as [nm tm ps acs]. unfold canonicalWorkItem, workItem, treeOfWorkItem.
  cbn [company work_time work_position work_achievements].
  intros (Hn & H1 & H2 & Ha). read_fields.
  fill_text Hn.
  rewrite !toStringValue_treeOfString by assumption.
  rewrite (toStringArray_treeOfStrings Ha).
  destruct nm; [congruence|reflexivity].
Qed.

Lemma honorItem_tree h :
  canonicalHonorItem h -> honorItem (treeOfHonorItem h) = Some h.
Proof.
  destruct h as [nm tm]. unfold canonicalHonorItem, honorItem, treeOfHonorItem.
  cbn [honor_name honor_time]. intros (Hn & H1). read_fields.
  fill_text Hn.
  rewrite !toStringValue_treeOfString by assumption.
  destruct nm; [congruence|reflexivity].
Qed.

Lemma openSourceItem_tree o :
  canonicalOpenSourceItem o -> openSourceItem (treeOfOpenSourceItem o) = Some o.
Proof.
  destruct o as [nm ul sr ds acs].
  unfold canonicalOpenSourceItem, openSourceItem, treeOfOpenSourceItem.
  cbn [os_name os_url stars os_description os_achievements].
  intros (Hn & H1 & H2 & H3 & Ha). read_fields.
  fill_text Hn.
  rewrite !toStringValue_treeOfString by assumption.
  rewrite (toStringArray_treeOfStrings Ha).
  destruct nm; [congruence|reflexivity].
Qed.

(** The body the five list sections share, on a section fed back. *)
Lemma listSection_tree (A : Type) (f : JsValue -> option A) (g : A -> JsValue)
  (P : A -> Prop) (s : option (Section A)) :
  (forall a, P a -> f (g a) = Some a) ->
  canonicalSection P s ->
  (let input := treeOfOption (treeOfSection g) s in
   if negb (truthy input) then None
   else closeSection (asRecord input)
          (filterMap f (sectionItems (asRecord input) input)))
  = s.
Proof.
  intros Hfg. destruct s as [[en its]|]; [|reflexivity].
  cbn [canonicalSection items]. intros (Hne & Hall).
  unfold sectionItems, treeOfSection.
  cbn [treeOfOption truthy negb enabled items]. read_fields.
  cbn [nullish toArray].
  rewrite (filterMap_tree _ _ Hfg Hall).
  destruct its; [congruence|]. unfold closeSection. read_fields.
  reflexivity.
Qed.

Lemma normalizeEducationSection_tree s :
  canonicalSection canonicalEducationItem s ->
  normalizeEducationSection (treeOfOption (treeOfSection treeOfEducationItem) s) = s.
Proof.
  intros H. unfold normalizeEducationSection.
  exact (@listSection_tree _ educationItem treeOfEducationItem
           canonicalEducationItem s educationItem_tree H).
Qed.

Lemma normalizeProjectsSection_tree s :
  canonicalSection canonicalProjectItem s ->
  normalizeProjectsSection (treeOfOption (treeOfSection treeOfProjectItem) s) = s.
Proof.
  intros H. unfold normalizeProjectsSection.
  exact (@listSection_tree _ projectItem treeOfProjectItem
           canonicalProjectItem s projectItem_tree H).
Qed.

Lemma normalizeWorkSection_tree s :
  canonicalSection canonicalWorkItem s ->
  normalizeWorkSection (treeOfOption (treeOfSection treeOfWorkItem) s) = s.
Proof.
  intros H. unfold normalizeWorkSection.
  exact (@listSection_tree _ workItem treeOfWorkItem canonicalWorkItem s workItem_tree H).
Qed.

Lemma normalizeHonorsSection_tree s :
  canonicalSection canonicalHonorItem s ->
  normalizeHonorsSection (treeOfOption (treeOfSection treeOfHonorItem) s) = s.
Proof.
  intros H. unfold normalizeHonorsSection.
  exact (@listSection_tree _ honorItem treeOfHonorItem canonicalHonorItem s honorItem_tree H).
Qed.

Lemma normalizeOpenSourceSection_tree s :
  canonicalSection canonicalOpenSourceItem s ->
  normalizeOpenSourceSection
    (treeOfOption (treeOfSection treeOfOpenSourceItem) s) = s.
Proof.
  intros H. unfold normalizeOpenSourceSection.
  exact (@listSection_tree _ openSourceItem treeOfOpenSourceItem
           canonicalOpenSourceItem s openSourceItem_tree H).
Qed.

Lemma normalizeSkillsSection_tree s :
  canonicalSkills s ->
  normalizeSkillsSection (treeOfOption treeOfSkills s) = s.
Proof.
  destruct s as [[en od hi its]|]; [|reflexivity].
  cbn [canonicalSkills skills_items]. intros (Hne & Hall).
  unfold normalizeSkillsSection, treeOfSkills.
  cbn [treeOfOption truthy negb skills_enabled ordered hideIndex skills_items].
  read_fields.
  change (nullish (treeOfStrings its) ?x) with (treeOfStrings its).
  rewrite (toStringArray_treeOfStrings Hall).
  destruct its; [congruence|]. reflexivity.
Qed.

Lemma normalizeProfileSection_tree p :
  canonicalProfile p ->
  normalizeProfileSection (treeOfOption treeOfProfile p) = p.
Proof.
  destruct p as [[en text]|]; [|reflexivity].
  cbn [canonicalProfile content]. intros Hc.
  unfold normalizeProfileSection, treeOfProfile.
  cbn [treeOfOption truthy negb profile_enabled content].
  read_fields. cbn [nullish]. fill_text Hc.
  destruct text; [congruence|reflexivity].
Qed.

(** ** The site block *)

Lemma keyName_filled k : filledText (keyName k).
Proof. destruct k; (split; [split; reflexivity|discriminate]). Qed.

Lemma normalizeModuleKey_keyName k :
  normalizeModuleKey (Some (keyName k)) = Some (AKey k).
Proof. destruct k; reflexivity. Qed.

Lemma module_keys_only o :
  Forall (fun v => isModuleKey v = true) o -> exists keys, o = map AKey keys.
Proof.
  induction 1 as [|v rest Hv _ (keys & ->)]; [now exists []|].
  destruct v as [k|n]; [|discriminate]. now exists (k :: keys).
Qed.

Lemma keepFirst_fresh l : forall seen,
  NoDup l -> (forall v, In v l -> ~ In v seen) -> keepFirst seen l = l.
Proof.
  induction l as [|v rest IH]; intros seen Hnd Hfresh; [reflexivity|].
  inversion Hnd as [|? ? Hv Hrest]; subst. cbn [keepFirst].
  replace (includes seen v) with false
    by (symmetry; apply includes_false, Hfresh; now left).
  f_equal. apply IH; [exact Hrest|].
  intros w Hw Hin. apply in_app_or in Hin. destruct Hin as [Hin|[<-|[]]].
  - apply (Hfresh w); [now right|exact Hin].
  - contradiction.
Qed.

Lemma keepFirst_seen l : forall seen,
  (forall v, In v l -> In v seen) -> keepFirst seen l = [].
Proof.
  induction l as [|v rest IH]; intros seen Hseen; [reflexivity|].
  cbn [keepFirst].
  replace (includes seen v) with true
    by (symmetry; apply includes_In, Hseen; now left).
  apply IH. intros w Hw. apply Hseen. now right.
Qed.

Lemma order_tree o :
  NoDup o ->
  Forall (fun v => isModuleKey v = true) o ->
  (forall k, In (AKey k) o) ->
  normalizeOrder (toStringArray (JArr (map treeOfAlias o))) = o.
Proof.
  intros Hnd Hkeys Hall. destruct (module_keys_only Hkeys) as (keys & ->).
  rewrite map_map. cbn [treeOfAlias].
  rewrite <- (map_map keyName JStr).
  change (JArr (map JStr ?l)) with (treeOfStrings l).
  rewrite toStringArray_treeOfStrings
    by (apply Forall_forall; intros s Hs; apply in_map_iff in Hs;
        destruct Hs as (k & <- & _); apply keyName_filled).
  rewrite normalizeOrder_resolvedOrder. unfold resolvedOrder.
  assert (Hsrc : match map keyName keys with
                 | [] => map keyName DEFAULT_ORDER
                 | _ :: _ => map keyName keys
                 end = map keyName keys).
  { destruct keys; [|reflexivity]. destruct (Hall Education). }
  rewrite Hsrc.
  assert (Hres : filterMap (fun rawKey => normalizeModuleKey (Some rawKey))
                   (map keyName keys) = map AKey keys).
  { clear. induction keys as [|k rest IH]; [reflexivity|].
    cbn [map filterMap]. now rewrite normalizeModuleKey_keyName, IH. }
  rewrite Hres, (@keepFirst_fresh (map AKey keys) [] Hnd) by (intros v _ []).
  rewrite keepFirst_seen; [apply app_nil_r|].
  intros v Hv. apply in_map_iff in Hv. destruct Hv as (k & <- & _). apply Hall.
Qed.

Lemma titles_tree m :
  map fst m = map fst MODULE_TITLES ->
  Forall (fun entry => filledText (snd entry)) m ->
  spread MODULE_TITLES (normalizeModuleTitleMap (asRecord (treeOfTitles m))) = m.
Proof.
  intros Hkeys Hall.
  do 7 (destruct m as [|[? ?] m]; [discriminate Hkeys|]).
  destruct m; [|discriminate Hkeys].
  cbn [map fst] in Hkeys. injection Hkeys as -> -> -> -> -> -> ->.
  repeat match goal with
         | H : Forall _ (_ :: _) |- _ => inversion H; clear H; subst
         end.
  cbn [snd] in *.
  unfold treeOfTitles, normalizeModuleTitleMap.
  cbn [map fst snd asRecord fold_left].
  repeat match goal with
         | H : filledText ?t |- _ =>
             let Ht := fresh in
             let Hne := fresh in
             destruct H as [Ht Hne];
             rewrite (toStringValue_JStr Ht);
             clear Ht; destruct t; [congruence|clear Hne]
         end.
  vm_compute. reflexivity.
Qed.

Lemma normalizeColor_tree c :
  trimmed c -> startsWithHash c = true ->
  normalizeColor (withDefault (toStringValue (JStr c)) defaultColor) = c.
Proof.
  intros Ht Hh. rewrite (toStringValue_JStr Ht). cbn [withDefault].
  unfold normalizeColor. rewrite (trimmed_fixed Ht).
  destruct c; [discriminate Hh|]. now rewrite Hh.
Qed.

Lemma site_tree data s :
  getProp data "site" = treeOfSite s ->
  canonicalSite s ->
  site (normalizeModernConfig data) = s.
Proof.
  intros Hdata (Ht & (Hc & Hh) & Hp & (Hnd & Hkeys & Hall) & (Htk & Htv)).
  unfold normalizeModernConfig. cbn [site]. rewrite Hdata.
  destruct s as [tt tc tp to tm]. unfold treeOfSite in *.
  cbn [title themeColor pdfFileName order moduleTitles] in *.
  read_fields.
  rewrite (toStringValue_JStr Ht), (toStringValue_JStr Hp).
  rewrite (normalizeColor_tree Hc Hh), (order_tree Hnd Hkeys Hall).
  rewrite (titles_tree Htk Htv). reflexivity.
Qed.

(** ** The basic block *)

Lemma resumeLink_tree l : canonicalLink l -> resumeLink (treeOfLink l) = Some l.
Proof.
  destruct l as [lb ul]. unfold canonicalLink, resumeLink, treeOfLink.
  cbn [label url]. intros (Hl & Hu). read_fields.
  fill_text Hl. destruct Hu as [Hu Hune]. rewrite (toStringValue_JStr Hu).
  destruct lb; [congruence|]. destruct ul; [congruence|reflexivity].
Qed.

Lemma normalizeEducationSummary_tree e :
  match e with
  | Some summary => canonicalSummary summary
  | None => True
  end ->
  normalizeEducationSummary (asRecord (treeOfOption treeOfSummary e)) = e.
Proof.
  destruct e as [[a b c d r]|]; [|reflexivity].
  unfold canonicalSummary, treeOfSummary.
  cbn [sum_school sum_major sum_degree graduationYear raw treeOfOption].
  intros (H1 & H2 & H3 & H4 & H5).
  cbn [asRecord normalizeEducationSummary]. read_fields.
  now rewrite !toStringValue_treeOfString by assumption.
Qed.

Lemma basic_tree data b :
  getProp data "basic" = treeOfBasic b ->
  canonicalBasic b ->
  basic (normalizeModernConfig data) = b.
Proof.
  intros Hdata (Hn & Hg & Ha & Hp & (w & Hw & Hws & Hwe) & (Hcw & Hcp & Hce)
                & Hsum & Hlinks).
  unfold normalizeModernConfig. cbn [basic]. rewrite Hdata.
  destruct b as [bn bg ba bp bw [cw cp ce] bs bl]. unfold treeOfBasic in *.
  cbn [name gender age position workPeriod contacts educationSummary
       addressLinks wechat phone email] in *.
  subst bw. destruct w as [ws we]. cbn [wp_start wp_end] in *.
  read_fields. unfold treeOfWorkPeriod, treeOfContacts.
  cbn [treeOfOption wp_start wp_end wechat phone email]. read_fields.
  rewrite (toStringValue_JStr Hn).
  rewrite !toStringValue_treeOfString by assumption.
  rewrite (normalizeEducationSummary_tree _ Hsum).
  cbn [toArray]. unfold normalizeLinks.
  rewrite (filterMap_tree _ _ resumeLink_tree Hlinks). reflexivity.
Qed.

(** ** The whole document *)

Lemma config_ext (d d' : NormalizedResumeConfig) :
  site d = site d' -> basic d = basic d' ->
  education d = education d' -> skills d = skills d' ->
  projects d = projects d' -> profile d = profile d' ->
  work d = work d' -> honors d = honors d' ->
  openSource d = openSource d' ->
  d = d'.
Proof. destruct d, d'; simpl; intros; subst; reflexivity. Qed.

(** A canonical document, fed back, is returned as it is. *)
Lemma canonical_fixed doc : canonical doc -> renormalize doc = Ok doc.
Proof.
  intros (Hsite & Hbasic & Hedu & Hsk & Hpr & Hpf & Hwk & Hho & Hos).
  unfold renormalize.
  rewrite normalizeConfig_modern by reflexivity. f_equal.
  cbn [nullish treeOfConfig].
  apply config_ext.
  - apply site_tree; [reflexivity|exact Hsite].
  - apply basic_tree; [reflexivity|exact Hbasic].
  - exact (normalizeEducationSection_tree _ Hedu).
  - exact (normalizeSkillsSection_tree _ Hsk).
  - exact (normalizeProjectsSection_tree _ Hpr).
  - exact (normalizeProfileSection_tree _ Hpf).
  - exact (normalizeWorkSection_tree _ Hwk).
  - exact (normalizeHonorsSection_tree _ Hho).
  - exact (normalizeOpenSourceSection_tree _ Hos).
Qed.

(* ================================================================== *)
(** * What the modern path builds is canonical *)
(* ================================================================== *)

Lemma trimmed_cons x c rest :
  isWhiteSpace x = false -> trimmed (c :: rest) -> trimmed (x :: c :: rest).
Proof.
  intros Hx [_ He]. split; [now apply dropWhile_fixed|].
  unfold trimEnd in *. apply (f_equal (@rev N)) in He.
  rewrite rev_involutive in He.
  change (rev (x :: c :: rest)) with (rev (c :: rest) ++ [x]).
  destruct (rev (c :: rest)) as [|y ys] eqn:Hrev.
  - apply (f_equal (@List.length N)) in Hrev. rewrite length_rev in Hrev.
    discriminate Hrev.
  - pose proof (dropWhile_head _ _ He) as Hy.
    change ((y :: ys) ++ [x]) with (y :: (ys ++ [x])).
    rewrite dropWhile_fixed by exact Hy.
    change (y :: ys ++ [x]) with ((y :: ys) ++ [x]).
    rewrite <- Hrev, rev_app_distr, rev_involutive. reflexivity.
Qed.

Lemma withDefault_trimmed input d :
  trimmed d -> trimmed (withDefault (toStringValue input) d).
Proof.
  intros Hd. destruct (toStringValue input) eqn:H; [|exact Hd].
  exact (toStringValue_trimmed _ H).
Qed.

Lemma normalizeColor_canonical value :
  trimmed (normalizeColor value) /\ startsWithHash (normalizeColor value) = true.
Proof.
  split; [|apply normalizeColor_hash]. unfold normalizeColor.
  pose proof (trimmed_trim value) as Ht.
  destruct (trim value) as [|c rest]; [split; reflexivity|].
  destruct (startsWithHash (c :: rest)); [exact Ht|].
  now apply trimmed_cons.
Qed.

(** ** Titles *)

Lemma setTitle_values output key text :
  Forall (fun entry => filledText (snd entry)) output ->
  filledText text ->
  Forall (fun entry => filledText (snd entry)) (setTitle output key text).
Proof.
  intros Hall Ht. induction Hall as [|[k t] rest Hk Hrest IH]; cbn [setTitle].
  - constructor; [exact Ht|constructor].
  - destruct (AliasValue_eqb k key); constructor; assumption.
Qed.

Lemma setTitle_keys output key text :
  (In key (map fst output) /\ map fst (setTitle output key text) = map fst output)
  \/ (~ In key (map fst output)
      /\ map fst (setTitle output key text) = map fst output ++ [key]).
Proof.
  induction output as [|[k t] rest IH]; cbn [setTitle map fst].
  - right. split; [intros []|reflexivity].
  - destruct (AliasValue_eqb k key) eqn:Hk.
    + apply AliasValue_eqb_eq in Hk. subst. left. split; [now left|reflexivity].
    + assert (Hne : k <> key).
      { intros ->. rewrite (proj2 (AliasValue_eqb_eq _ _) eq_refl) in Hk.
        discriminate Hk. }
      cbn [map fst]. destruct IH as [[Hin ->]|[Hnin ->]].
      * left. split; [now right|reflexivity].
      * right. split; [|reflexivity]. intros [Heq|Hin]; contradiction.
Qed.

Lemma normalizeModuleTitleMap_values input :
  Forall (fun entry => filledText (snd entry)) (normalizeModuleTitleMap input).
Proof.
  unfold normalizeModuleTitleMap. destruct input as [entries|]; [|constructor].
  assert (Hgen : forall acc,
             Forall (fun entry : AliasValue * jsstring => filledText (snd entry)) acc ->
             Forall (fun entry => filledText (snd entry))
               (fold_left
                  (fun output entry =>
                     match normalizeModuleKey (Some (fst entry)),
                           toStringValue (snd entry) with
                     | Some moduleKey, Some (c :: text) =>
                         setTitle output moduleKey (c :: text)
                     | _, _ => output
                     end) entries acc)).
  { induction entries as [|[k v] rest IH]; intros acc Hacc; cbn [fold_left];
      [exact Hacc|].
    apply IH. cbn [fst snd].
    destruct (normalizeModuleKey (Some k)); [|exact Hacc].
    destruct (toStringValue v) as [[|c s]|] eqn:Hv; try exact Hacc.
    apply setTitle_values; [exact Hacc|exact (toStringValue_filled _ Hv)]. }
  apply Hgen. constructor.
Qed.

Lemma MODULE_TITLES_values :
  Forall (fun entry => filledText (snd entry)) MODULE_TITLES.
Proof.
  unfold MODULE_TITLES.
  repeat constructor; cbn [snd]; try reflexivity; discriminate.
Qed.

Lemma spread_values a b :
  Forall (fun entry => filledText (snd entry)) a ->
  Forall (fun entry => filledText (snd entry)) b ->
  Forall (fun entry => filledText (snd entry)) (spread a b).
Proof.
  unfold spread. intros Ha Hb. revert a Ha.
  induction Hb as [|[k t] rest Hk _ IH]; intros a Ha; cbn [fold_left];
    [exact Ha|].
  apply IH. now apply setTitle_values.
Qed.

(** The keys of a spread over [MODULE_TITLES]: the seven identifiers,
    then what else was set, none of it a module identifier. *)
Lemma spread_keys b : forall a extra,
  map fst a = map fst MODULE_TITLES ++ extra ->
  Forall (fun v => isModuleKey v = false) extra ->
  exists extra',
    map fst (spread a b) = map fst MODULE_TITLES ++ extra'
    /\ Forall (fun v => isModuleKey v = false) extra'.
Proof.
  unfold spread. induction b as [|[k t] rest IH]; intros a extra Ha Hex;
    cbn [fold_left fst snd]; [eauto|].
  destruct (setTitle_keys a k t) as [[_ Hk]|[Hnin Hk]].
  - apply (IH _ extra); [congruence|exact Hex].
  - apply (IH _ (extra ++ [k])).
    + rewrite Hk, Ha. now rewrite app_assoc.
    + apply Forall_app. split; [exact Hex|]. constructor; [|constructor].
      destruct k as [k|n]; [|reflexivity]. exfalso. apply Hnin.
      rewrite Ha. apply in_or_app. left.
      destruct k; simpl; auto 8.
Qed.

Lemma spread_module_keys b :
  Forall (fun entry => isModuleKey (fst entry) = true) (spread MODULE_TITLES b) ->
  map fst (spread MODULE_TITLES b) = map fst MODULE_TITLES.
Proof.
  intros Hall.
  destruct (@spread_keys b MODULE_TITLES []) as (extra & Hk & Hex);
    [now rewrite app_nil_r|constructor|].
  destruct extra as [|v rest]; [now rewrite app_nil_r in Hk|].
  exfalso. inversion Hex as [|? ? Hv _]; subst.
  rewrite Forall_forall in Hall.
  assert (Hin : In v (map fst (spread MODULE_TITLES b))).
  { rewrite Hk. apply in_or_app. right. now left. }
  apply in_map_iff in Hin. destruct Hin as (entry & <- & Hin).
  apply Hall in Hin. congruence.
Qed.

(** ** Items and sections *)

Lemma closeSection_canonical (A : Type) (P : A -> Prop) section kept :
  Forall P kept -> canonicalSection P (closeSection section kept).
Proof.
  intros H. destruct kept; simpl; [exact I|]. split; [discriminate|exact H].
Qed.

Ltac canonical_fields :=
  repeat match goal with |- _ /\ _ => split end;
  first [ apply toStringValue_trimmedOpt
        | apply toStringArray_filled
        | apply normalizeTechStack_filled
        | idtac ].

Lemma educationCourse_canonical course c :
  educationCourse course = Some c -> canonicalCourse c.
Proof.
  unfold educationCourse.
  destruct (orElse _ _) as [[|x n]|] eqn:Hn; try discriminate.
  intros H. injection H as <-. unfold canonicalCourse. cbn [course_name credit].
  canonical_fields.
  split; [|discriminate]. unfold orElse in Hn.
  destruct (toStringValue (getOpt (asRecord course) "name")) eqn:H1.
  - injection Hn as ->. exact (toStringValue_trimmed _ H1).
  - exact (toStringValue_trimmed _ Hn).
Qed.

Lemma educationItem_canonical item e :
  educationItem item = Some e -> canonicalEducationItem e.
Proof.
  unfold educationItem.
  destruct (toStringValue (getOpt (asRecord item) "school")) as [[|c s]|] eqn:Hs;
    try discriminate.
  intros H. injection H as <-. unfold canonicalEducationItem.
  cbn [school edu_start edu_end gpa major courses rank degree].
  canonical_fields.
  - exact (toStringValue_filled _ Hs).
  - apply filterMap_Forall. exact educationCourse_canonical.
Qed.

Lemma projectItem_canonical item p :
  projectItem item = Some p -> canonicalProjectItem p.
Proof.
  unfold projectItem.
  destruct (toStringValue (getOpt (asRecord item) "name")) as [[|c s]|] eqn:Hs;
    try discriminate.
  intros H. injection H as <-. unfold canonicalProjectItem.
  cbn [proj_name proj_time proj_description responsibilities techStack].
  canonical_fields. exact (toStringValue_filled _ Hs).
Qed.

Lemma workItem_canonical item w :
  workItem item = Some w -> canonicalWorkItem w.
Proof.
  unfold workItem.
  destruct (toStringValue (getOpt (asRecord item) "company")) as [[|c s]|] eqn:Hs;
    try discriminate.
  intros H. injection H as <-. unfold canonicalWorkItem.
  cbn [company work_time work_position work_achievements].
  canonical_fields. exact (toStringValue_filled _ Hs).
Qed.

Lemma honorItem_canonical item h :
  honorItem item = Some h -> canonicalHonorItem h.
Proof.
  unfold honorItem.
  destruct (orElse _ _) as [[|x n]|] eqn:Hn; try discriminate.
  intros H. injection H as <-. unfold canonicalHonorItem.
  cbn [honor_name honor_time]. canonical_fields.
  split; [|discriminate]. unfold orElse in Hn.
  destruct (toStringValue (getOpt (asRecord item) "name")) eqn:H1.
  - injection Hn as ->. exact (toStringValue_trimmed _ H1).
  - exact (toStringValue_trimmed _ Hn).
Qed.

Lemma openSourceItem_canonical item o :
  openSourceItem item = Some o -> canonicalOpenSourceItem o.
Proof.
  unfold openSourceItem.
  destruct (toStringValue (getOpt (asRecord item) "name")) as [[|c s]|] eqn:Hs;
    try discriminate.
  intros H. injection H as <-. unfold canonicalOpenSourceItem.
  cbn [os_name os_url stars os_description os_achievements].
  canonical_fields. exact (toStringValue_filled _ Hs).
Qed.

Lemma resumeLink_canonical item l :
  resumeLink item = Some l -> canonicalLink l.
Proof.
  unfold resumeLink.
  destruct (toStringValue (getOpt (asRecord item) "label")) as [[|c s]|] eqn:Hl;
    try discriminate.
  destruct (toStringValue (getOpt (asRecord item) "url")) as [[|d u]|] eqn:Hu;
    try discriminate.
  intros H. injection H as <-. unfold canonicalLink. cbn [label url].
  split; [exact (toStringValue_filled _ Hl)|exact (toStringValue_filled _ Hu)].
Qed.

Ltac canonical_section item_lemma :=
  match goal with
  | |- context [if negb (truthy ?input) then _ else _] =>
      destruct (negb (truthy input)); [exact I|];
      apply closeSection_canonical, filterMap_Forall; exact item_lemma
  end.

Lemma normalizeEducationSection_canonical input :
  canonicalSection canonicalEducationItem (normalizeEducationSection input).
Proof.
  unfold normalizeEducationSection. canonical_section educationItem_canonical.
Qed.

Lemma normalizeProjectsSection_canonical input :
  canonicalSection canonicalProjectItem (normalizeProjectsSection input).
Proof.
  unfold normalizeProjectsSection. canonical_section projectItem_canonical.
Qed.

Lemma normalizeWorkSection_canonical input :
  canonicalSection canonicalWorkItem (normalizeWorkSection input).
Proof. unfold normalizeWorkSection. canonical_section workItem_canonical. Qed.

Lemma normalizeHonorsSection_canonical input :
  canonicalSection canonicalHonorItem (normalizeHonorsSection input).
Proof. unfold normalizeHonorsSection. canonical_section honorItem_canonical. Qed.

Lemma normalizeOpenSourceSection_canonical input :
  canonicalSection canonicalOpenSourceItem (normalizeOpenSourceSection input).
Proof.
  unfold normalizeOpenSourceSection. canonical_section openSourceItem_canonical.
Qed.

Lemma normalizeSkillsSection_canonical input :
  canonicalSkills (normalizeSkillsSection input).
Proof.
  unfold normalizeSkillsSection.
  destruct (negb (truthy input)); [exact I|].
  pose proof (toStringArray_filled
                (nullish (getOpt (asRecord input) "items") input)) as Hall.
  destruct (toStringArray _) as [|x xs]; [exact I|].
  split; [discriminate|exact Hall].
Qed.

Lemma normalizeProfileSection_canonical input :
  canonicalProfile (normalizeProfileSection input).
Proof.
  unfold normalizeProfileSection.
  destruct (negb (truthy input)); [exact I|].
  destruct (toStringValue _) as [[|c s]|] eqn:H; try exact I.
  exact (toStringValue_filled _ H).
Qed.

Lemma normalizeEducationSummary_canonical input :
  match normalizeEducationSummary input with
  | Some summary => canonicalSummary summary
  | None => True
  end.
Proof.
  destruct input as [props|]; [|exact I]. cbn [normalizeEducationSummary].
  unfold canonicalSummary.
  cbn [sum_school sum_major sum_degree graduationYear raw].
  repeat split; apply toStringValue_trimmedOpt.
Qed.

(** ** The document *)

Lemma modern_canonical data :
  Forall (fun v => isModuleKey v = true)
    (order (site (normalizeModernConfig data))) ->
  Forall (fun entry => isModuleKey (fst entry) = true)
    (moduleTitles (site (normalizeModernConfig data))) ->
  canonical (normalizeModernConfig data).
Proof.
  intros Horder Htitles. unfold canonical.
  split; [|split; [|repeat split]].
  - unfold canonicalSite. cbn [normalizeModernConfig site title themeColor
      pdfFileName order moduleTitles] in *.
    split; [apply withDefault_trimmed; split; reflexivity|].
    split; [apply normalizeColor_canonical|].
    split; [apply withDefault_trimmed; split; reflexivity|].
    split.
    + split; [apply normalizeOrder_NoDup|].
      split; [exact Horder|intros k; apply normalizeOrder_complete].
    + split; [now apply spread_module_keys|].
      apply spread_values;
        [exact MODULE_TITLES_values|apply normalizeModuleTitleMap_values].
  - unfold canonicalBasic. cbn [normalizeModernConfig basic name gender age
      position workPeriod contacts educationSummary addressLinks wechat phone
      email].
    split; [apply withDefault_trimmed; split; reflexivity|].
    do 3 (split; [apply toStringValue_trimmedOpt|]).
    split.
    { eexists. split; [reflexivity|]. cbn [wp_start wp_end].
      split; apply toStringValue_trimmedOpt. }
    split; [repeat split; apply toStringValue_trimmedOpt|].
    split; [apply normalizeEducationSummary_canonical|].
    apply filterMap_Forall. exact resumeLink_canonical.
  - apply normalizeEducationSection_canonical.
  - apply normalizeSkillsSection_canonical.
  - apply normalizeProjectsSection_canonical.
  - apply normalizeProfileSection_canonical.
  - apply normalizeWorkSection_canonical.
  - apply normalizeHonorsSection_canonical.
  - apply normalizeOpenSourceSection_canonical.
Qed.

(** Idempotence through the modern shape, for a document that holds no
    inherited built-in: fed back, it is returned as it is. *)
Lemma modern_renormalize_fixed raw doc :
  normalizeConfig raw = Ok doc ->
  isLegacy (nullish raw (JObj [])) = Ok false ->
  Forall (fun v => isModuleKey v = true) (order (site doc)) ->
  Forall (fun entry => isModuleKey (fst entry) = true) (moduleTitles (site doc)) ->
  renormalize doc = Ok doc.
Proof.
  intros Hdoc Hpath Horder Htitles.
  rewrite (normalizeConfig_modern _ Hpath) in Hdoc. injection Hdoc as <-.
  apply canonical_fixed. now apply modern_canonical.
Qed.

(* ================================================================== *)
(** * When the normalizer throws, and how the work period is split *)
(* ================================================================== *)

Lemma encodeURIComponent_error s e :
  encodeURIComponent s = Throw e -> e = URIError.
Proof.
  assert (Hgen : forall n s, (List.length s <= n)%nat ->
                   encodeURIComponent s = Throw e -> e = URIError).
  { clear s. induction n as [|n IH]; intros s Hlen.
    - destruct s; [discriminate|simpl in Hlen; lia].
    - destruct s as [|c s']; [discriminate|]. cbn [encodeURIComponent].
      simpl in Hlen.
      assert (Hpre : forall p t, (List.length t <= n)%nat ->
                       prepend p (encodeURIComponent t) = Throw e ->
                       e = URIError).
      { intros p t Ht. unfold prepend.
        destruct (encodeURIComponent t) eqn:Hr; cbn [bind]; [discriminate|].
        intros H. injection H as <-. exact (IH t Ht Hr). }
      destruct (isUriUnreserved c); [apply Hpre; lia|].
      destruct (isLowSurrogate c); [congruence|].
      destruct (isHighSurrogate c); [|apply Hpre; lia].
      destruct s' as [|d s'']; [congruence|].
      destruct (isLowSurrogate d); [|congruence].
      apply Hpre. simpl in Hlen. lia. }
  exact (Hgen (List.length s) s (Nat.le_refl _)).
Qed.

(** [normalizeConfig] throws in two cases only: a [TypeError] on a root
    that is a number, a string or a boolean, and a [URIError] on a legacy
    document whose city cannot be encoded. *)
Lemma normalizeConfig_throws raw e :
  normalizeConfig raw = Throw e ->
  (e = TypeError
   /\ ((exists b, raw = JBool b) \/ (exists n, raw = JNum n)
       \/ (exists s, raw = JStr s)))
  \/ (e = URIError
      /\ isLegacy raw = Ok true
      /\ exists city,
           toStringValue (getOpt (asRecord (getProp raw "basic")) "city")
           = Some city
           /\ encodeURIComponent city = Throw URIError).
Proof.
  unfold normalizeConfig.
  destruct (isLegacy (nullish raw (JObj []))) as [[|]|e'] eqn:Hpath;
    cbn [bind]; try discriminate; intros H.
  - right. assert (Hraw : nullish raw (JObj []) = raw).
    { destruct raw; try reflexivity; discriminate Hpath. }
    rewrite Hraw in *.
    apply normalizeLegacyConfig_throws in H. destruct H as (city & Hc & He).
    pose proof (encodeURIComponent_error _ He) as ->. eauto.
  - left. injection H as <-. apply isLegacy_throws in Hpath.
    destruct Hpath as [-> Hk]. split; [reflexivity|].
    destruct raw; simpl in Hk;
      destruct Hk as [[x Hx]|[[x Hx]|[[x Hx]|[Hx|Hx]]]]; try discriminate;
      eauto.
Qed.

(** A legacy city with an unpaired surrogate makes the call throw. *)
Lemma normalizeConfig_city_throws :
  normalizeConfig surrogateCity = Throw URIError.
Proof. reflexivity. Qed.

Lemma splitOn_plain cls s :
  Forall (fun c => cls c = false) s -> splitOn cls s = [s].
Proof.
  induction 1 as [|c rest Hc _ IH]; cbn [splitOn]; [reflexivity|].
  now rewrite Hc, IH.
Qed.

Lemma splitOn_at cls a sep b :
  Forall (fun c => cls c = false) a -> cls sep = true ->
  splitOn cls (a ++ sep :: b) = a :: splitOn cls b.
Proof.
  intros Ha Hsep. induction Ha as [|c rest Hc _ IH]; cbn [app splitOn].
  - now rewrite Hsep.
  - now rewrite Hc, IH.
Qed.

(** A text with one separator is split there, and both sides are
    trimmed. *)
Lemma parseWorkPeriodText_split a sep b :
  Forall (fun c => isPeriodSeparator c = false) a ->
  isPeriodSeparator sep = true ->
  Forall (fun c => isPeriodSeparator c = false) b ->
  parseWorkPeriodText (Some (a ++ sep :: b))
  = if negb (nonEmpty (trim a)) && negb (nonEmpty (trim b)) then None
    else Some {| wp_start := Some (trim a); wp_end := Some (trim b) |}.
Proof.
  intros Ha Hsep Hb. unfold parseWorkPeriodText.
  destruct (a ++ sep :: b) as [|c v] eqn:Hv; [now destruct a|].
  rewrite <- Hv, (@splitOn_at isPeriodSeparator a sep b Ha Hsep),
    (@splitOn_plain isPeriodSeparator b Hb).
  cbn [map nth_error truthyStr]. now destruct (trim a), (trim b).
Qed.

(* ================================================================== *)
(** * Which entries a section keeps *)
(* ================================================================== *)

Local Open Scope N_scope.











(* ================================================================== *)
(** * More on the planner *)
(* ================================================================== *)

Local Open Scope Z_scope.

Lemma findLastSafeCutFrom_member output cuts min max r :
  findLastSafeCutFrom output cuts min max = Some r ->
  output = Some r \/ In r cuts.
Proof.
  revert output. induction cuts as [|cut rest IH]; intros output H; simpl in H.
  - now left.
  - destruct (cut <? min).
    { apply IH in H. destruct H as [H|H]; [now left|right; now right]. }
    destruct (cut >? max); [now left|].
    apply IH in H. destruct H as [H|H]; [|right; now right].
    injection H as <-. right. now left.
Qed.

Lemma chosenEnd_endsWell safeCuts totalHeightPx pageHeightPx cursor :
  cursor + pageHeightPx < totalHeightPx ->
  endsWell safeCuts pageHeightPx
    (cursor, chosenEnd safeCuts totalHeightPx pageHeightPx cursor).
Proof.
  intros Ht. unfold endsWell, chosenEnd. cbn [fst snd].
  destruct (findLastSafeCut safeCuts _ _) as [r|] eqn:Hc; cbn [withDefault].
  - destruct (r <=? cursor + 80) eqn:Hs; [left; lia|]. right.
    pose proof (findLastSafeCut_range _ _ _ Hc) as Hr.
    apply findLastSafeCutFrom_member in Hc.
    destruct Hc as [Hc|Hc]; [discriminate|]. repeat split; try lia; exact Hc.
  - left. destruct (cursor + pageHeightPx <=? cursor + 80); lia.
Qed.

(** What the loop returns from [cursor] on: every segment but the last
    ends well and below the total height, and no segment is longer than a
    page. *)
Lemma pagedCutsLoop_shape safeCuts totalHeightPx pageHeightPx fuel :
  forall cursor segs,
    0 < pageHeightPx ->
    pagedCutsLoop fuel safeCuts totalHeightPx pageHeightPx cursor = Some segs ->
    Forall (fun seg => endsWell safeCuts pageHeightPx seg
                       /\ snd seg < totalHeightPx) (removelast segs)
    /\ Forall (fun seg => cursor <= fst seg
                          /\ fst seg < snd seg <= fst seg + pageHeightPx) segs.
Proof.
  induction fuel as [|fuel IH]; intros cursor segs Hp H; [discriminate|].
  destruct (Z_lt_le_dec cursor totalHeightPx) as [Hc|Hc].
  - destruct (Z_lt_le_dec (cursor + pageHeightPx) totalHeightPx) as [Ht|Ht].
    + rewrite pagedCutsLoop_step in H by assumption.
      pose proof (@chosenEnd_bounds safeCuts totalHeightPx pageHeightPx cursor
                    Hp Ht) as Hb.
      destruct (pagedCutsLoop fuel _ _ _ _) as [rest|] eqn:Hr; [|discriminate].
      injection H as <-. destruct (IH _ _ Hp Hr) as [Hends Hfit].
      assert (Hrest : rest <> []).
      { intros ->. destruct fuel; [discriminate|]. simpl in Hr.
        replace (chosenEnd safeCuts totalHeightPx pageHeightPx cursor
                 <? totalHeightPx) with true in Hr by (symmetry; lia).
        destruct (_ >=? _) in Hr; [discriminate|].
        destruct (pagedCutsLoop fuel _ _ _ _) in Hr; discriminate. }
      split.
      * destruct rest as [|seg rest']; [congruence|].
        change (removelast ((cursor, chosenEnd safeCuts totalHeightPx
                               pageHeightPx cursor) :: seg :: rest'))
          with ((cursor, chosenEnd safeCuts totalHeightPx pageHeightPx cursor)
                  :: removelast (seg :: rest')).
        constructor; [|exact Hends].
        split; [now apply chosenEnd_endsWell|cbn [snd]; lia].
      * constructor; [cbn [fst snd]; lia|].
        eapply Forall_impl; [|exact Hfit]. cbn beta. intros seg Hs. lia.
    + rewrite pagedCutsLoop_last in H by assumption. injection H as <-.
      split; [constructor|]. constructor; [cbn [fst snd]; lia|constructor].
  - simpl in H.
    replace (cursor <? totalHeightPx) with false in H by (symmetry; lia).
    injection H as <-. split; constructor.
Qed.

Lemma removelast_In (A : Type) (x : A) l : In x (removelast l) -> In x l.
Proof.
  induction l as [|y [|z rest] IH]; simpl; [tauto|tauto|].
  intros [H|H]; [now left|right; exact (IH H)].
Qed.

(** ** Sorting and collecting the safe cuts *)

Lemma setAdd_In values v x : In x (setAdd values v) <-> x = v \/ In x values.
Proof.
  unfold setAdd. destruct (existsb (Z.eqb v) values) eqn:H.
  - apply existsb_exists in H. destruct H as (y & Hy & Heq).
    apply Z.eqb_eq in Heq. subst y. split; [now right|].
    intros [->|Hx]; assumption.
  - rewrite in_app_iff. simpl. split.
    + intros [Hx|[<-|[]]]; auto.
    + intros [->|Hx]; auto.
Qed.

Lemma setAdd_NoDup values v : NoDup values -> NoDup (setAdd values v).
Proof.
  intros Hnd. unfold setAdd. destruct (existsb (Z.eqb v) values) eqn:H;
    [exact Hnd|].
  apply NoDup_snoc; [exact Hnd|]. intros Hin.
  assert (existsb (Z.eqb v) values = true); [|congruence].
  apply existsb_exists. exists v. split; [exact Hin|apply Z.eqb_refl].
Qed.

Lemma insertAscending_In v sorted x :
  In x (insertAscending v sorted) <-> x = v \/ In x sorted.
Proof.
  induction sorted as [|y rest IH]; simpl.
  - split; intros [H|H]; auto.
  - destruct (v <=? y); simpl; [split; intros [H|H]; auto|].
    rewrite IH. tauto.
Qed.

Lemma sortAscending_In values x : In x (sortAscending values) <-> In x values.
Proof.
  induction values as [|v rest IH]; simpl; [tauto|].
  rewrite insertAscending_In, IH. split; intros [H|H]; auto.
Qed.

Lemma insertAscending_sorted v sorted :
  StronglySorted Z.lt sorted -> ~ In v sorted ->
  StronglySorted Z.lt (insertAscending v sorted).
Proof.
  induction 1 as [|y rest Hs IH Hall]; intros Hv; simpl.
  - repeat constructor.
  - assert (v <> y) by (intros ->; apply Hv; now left).
    destruct (v <=? y) eqn:Hle.
    + apply Z.leb_le in Hle. constructor; [now constructor|].
      constructor; [lia|]. eapply Forall_impl; [|exact Hall].
      cbn beta. intros z Hz. lia.
    + apply Z.leb_gt in Hle. constructor.
      * apply IH. intros Hin. apply Hv. now right.
      * apply Forall_forall. intros z Hz. apply insertAscending_In in Hz.
        destruct Hz as [->|Hz]; [exact Hle|].
        rewrite Forall_forall in Hall. now apply Hall.
Qed.

Lemma sortAscending_sorted values :
  NoDup values -> StronglySorted Z.lt (sortAscending values).
Proof.
  induction 1 as [|v rest Hv _ IH]; simpl; [constructor|].
  apply insertAscending_sorted; [exact IH|]. now rewrite sortAscending_In.
Qed.

Lemma guardedAdd_In (guard : bool) values v x :
  In x (if guard then setAdd values v else values) <->
  In x values \/ (guard = true /\ x = v).
Proof.
  destruct guard; [rewrite setAdd_In|]; intuition congruence.
Qed.

Lemma inside_spec v total : (v >? 0) && (v <? total) = true <-> 0 < v < total.
Proof. rewrite andb_true_iff, Z.gtb_gt, Z.ltb_lt. lia. Qed.

Lemma addNodeEdges_In total values node x :
  In x (addNodeEdges total values node) <->
  In x values
  \/ (0 < x < total /\ (x = fst node \/ x = snd node)).
Proof.
  unfold addNodeEdges. rewrite !guardedAdd_In, !inside_spec.
  split.
  - intros [[H|[H ->]]|[H ->]]; auto.
  - intros [H|[H [-> | ->]]]; auto.
Qed.

Lemma addNodeEdges_NoDup total values node :
  NoDup values -> NoDup (addNodeEdges total values node).
Proof.
  intros H. unfold addNodeEdges.
  destruct (_ && _); destruct (_ && _); auto using setAdd_NoDup.
Qed.

Lemma fold_addNodeEdges total nodes : forall values,
  NoDup values ->
  NoDup (fold_left (addNodeEdges total) nodes values)
  /\ forall x,
       In x (fold_left (addNodeEdges total) nodes values) <->
       In x values \/ (0 < x < total /\ isNodeEdge nodes x).
Proof.
  induction nodes as [|node rest IH]; intros values Hnd; simpl.
  - split; [exact Hnd|]. intros x. split; [now left|].
    intros [H|[_ (node & [] & _)]]. exact H.
  - destruct (IH _ (addNodeEdges_NoDup total node Hnd)) as [Hnd' Hin].
    split; [exact Hnd'|]. intros x. rewrite Hin, addNodeEdges_In.
    unfold isNodeEdge. split.
    + intros [[H|[Hx He]]|[Hx (n & Hn & He)]]; auto.
      * right. split; [exact Hx|]. exists node. split; [now left|exact He].
      * right. split; [exact Hx|]. exists n. split; [now right|exact He].
    + intros [H|[Hx (n & [<-|Hn] & He)]]; auto.
      right. split; [exact Hx|]. exists n. auto.
Qed.

(** ** Properties of the planner and of the safe cuts *)

(** X1. Whatever the safe cuts are, no segment the planner returns is
    longer than a page, none is empty, and none starts before 0. *)
Theorem getPagedCuts_fits_page (fuel : nat) (safeCuts : list Z)
  (totalHeightPx pageHeightPx : Z) (segs : list Segment) :
  0 < pageHeightPx ->
  getPagedCuts fuel safeCuts totalHeightPx pageHeightPx = Some segs ->
  Forall (fun seg => 0 <= fst seg /\ 0 < snd seg - fst seg <= pageHeightPx) segs.
Proof.
  intros Hp H. apply pagedCutsLoop_shape in H; [|exact Hp].
  destruct H as [_ H]. eapply Forall_impl; [|exact H].
  cbn beta. intros seg Hs. lia.
Qed.

Lemma getPagedCuts_fits_page_witness :
  Forall (fun seg => 0 <= fst seg /\ 0 < snd seg - fst seg <= 800)
    [(0, 800); (800, 1600); (1600, 2000)].
Proof.
  apply (@getPagedCuts_fits_page 5 [0; 2000] 2000 800); [lia|reflexivity].
Defined.

(** X2. Every segment but the last ends below the total height, and
    either a full page after its start, or at a safe cut that lies at least
    the minimum segment and more than 80 pixels after its start. *)
Theorem getPagedCuts_break_positions (fuel : nat) (safeCuts : list Z)
  (totalHeightPx pageHeightPx : Z) (segs : list Segment) :
  0 < pageHeightPx ->
  getPagedCuts fuel safeCuts totalHeightPx pageHeightPx = Some segs ->
  Forall (fun seg => endsWell safeCuts pageHeightPx seg
                     /\ snd seg < totalHeightPx) (removelast segs).
Proof.
  intros Hp H. apply pagedCutsLoop_shape in H; [|exact Hp]. now destruct H.
Qed.

Lemma getPagedCuts_break_positions_witness :
  Forall (fun seg => endsWell [0; 400; 700; 1500] 800 seg /\ snd seg < 1500)
    (removelast [(0, 700); (700, 1500)]).
Proof.
  apply (@getPagedCuts_break_positions 5 [0; 400; 700; 1500] 1500 800);
    [lia|reflexivity].
Defined.

(** X3. When the only safe cuts are 0 and the total height, the planner
    slices naively: every segment but the last is exactly one page long. *)
Theorem getPagedCuts_naive_slicing (fuel : nat)
  (totalHeightPx pageHeightPx : Z) (segs : list Segment) :
  0 < pageHeightPx ->
  getPagedCuts fuel [0; totalHeightPx] totalHeightPx pageHeightPx = Some segs ->
  Forall (fun seg => snd seg = fst seg + pageHeightPx) (removelast segs).
Proof.
  intros Hp H. apply pagedCutsLoop_shape in H; [|exact Hp].
  destruct H as [Hends Hfit]. rewrite Forall_forall in *.
  intros seg Hin. destruct (Hends seg Hin) as [[Hfull|Hcut] Hbelow];
    [exact Hfull|].
  specialize (Hfit seg (removelast_In _ _ Hin)).
  destruct Hcut as ([H0|[Ht|[]]] & _). all: lia.
Qed.

Lemma getPagedCuts_naive_slicing_witness :
  Forall (fun seg => snd seg = fst seg + 800)
    (removelast [(0, 800); (800, 1600); (1600, 2000)]).
Proof.
  apply (@getPagedCuts_naive_slicing 5 2000 800); [lia|reflexivity].
Defined.

Lemma collectSafeCuts_members nodes totalHeightPx :
  NoDup (fold_left (addNodeEdges totalHeightPx) nodes
           (setAdd (setAdd [] 0) totalHeightPx))
  /\ forall cut,
       In cut (collectSafeCuts nodes totalHeightPx) <->
       cut = 0 \/ cut = totalHeightPx
       \/ (0 < cut < totalHeightPx /\ isNodeEdge nodes cut).
Proof.
  unfold collectSafeCuts.
  assert (Hnd : NoDup (setAdd (setAdd [] 0) totalHeightPx))
    by (apply setAdd_NoDup, setAdd_NoDup; constructor).
  destruct (fold_addNodeEdges totalHeightPx nodes Hnd) as [Hnd' Hin].
  split; [exact Hnd'|].
  intros cut. rewrite sortAscending_In, Hin, !setAdd_In. simpl. tauto.
Qed.

(** X4. The safe cuts are strictly ascending, and they are exactly: 0, the
    total height, and every top or bottom of a node that lies strictly
    between the two. *)
Theorem collectSafeCuts_spec (nodes : list NodeEdges) (totalHeightPx : Z) :
  StronglySorted Z.lt (collectSafeCuts nodes totalHeightPx)
  /\ forall cut,
       In cut (collectSafeCuts nodes totalHeightPx) <->
       cut = 0 \/ cut = totalHeightPx
       \/ (0 < cut < totalHeightPx /\ isNodeEdge nodes cut).
Proof.
  destruct (collectSafeCuts_members nodes totalHeightPx) as [Hnd Hin].
  split; [|exact Hin]. unfold collectSafeCuts. now apply sortAscending_sorted.
Qed.

(** X5. With the safe cuts collected from the nodes, every page break but
    the end of the document falls a full page after the start of its
    segment, or on the top or bottom of a node. *)
Theorem page_breaks_at_node_edges (fuel : nat) (nodes : list NodeEdges)
  (totalHeightPx pageHeightPx : Z) (segs : list Segment) :
  0 < pageHeightPx ->
  getPagedCuts fuel (collectSafeCuts nodes totalHeightPx)
    totalHeightPx pageHeightPx = Some segs ->
  Forall (fun seg => snd seg = fst seg + pageHeightPx
                     \/ isNodeEdge nodes (snd seg)) (removelast segs).
Proof.
  intros Hp H. apply pagedCutsLoop_shape in H; [|exact Hp].
  destruct H as [Hends Hfit]. rewrite Forall_forall in *.
  intros seg Hin. destruct (Hends seg Hin) as [[Hfull|Hcut] Hbelow];
    [now left|right].
  specialize (Hfit seg (removelast_In _ _ Hin)).
  destruct Hcut as (Hmem & _ & Hfar & _).
  apply collectSafeCuts_members in Hmem.
  destruct Hmem as [H0|[Ht|[_ Hedge]]]; [lia|lia|exact Hedge].
Qed.

Lemma page_breaks_at_node_edges_witness :
  Forall (fun seg => snd seg = fst seg + 800
                     \/ isNodeEdge [(100, 700); (700, 1400)] (snd seg))
    (removelast [(0, 700); (700, 1400); (1400, 2200); (2200, 2300)]).
Proof.
  apply (@page_breaks_at_node_edges 5 [(100, 700); (700, 1400)] 2300 800);
    [lia|reflexivity].
Defined.

(** X6. In an ascending list of cuts, [findLastSafeCut] returns the
    greatest cut within [[min, max]], and nothing exactly when no cut lies
    in that range. *)
Theorem findLastSafeCut_sorted (cuts : list Z) (min max : Z) :
  StronglySorted Z.le cuts ->
  match findLastSafeCut cuts min max with
  | Some r =>
      In r cuts /\ min <= r <= max
      /\ forall c, In c cuts -> min <= c <= max -> c <= r
  | None => forall c, In c cuts -> ~ (min <= c <= max)
  end.
Proof.
  intros Hs. destruct (findLastSafeCut cuts min max) as [r|] eqn:Hr.
  - pose proof (@findLastSafeCut_greatest cuts min max r Hs Hr) as [Hrange Hmax].
    split; [|now split].
    apply findLastSafeCutFrom_member in Hr.
    destruct Hr as [Hr|Hr]; [discriminate|exact Hr].
  - exact (@findLastSafeCut_none cuts min max Hs Hr).
Qed.

Lemma findLastSafeCut_sorted_witness :
  In 700 [0; 400; 700; 820; 1500] /\ 440 <= 700 <= 800
  /\ forall c, In c [0; 400; 700; 820; 1500] -> 440 <= c <= 800 -> c <= 700.
Proof.
  apply (@findLastSafeCut_sorted [0; 400; 700; 820; 1500] 440 800).
  repeat constructor; lia.
Defined.

(* ================================================================== *)
(** * More on the normalizer *)
(* ================================================================== *)

Local Open Scope N_scope.

(** X7. Whatever the input, the resolved order never repeats an entry and
    holds every module identifier; its module identifiers are a
    permutation of the seven canonical ones; and the only other entry it
    can hold is the built-in inherited under the name [constructor]. *)
Theorem normalizeOrder_invariant (order : list jsstring) :
  NoDup (normalizeOrder order)
  /\ (forall k, In (AKey k) (normalizeOrder order))
  /\ Permutation (filter isModuleKey (normalizeOrder order))
       (map AKey DEFAULT_ORDER)
  /\ (forall v, In v (normalizeOrder order) ->
        isModuleKey v = true \/ v = AProto (lit "constructor")).
Proof.
  split; [apply normalizeOrder_NoDup|].
  split; [intros k; apply normalizeOrder_complete|].
  split; [apply normalizeOrder_keys|].
  intros v. apply normalizeOrder_entries.
Qed.

(** X8. The resolved order is built as follows: the entries of the input
    that resolve, in first-seen order and without repetition (those of the
    default order when the input is empty), then the module identifiers
    still missing, in the default order. *)
Theorem normalizeOrder_first_seen (order : list jsstring) :
  let source :=
    match order with
    | [] => map keyName DEFAULT_ORDER
    | _ => order
    end in
  let seen :=
    keepFirst []
      (filterMap (fun rawKey => normalizeModuleKey (Some rawKey)) source) in
  normalizeOrder order = seen ++ keepFirst seen (map AKey DEFAULT_ORDER).
Proof. cbv zeta. apply normalizeOrder_resolvedOrder. Qed.

Lemma isLegacy_object raw :
  isLegacy raw = Ok true -> exists props, raw = JObj props.
Proof.
  destruct raw; try discriminate; eauto.
Qed.

(** X9. [normalizeConfig] throws in exactly two cases: a [TypeError] when
    the root is a boolean, a number or a string, and a [URIError] when the
    document takes the legacy path and the city of its [basic] record
    holds a surrogate without its partner. In every other case it returns
    a document. *)
Theorem normalizeConfig_throws_iff (raw : JsValue) (e : JsError) :
  normalizeConfig raw = Throw e <->
  (e = TypeError
   /\ ((exists b, raw = JBool b) \/ (exists n, raw = JNum n)
       \/ (exists s, raw = JStr s)))
  \/ (e = URIError
      /\ isLegacy raw = Ok true
      /\ exists city,
           toStringValue (getOpt (asRecord (getProp raw "basic")) "city")
           = Some city
           /\ encodeURIComponent city = Throw URIError).
Proof.
  split; [apply normalizeConfig_throws|].
  intros [[-> Hprim]|(-> & Hpath & city & Hcity & Henc)].
  - destruct Hprim as [[b ->]|[[n ->]|[s ->]]]; reflexivity.
  - destruct (isLegacy_object _ Hpath) as (props & ->).
    rewrite normalizeConfig_legacy by exact Hpath.
    cbn [nullish]. unfold normalizeLegacyConfig, normalizeLegacyAddressLinks.
    rewrite Hcity. destruct city as [|c city]; [discriminate Henc|].
    rewrite Henc. reflexivity.
Qed.

(** X10. [normalizeTechStack] returns what [toStringArray] returns: its
    splitting branch is never reached, because a text that is not empty
    already makes [toStringArray] return it as the single entry. A
    delimiter-separated text is therefore kept whole. *)
Theorem normalizeTechStack_never_splits (input : JsValue) :
  normalizeTechStack input = toStringArray input.
Proof.
  unfold normalizeTechStack.
  destruct (toStringArray input) as [|x xs] eqn:Harr; [|reflexivity].
  unfold toStringArray in Harr.
  destruct input; cbn [toStringValue] in *; try reflexivity.
  - destruct (numberToString n); [reflexivity|discriminate].
  - destruct (trim s); [reflexivity|discriminate].
Qed.

(** X11. Every entry [toStringArray] returns is trimmed and not empty, and
    coercing its own result again changes nothing. *)
Theorem toStringArray_stable (input : JsValue) :
  Forall filledText (toStringArray input)
  /\ toStringArray (treeOfStrings (toStringArray input)) = toStringArray input.
Proof.
  split; [apply toStringArray_filled|].
  apply toStringArray_treeOfStrings, toStringArray_filled.
Qed.

(** ** Idempotence, from the keys of the input *)

Lemma normalizeModuleKey_proto key member :
  normalizeModuleKey (Some key) = Some (AProto member) ->
  cleanKey key = lit "constructor".
Proof.
  intros H. pose proof (normalizeModuleKey_inherited _ H) as ->.
  unfold normalizeModuleKey in H. destruct key as [|c s]; [discriminate|].
  fold (cleanKey (c :: s)) in H. unfold aliasLookup in H.
  destruct (ownAlias (cleanKey (c :: s)) MODULE_ALIAS); [discriminate|].
  destruct (existsb _ _); [|discriminate]. now injection H.
Qed.

Lemma setTitle_key_origin output key text k :
  In k (map fst (setTitle output key text)) -> In k (map fst output) \/ k = key.
Proof.
  destruct (setTitle_keys output key text) as [[_ ->]|[_ ->]]; [now left|].
  rewrite in_app_iff. simpl. intuition.
Qed.

Lemma normalizeModuleTitleMap_keys entries k :
  In k (map fst (normalizeModuleTitleMap (Some entries))) ->
  exists key, In key (map fst entries) /\ normalizeModuleKey (Some key) = Some k.
Proof.
  unfold normalizeModuleTitleMap.
  assert (Hgen : forall acc,
             In k (map fst
                     (fold_left
                        (fun output entry =>
                           match normalizeModuleKey (Some (fst entry)),
                                 toStringValue (snd entry) with
                           | Some moduleKey, Some (c :: text) =>
                               setTitle output moduleKey (c :: text)
                           | _, _ => output
                           end) entries acc)) ->
             In k (map fst acc)
             \/ exists key, In key (map fst entries)
                            /\ normalizeModuleKey (Some key) = Some k).
  { induction entries as [|[key v] rest IH]; intros acc H; cbn [fold_left] in H;
      [now left|].
    apply IH in H. cbn [fst snd] in H.
    destruct H as [H|(key' & Hin & Hk)];
      [|right; exists key'; split; [now right|exact Hk]].
    destruct (normalizeModuleKey (Some key)) as [mk|] eqn:Hmk; [|now left].
    destruct (toStringValue v) as [[|c s]|]; try (now left).
    apply setTitle_key_origin in H. destruct H as [H| ->]; [now left|].
    right. exists key. split; [now left|exact Hmk]. }
  intros H. apply Hgen in H. destruct H as [[]|H]. exact H.
Qed.

Lemma spread_key_origin b : forall a k,
  In k (map fst (spread a b)) -> In k (map fst a) \/ In k (map fst b).
Proof.
  unfold spread. induction b as [|[key t] rest IH]; intros a k H;
    cbn [fold_left fst snd] in H; [now left|].
  apply IH in H. destruct H as [H|H]; [|right; now right].
  apply setTitle_key_origin in H. destruct H as [H| ->]; [now left|].
  right. now left.
Qed.

(** X12. Idempotence through the modern shape. A document of the modern
    path is returned as it is when it is fed back, provided that none of
    the keys given for the module order and for the module titles names
    [constructor] once lower-cased and stripped of underscores, hyphens and
    white space. *)
Theorem renormalize_idempotent (raw : JsValue) (doc : NormalizedResumeConfig) :
  normalizeConfig raw = Ok doc ->
  isLegacy (nullish raw (JObj [])) = Ok false ->
  (forall key, In key (orderKeys (nullish raw (JObj []))) ->
               cleanKey key <> lit "constructor") ->
  (forall key, In key (titleKeys (nullish raw (JObj []))) ->
               cleanKey key <> lit "constructor") ->
  renormalize doc = Ok doc.
Proof.
  intros Hdoc Hpath Horder Htitles.
  apply (modern_renormalize_fixed raw Hdoc Hpath);
    rewrite (normalizeConfig_modern _ Hpath) in Hdoc; injection Hdoc as <-;
    cbn [normalizeModernConfig site order moduleTitles].
  - apply Forall_forall. intros [k|member] Hin; [reflexivity|exfalso].
    apply normalizeOrder_inherited in Hin. destruct Hin as (key & Hkey & Hres).
    exact (Horder key Hkey (normalizeModuleKey_proto _ Hres)).
  - apply Forall_forall. intros [[k|member] t] Hin; [reflexivity|exfalso].
    apply (in_map fst) in Hin. cbn [fst] in Hin.
    apply spread_key_origin in Hin. destruct Hin as [Hin|Hin].
    + simpl in Hin. repeat (destruct Hin as [Hin|Hin]; [discriminate Hin|]).
      exact Hin.
    + unfold titleKeys, objectKeys in Htitles.
      destruct (asRecord (getOpt _ "moduleTitles")) as [entries|];
        [|destruct Hin].
      apply normalizeModuleTitleMap_keys in Hin.
      destruct Hin as (key & Hkey & Hres).
      exact (Htitles key Hkey (normalizeModuleKey_proto _ Hres)).
Qed.

Lemma renormalize_idempotent_witness :
  renormalize (normalizeModernConfig smallModern)
  = Ok (normalizeModernConfig smallModern).
Proof.
  apply (@renormalize_idempotent smallModern); try reflexivity.
  - intros key Hin. vm_compute in Hin.
    repeat (destruct Hin as [<-|Hin]; [vm_compute; discriminate|]).
    destruct Hin.
  - intros key Hin. vm_compute in Hin.
    repeat (destruct Hin as [<-|Hin]; [vm_compute; discriminate|]).
    destruct Hin.
Defined.

(** ** The work period, the module titles and the alias lookup *)

Lemma splitOn_first_two cls a s1 b s2 rest :
  Forall (fun c => cls c = false) a -> cls s1 = true ->
  Forall (fun c => cls c = false) b -> cls s2 = true ->
  splitOn cls (a ++ s1 :: b ++ s2 :: rest) = a :: b :: splitOn cls rest.
Proof.
  intros Ha H1 Hb H2.
  rewrite (@splitOn_at cls a s1 (b ++ s2 :: rest) Ha H1).
  now rewrite (@splitOn_at cls b s2 rest Hb H2).
Qed.

(** X13. A legacy [overall] text is cut at its separators, and only the
    first two pieces are used: what comes before the first separator is the
    start, what lies between the first and the second one is the end, both
    trimmed, and whatever follows a second separator is dropped. *)
Theorem parseWorkPeriodText_first_two (a b rest : jsstring) (s1 s2 : N) :
  Forall (fun c => isPeriodSeparator c = false) a ->
  Forall (fun c => isPeriodSeparator c = false) b ->
  isPeriodSeparator s1 = true ->
  isPeriodSeparator s2 = true ->
  parseWorkPeriodText (Some (a ++ s1 :: b))
  = (if negb (nonEmpty (trim a)) && negb (nonEmpty (trim b)) then None
     else Some {| wp_start := Some (trim a); wp_end := Some (trim b) |})
  /\ parseWorkPeriodText (Some (a ++ s1 :: b ++ s2 :: rest))
     = parseWorkPeriodText (Some (a ++ s1 :: b)).
Proof.
  intros Ha Hb H1 H2.
  pose proof (@parseWorkPeriodText_split a s1 b Ha H1 Hb) as Hsplit.
  split; [exact Hsplit|]. rewrite Hsplit. unfold parseWorkPeriodText.
  destruct (a ++ s1 :: b ++ s2 :: rest) as [|c v] eqn:Hv; [now destruct a|].
  rewrite <- Hv, (@splitOn_first_two isPeriodSeparator a s1 b s2 rest Ha H1 Hb H2).
  cbn [map nth_error truthyStr]. now destruct (trim a), (trim b).
Qed.

Lemma parseWorkPeriodText_first_two_witness :
  parseWorkPeriodText (Some (lit "2019-01~2021-06"))
  = parseWorkPeriodText (Some (lit "2019-01")).
Proof.
  apply (@parseWorkPeriodText_first_two (lit "2019") (lit "01")
           (lit "2021-06") 45 126);
    repeat constructor.
Defined.

Lemma setTitle_NoDup output key text :
  NoDup (map fst output) -> NoDup (map fst (setTitle output key text)).
Proof.
  intros H. destruct (setTitle_keys output key text) as [[_ ->]|[Hnin ->]];
    [exact H|now apply NoDup_snoc].
Qed.

Lemma spread_NoDup b : forall a,
  NoDup (map fst a) -> NoDup (map fst (spread a b)).
Proof.
  unfold spread. induction b as [|[k t] rest IH]; intros a Ha;
    cbn [fold_left fst snd]; [exact Ha|].
  apply IH. now apply setTitle_NoDup.
Qed.

Lemma spread_titles m k :
  Forall (fun entry => filledText (snd entry)) m ->
  NoDup (map fst (spread MODULE_TITLES m))
  /\ exists text,
       In (AKey k, text) (spread MODULE_TITLES m) /\ filledText text.
Proof.
  intros Hm. split.
  { apply spread_NoDup. simpl.
    repeat constructor; simpl; intros H;
      repeat (destruct H as [H|H]; [discriminate H|]); exact H. }
  destruct (@spread_keys m MODULE_TITLES []) as (extra & Hk & _);
    [now rewrite app_nil_r|constructor|].
  assert (Hin : In (AKey k) (map fst (spread MODULE_TITLES m))).
  { rewrite Hk. apply in_or_app. left. destruct k; simpl; auto 8. }
  apply in_map_iff in Hin. destruct Hin as ([k' text] & Hfst & Hin).
  cbn [fst] in Hfst. subst k'. exists text. split; [exact Hin|].
  pose proof (spread_values MODULE_TITLES_values Hm) as Hall.
  rewrite Forall_forall in Hall. exact (Hall _ Hin).
Qed.

Lemma moduleTitles_origin raw doc :
  normalizeConfig raw = Ok doc ->
  exists input,
    moduleTitles (site doc)
    = spread MODULE_TITLES (normalizeModuleTitleMap input).
Proof.
  intros H. apply normalizeConfig_cases in H. destruct H as [[_ ->]|[_ H]].
  - eexists. reflexivity.
  - unfold normalizeLegacyConfig in H.
    destruct (normalizeLegacyAddressLinks _) as [links|e]; cbn [bind] in H;
      [|discriminate].
    injection H as <-. eexists. reflexivity.
Qed.

(** X14. On both paths the document has exactly one title for every module,
    and that title is trimmed and not empty: a title given in the input
    replaces the built-in one only when it is a text that is not blank. *)
Theorem moduleTitles_complete (raw : JsValue) (doc : NormalizedResumeConfig) :
  normalizeConfig raw = Ok doc ->
  NoDup (map fst (moduleTitles (site doc)))
  /\ forall k, exists text,
       In (AKey k, text) (moduleTitles (site doc))
       /\ text <> [] /\ trim text = text.
Proof.
  intros H. destruct (moduleTitles_origin _ H) as (input & ->).
  split; [apply (spread_titles Education), normalizeModuleTitleMap_values|].
  intros k.
  destruct (spread_titles k (normalizeModuleTitleMap_values input))
    as (_ & text & Hin & Ht & Hne).
  exists text. split; [exact Hin|]. split; [exact Hne|].
  now apply trimmed_fixed.
Qed.

Lemma moduleTitles_complete_witness :
  exists text,
    In (AKey Work, text) (moduleTitles (site (normalizeModernConfig smallModern)))
    /\ text <> [] /\ trim text = text.
Proof.
  exact (proj2 (@moduleTitles_complete smallModern _ eq_refl) Work).
Defined.

Lemma isKeyNoise_lower c : isKeyNoise (lowerUnit c) = isKeyNoise c.
Proof.
  unfold lowerUnit.
  destruct ((65 <=? c) && (c <=? 90)) eqn:Hup.
  - apply andb_true_iff in Hup. destruct Hup as [Hlo Hhi].
    apply N.leb_le in Hlo. apply N.leb_le in Hhi.
    unfold isKeyNoise, isWhiteSpace.
    repeat match goal with
           | |- context [N.eqb ?a ?b] =>
               replace (N.eqb a b) with false
                 by (symmetry; apply N.eqb_neq; lia)
           | |- context [N.leb ?a ?b] =>
               first [ replace (N.leb a b) with true
                         by (symmetry; apply N.leb_le; lia)
                     | replace (N.leb a b) with false
                         by (symmetry; apply N.leb_gt; lia) ]
           end.
    reflexivity.
  - destruct (c =? 0x212A) eqn:Hk; [|reflexivity].
    apply N.eqb_eq in Hk. now subst.
Qed.

Lemma lowerUnit_idem c : lowerUnit (lowerUnit c) = lowerUnit c.
Proof.
  unfold lowerUnit at 2 3.
  destruct ((65 <=? c) && (c <=? 90)) eqn:Hup.
  - apply andb_true_iff in Hup. destruct Hup as [Hlo Hhi].
    apply N.leb_le in Hlo. apply N.leb_le in Hhi. unfold lowerUnit.
    replace (c + 32 <=? 90) with false by (symmetry; apply N.leb_gt; lia).
    rewrite andb_false_r.
    now replace (c + 32 =? 0x212A) with false
      by (symmetry; apply N.eqb_neq; lia).
  - destruct (c =? 0x212A) eqn:Hk; [reflexivity|].
    unfold lowerUnit. now rewrite Hup, Hk.
Qed.

Lemma cleanKey_lower s : cleanKey (toLowerCase s) = cleanKey s.
Proof.
  unfold cleanKey, toLowerCase, removeAll.
  induction s as [|c s IH]; cbn [map filter]; [reflexivity|].
  rewrite isKeyNoise_lower.
  destruct (negb (isKeyNoise c)); cbn [map]; [|exact IH].
  now rewrite lowerUnit_idem, IH.
Qed.

Lemma cleanKey_noise a c b :
  isKeyNoise c = true -> cleanKey (a ++ c :: b) = cleanKey (a ++ b).
Proof.
  intros Hc. unfold cleanKey, removeAll. rewrite !filter_app. cbn [filter].
  now rewrite Hc.
Qed.

Lemma normalizeModuleKey_clean s :
  s <> [] -> normalizeModuleKey (Some s) = aliasLookup (cleanKey s).
Proof. destruct s; [congruence|reflexivity]. Qed.

(** X15. The alias lookup ignores letter case, underscores, hyphens and
    white space: putting such a character anywhere into a key, or
    lower-casing the key, does not change what it resolves to; and a key
    made of such characters alone resolves to nothing. *)
Theorem normalizeModuleKey_ignores_noise (a b : jsstring) (c : N) :
  (isKeyNoise c = true -> a ++ b <> [] ->
   normalizeModuleKey (Some (a ++ c :: b)) = normalizeModuleKey (Some (a ++ b)))
  /\ normalizeModuleKey (Some (toLowerCase a)) = normalizeModuleKey (Some a)
  /\ (Forall (fun x => isKeyNoise x = true) a ->
      normalizeModuleKey (Some a) = None).
Proof.
  split; [|split].
  - intros Hc Hne. rewrite !normalizeModuleKey_clean;
      [now rewrite cleanKey_noise|exact Hne|now destruct a].
  - destruct a as [|x a]; [reflexivity|].
    rewrite !normalizeModuleKey_clean by discriminate.
    now rewrite cleanKey_lower.
  - intros Hall. destruct a as [|x a]; [reflexivity|].
    rewrite normalizeModuleKey_clean by discriminate.
    assert (Hclean : cleanKey (x :: a) = []).
    { unfold cleanKey, removeAll.
      induction Hall as [|y rest Hy _ IH]; cbn [filter]; [reflexivity|].
      now rewrite Hy. }
    now rewrite Hclean.
Qed.

Lemma normalizeModuleKey_ignores_noise_witness :
  normalizeModuleKey (Some (lit "Open-Source")) = normalizeModuleKey (Some (lit "OpenSource"))
  /\ normalizeModuleKey (Some (lit "_ -")) = None.
Proof.
  split.
  - apply (proj1 (@normalizeModuleKey_ignores_noise (lit "Open") (lit "Source") 45));
      [reflexivity|discriminate].
  - apply (proj2 (proj2 (@normalizeModuleKey_ignores_noise (lit "_ -") [] 45))).
    repeat constructor.
Defined.

(* ================================================================== *)
(** * File name, escaping and masking *)
(* ================================================================== *)

Local Open Scope N_scope.

(** X16. The export file name always ends in [.pdf], in any letter case: a
    name that already does is kept as it is, any other name gets [.pdf]
    appended, and doing it twice changes nothing more. *)
Theorem ensurePdfFileName_extension (value : jsstring) :
  endsWithPdf (ensurePdfFileName value) = true
  /\ ensurePdfFileName (ensurePdfFileName value) = ensurePdfFileName value
  /\ (endsWithPdf value = true -> ensurePdfFileName value = value)
  /\ (endsWithPdf value = false -> ensurePdfFileName value = value ++ lit ".pdf").
Proof.
  assert (Hends : endsWithPdf (ensurePdfFileName value) = true).
  { unfold ensurePdfFileName. destruct (endsWithPdf value) eqn:H; [exact H|].
    unfold endsWithPdf. rewrite rev_app_distr. reflexivity. }
  split; [exact Hends|]. split.
  - unfold ensurePdfFileName at 1. now rewrite Hends.
  - unfold ensurePdfFileName. split; intros ->; reflexivity.
Qed.

Lemma ensurePdfFileName_extension_witness :
  ensurePdfFileName (lit "cv.PDF") = lit "cv.PDF"
  /\ ensurePdfFileName (lit "cv.pdf.bak") = lit "cv.pdf.bak.pdf".
Proof.
  split.
  - apply (@ensurePdfFileName_extension (lit "cv.PDF")). reflexivity.
  - apply (@ensurePdfFileName_extension (lit "cv.pdf.bak")). reflexivity.
Defined.

(** ** Escaping *)

Lemma replaceAllUnit_app c rep a b :
  replaceAllUnit c rep (a ++ b) = replaceAllUnit c rep a ++ replaceAllUnit c rep b.
Proof. unfold replaceAllUnit. apply flat_map_app. Qed.

Lemma escapeHtml_cons c s : escapeHtml (c :: s) = escapeUnit c ++ escapeHtml s.
Proof.
  unfold escapeHtml.
  change (replaceAllUnit 38 (lit "&amp;") (c :: s))
    with ((if c =? 38 then lit "&amp;" else [c])
            ++ replaceAllUnit 38 (lit "&amp;") s).
  rewrite !replaceAllUnit_app. f_equal. unfold escapeUnit.
  destruct (c =? 38) eqn:H38; [reflexivity|].
  unfold replaceAllUnit at 4. cbn [flat_map]. rewrite app_nil_r.
  destruct (c =? 60) eqn:H60; [reflexivity|].
  unfold replaceAllUnit at 3. cbn [flat_map]. rewrite app_nil_r.
  destruct (c =? 62) eqn:H62; [reflexivity|].
  unfold replaceAllUnit at 2. cbn [flat_map]. rewrite app_nil_r.
  destruct (c =? 34) eqn:H34; [reflexivity|].
  unfold replaceAllUnit. cbn [flat_map]. rewrite app_nil_r.
  destruct (c =? 39) eqn:H39; reflexivity.
Qed.

Lemma escapeHtml_one_pass value : escapeHtml value = flat_map escapeUnit value.
Proof.
  induction value as [|c s IH]; [reflexivity|].
  rewrite escapeHtml_cons, IH. reflexivity.
Qed.

Lemma escapeUnit_clean c :
  Forall (fun x => isMarkupUnit x = false) (escapeUnit c).
Proof.
  unfold escapeUnit.
  destruct (c =? 38) eqn:H38; [repeat constructor|].
  destruct (c =? 60) eqn:H60; [repeat constructor|].
  destruct (c =? 62) eqn:H62; [repeat constructor|].
  destruct (c =? 34) eqn:H34; [repeat constructor|].
  destruct (c =? 39) eqn:H39; [repeat constructor|].
  constructor; [|constructor]. unfold isMarkupUnit.
  now rewrite H60, H62, H34, H39.
Qed.

(** X17. Escaping works as one pass over the characters, although it is
    written as five replacements in a row: an ampersand that a later
    replacement introduces is not escaped again. The result holds none
    of the characters [<], [>], double quote and single quote. *)
Theorem escapeHtml_no_markup (value : jsstring) :
  escapeHtml value = flat_map escapeUnit value
  /\ Forall (fun c => isMarkupUnit c = false) (escapeHtml value).
Proof.
  split; [apply escapeHtml_one_pass|].
  rewrite escapeHtml_one_pass. induction value as [|c s IH]; [constructor|].
  cbn [flat_map]. apply Forall_app. split; [apply escapeUnit_clean|exact IH].
Qed.

Lemma escapeUnit_prefix x y r1 r2 :
  escapeUnit x ++ r1 = escapeUnit y ++ r2 -> x = y /\ r1 = r2.
Proof.
  unfold escapeUnit.
  destruct (N.eqb_spec x 38); [subst x|];
    [|destruct (N.eqb_spec x 60); [subst x|];
      [|destruct (N.eqb_spec x 62); [subst x|];
        [|destruct (N.eqb_spec x 34); [subst x|];
          [|destruct (N.eqb_spec x 39); [subst x|]]]]];
    (destruct (N.eqb_spec y 38); [subst y|];
      [|destruct (N.eqb_spec y 60); [subst y|];
        [|destruct (N.eqb_spec y 62); [subst y|];
          [|destruct (N.eqb_spec y 34); [subst y|];
            [|destruct (N.eqb_spec y 39); [subst y|]]]]]);
    cbn; intros H; injection H; intros; subst;
    try discriminate; try congruence; auto.
Qed.

(** X18. Escaping loses nothing: two texts with the same escaped form are
    the same text. *)
Theorem escapeHtml_injective (a b : jsstring) :
  escapeHtml a = escapeHtml b -> a = b.
Proof.
  rewrite !escapeHtml_one_pass. revert b.
  induction a as [|x a IH]; intros [|y b] H; cbn [flat_map] in H.
  - reflexivity.
  - exfalso. unfold escapeUnit in H.
    repeat (destruct (_ =? _) in H; [discriminate H|]). discriminate H.
  - exfalso. unfold escapeUnit in H.
    repeat (destruct (_ =? _) in H; [discriminate H|]). discriminate H.
  - apply escapeUnit_prefix in H. destruct H as [-> H]. f_equal. now apply IH.
Qed.

Lemma escapeHtml_injective_witness :
  [60; 38] = lit "<&".
Proof.
  apply (@escapeHtml_injective [60; 38] (lit "<&")). reflexivity.
Defined.

(** ** Masking *)

Lemma middle_hidden (s : jsstring) (n m : nat) :
  (n + m <= List.length s)%nat ->
  exists hidden,
    s = firstn n s ++ hidden ++ lastUnits m s
    /\ List.length hidden = (List.length s - (n + m))%nat.
Proof.
  intros Hlen. exists (firstn (List.length s - (n + m)) (skipn n s)). split.
  - unfold lastUnits.
    replace (List.length s - m)%nat with ((List.length s - (n + m)) + n)%nat
      by lia.
    rewrite <- skipn_skipn, firstn_skipn. symmetry. apply firstn_skipn.
  - rewrite length_firstn, length_skipn. lia.
Qed.

Lemma In_firstn (A : Type) (x : A) n l : In x (firstn n l) -> In x l.
Proof.
  intros H. rewrite <- (firstn_skipn n l). apply in_or_app. now left.
Qed.

Lemma In_skipn (A : Type) (x : A) n l : In x (skipn n l) -> In x l.
Proof.
  intros H. rewrite <- (firstn_skipn n l). apply in_or_app. now right.
Qed.

(** X19. [maskPhone] first removes all white space. A number of fewer than
    7 characters is then returned in full. A longer one becomes 11
    characters: its first 3, four stars, its last 4; what the stars stand
    for is the rest, so of a number of exactly 7 characters nothing is
    hidden. The result holds no white space. *)
Theorem maskPhone_reveals (phone : jsstring) :
  Forall (fun c => isWhiteSpace c = false) (maskPhone phone)
  /\ ((List.length (removeAll isWhiteSpace phone) < 7)%nat ->
      maskPhone phone = removeAll isWhiteSpace phone)
  /\ ((7 <= List.length (removeAll isWhiteSpace phone))%nat ->
      List.length (maskPhone phone) = 11%nat
      /\ exists first hidden last,
           removeAll isWhiteSpace phone = first ++ hidden ++ last
           /\ maskPhone phone = first ++ lit "****" ++ last
           /\ first = firstn 3 (removeAll isWhiteSpace phone)
           /\ last = lastUnits 4 (removeAll isWhiteSpace phone)
           /\ List.length first = 3%nat
           /\ List.length last = 4%nat
           /\ List.length hidden
              = (List.length (removeAll isWhiteSpace phone) - 7)%nat).
Proof.
  unfold maskPhone. set (cleaned := removeAll isWhiteSpace phone).
  assert (Hclean : Forall (fun c => isWhiteSpace c = false) cleaned).
  { apply Forall_forall. intros c Hc. apply filter_In in Hc.
    destruct Hc as [_ Hc]. now apply negb_true_iff. }
  split; [|split].
  - destruct (List.length cleaned <? 7)%nat; [exact Hclean|].
    rewrite Forall_forall in Hclean.
    apply Forall_forall. intros c Hc. apply in_app_or in Hc.
    destruct Hc as [Hc|Hc]; [apply Hclean; eapply In_firstn; exact Hc|].
    apply in_app_or in Hc. destruct Hc as [Hc|Hc].
    + simpl in Hc. repeat (destruct Hc as [<-|Hc]; [reflexivity|]). destruct Hc.
    + apply Hclean. eapply In_skipn. exact Hc.
  - intros Hlen. now replace (List.length cleaned <? 7)%nat with true
      by (symmetry; apply Nat.ltb_lt; exact Hlen).
  - intros Hlen. replace (List.length cleaned <? 7)%nat with false
      by (symmetry; apply Nat.ltb_ge; exact Hlen).
    assert (Hfirst : List.length (firstn 3 cleaned) = 3%nat)
      by (rewrite length_firstn; lia).
    assert (Hlast : List.length (lastUnits 4 cleaned) = 4%nat)
      by (unfold lastUnits; rewrite length_skipn; lia).
    split.
    + rewrite !length_app, Hfirst, Hlast.
      change (List.length (lit "****")) with 4%nat. lia.
    + destruct (@middle_hidden cleaned 3 4 Hlen) as (hidden & Hsplit & Hhidden).
      exists (firstn 3 cleaned), hidden, (lastUnits 4 cleaned).
      repeat match goal with |- _ /\ _ => split end;
        solve [exact Hsplit | reflexivity | exact Hfirst | exact Hlast
              | exact Hhidden].
Qed.

Lemma maskPhone_reveals_witness :
  maskPhone (lit "12 34") = lit "1234"
  /\ exists first hidden last,
       lit "13800138000" = first ++ hidden ++ last
       /\ maskPhone (lit "138 0013 8000") = first ++ lit "****" ++ last
       /\ first = lit "138"
       /\ last = lit "8000".
Proof.
  split.
  - apply (@maskPhone_reveals (lit "12 34")). vm_compute. lia.
  - destruct (proj2 (proj2 (@maskPhone_reveals (lit "138 0013 8000")))
                ltac:(vm_compute; lia))
      as (_ & first & hidden & last & Hsplit & Hmask & Hfirst & Hlast & _).
    exists first, hidden, last.
    split; [exact Hsplit|]. split; [exact Hmask|].
    split; [exact Hfirst|exact Hlast].
Defined.



(** X21. [maskWeChat] always returns 4 or 7 characters. Of an id of up to 4
    characters only the first is shown (a star when the id is empty); of a
    longer id the first 2 and the last 2 are shown, and three stars stand
    for everything in between. *)
Theorem maskWeChat_reveals (wechat : jsstring) :
  ((List.length wechat <= 4)%nat ->
   maskWeChat wechat = firstOrStar wechat ++ lit "***"
   /\ List.length (maskWeChat wechat) = 4%nat)
  /\ ((4 < List.length wechat)%nat ->
      List.length (maskWeChat wechat) = 7%nat
      /\ exists hidden,
           wechat = firstn 2 wechat ++ hidden ++ lastUnits 2 wechat
           /\ List.length hidden = (List.length wechat - 4)%nat
           /\ maskWeChat wechat
              = firstn 2 wechat ++ lit "***" ++ lastUnits 2 wechat).
Proof.
  unfold maskWeChat. split; intros Hlen.
  - replace (List.length wechat <=? 4)%nat with true
      by (symmetry; apply Nat.leb_le; exact Hlen).
    split; [reflexivity|]. now destruct wechat.
  - replace (List.length wechat <=? 4)%nat with false
      by (symmetry; apply Nat.leb_gt; exact Hlen).
    split.
    + unfold lastUnits. rewrite !length_app, length_firstn, length_skipn.
      change (List.length (lit "***")) with 3%nat. lia.
    + destruct (@middle_hidden wechat 2 2) as (hidden & Hw & Hh); [lia|].
      exists hidden. repeat split; [exact Hw|exact Hh].
Qed.

Lemma maskWeChat_reveals_witness :
  maskWeChat (lit "wx12") = lit "w***"
  /\ List.length (maskWeChat (lit "wechat_id")) = 7%nat.
Proof.
  split.
  - apply (@maskWeChat_reveals (lit "wx12")). vm_compute. lia.
  - apply (@maskWeChat_reveals (lit "wechat_id")). vm_compute. lia.
Defined.

(* ================================================================== *)
(** * Theme colors as numbers *)
(* ================================================================== *)

Local Open Scope Z_scope.

Lemma hexValue_hexUnit d : 0 <= d < 16 -> hexValue (hexUnit d) = Some d.
Proof.
  intros Hd.
  assert (Hcases : d = 0 \/ d = 1 \/ d = 2 \/ d = 3 \/ d = 4 \/ d = 5 \/ d = 6
                   \/ d = 7 \/ d = 8 \/ d = 9 \/ d = 10 \/ d = 11 \/ d = 12
                   \/ d = 13 \/ d = 14 \/ d = 15) by lia.
  repeat (destruct Hcases as [->|Hcases]; [reflexivity|]). now subst.
Qed.

Lemma hexUnit_plain d :
  0 <= d < 16 ->
  isWhiteSpace (hexUnit d) = false
  /\ (hexUnit d =? 45)%N = false /\ (hexUnit d =? 43)%N = false
  /\ (hexUnit d =? 35)%N = false
  /\ ((hexUnit d =? 120) || (hexUnit d =? 88))%N = false.
Proof.
  intros Hd.
  assert (Hcases : d = 0 \/ d = 1 \/ d = 2 \/ d = 3 \/ d = 4 \/ d = 5 \/ d = 6
                   \/ d = 7 \/ d = 8 \/ d = 9 \/ d = 10 \/ d = 11 \/ d = 12
                   \/ d = 13 \/ d = 14 \/ d = 15) by lia.
  repeat (destruct Hcases as [->|Hcases]; [repeat split; reflexivity|]).
  subst. repeat split; reflexivity.
Qed.

(** Two hexadecimal digits, written by [hexUnit], read back. *)
Lemma parseInt16_two hi lo :
  0 <= hi < 16 -> 0 <= lo < 16 ->
  parseInt16 [hexUnit hi; hexUnit lo] = Some (16 * hi + lo).
Proof.
  intros Hhi Hlo.
  destruct (hexUnit_plain Hhi) as (Hws & Hminus & Hplus & _ & _).
  destruct (hexUnit_plain Hlo) as (_ & _ & _ & _ & Hx).
  unfold parseInt16, trimStart. rewrite dropWhile_fixed by exact Hws.
  rewrite Hminus, Hplus. cbn [orb].
  rewrite Hx, andb_false_r. cbn [hexPrefix].
  rewrite (hexValue_hexUnit Hhi), (hexValue_hexUnit Hlo). cbn [withDefault option_map].
  f_equal. lia.
Qed.

Lemma toHex_digits value :
  toHex value
  = [hexUnit (clampChannel value / 16); hexUnit (clampChannel value mod 16)].
Proof.
  unfold toHex, toString16, padStart2. fold (clampChannel value).
  destruct (clampChannel value <? 16) eqn:H; [|reflexivity].
  apply Z.ltb_lt in H. cbn [List.length Nat.sub repeat app].
  assert (Hc : 0 <= clampChannel value) by (unfold clampChannel; lia).
  rewrite Z.div_small, Z.mod_small by lia. reflexivity.
Qed.

Lemma clampChannel_digits value :
  0 <= clampChannel value / 16 < 16 /\ 0 <= clampChannel value mod 16 < 16
  /\ 16 * (clampChannel value / 16) + clampChannel value mod 16
     = clampChannel value.
Proof.
  assert (Hc : 0 <= clampChannel value <= 255) by (unfold clampChannel; lia).
  pose proof (Z.div_mod (clampChannel value) 16 ltac:(lia)).
  pose proof (Z.mod_pos_bound (clampChannel value) 16 ltac:(lia)).
  assert (0 <= clampChannel value / 16) by (apply Z.div_pos; lia).
  assert (clampChannel value / 16 < 16) by (apply Z.div_lt_upper_bound; lia).
  lia.
Qed.




#[local] Opaque Z.mul.



#[local] Transparent Z.mul.



(** X22. A color written from three channels by [toHex], as
    [mixHexColors] writes it, is read back by [hexToRgb] as those channels,
    each clamped to the range from 0 to 255. *)
Theorem hexToRgb_toHex (r g b : Z) :
  hexToRgb (35%N :: toHex r ++ toHex g ++ toHex b)
  = {| rgb_r := Some (clampChannel r);
       rgb_g := Some (clampChannel g);
       rgb_b := Some (clampChannel b) |}.
Proof.
  rewrite !toHex_digits.
  destruct (clampChannel_digits r) as (Hr1 & Hr2 & Hr).
  destruct (clampChannel_digits g) as (Hg1 & Hg2 & Hg).
  destruct (clampChannel_digits b) as (Hb1 & Hb2 & Hb).
  cbn [app].
  set (text := [hexUnit (clampChannel r / 16); hexUnit (clampChannel r mod 16);
                hexUnit (clampChannel g / 16); hexUnit (clampChannel g mod 16);
                hexUnit (clampChannel b / 16); hexUnit (clampChannel b mod 16)]).
  assert (Hcolor : normalizeColor (35%N :: text) = 35%N :: text).
  { unfold normalizeColor. rewrite trimmed_fixed; [reflexivity|].
    apply trimmed_no_space. subst text.
    repeat (constructor; [first [reflexivity|now apply hexUnit_plain]|]).
    constructor. }
  unfold hexToRgb. rewrite Hcolor.
  change (removeFirst [35%N] (35%N :: text)) with text.
  subst text. cbn [List.length Nat.eqb slice firstn skipn Nat.sub].
  rewrite !parseInt16_two by assumption. unfold or17. cbn [withDefault].
  now rewrite Hr, Hg, Hb.
Qed.



(* ================================================================== *)
(** * Further properties of the planner's loop *)
(* ================================================================== *)

Local Open Scope Z_scope.

Lemma pagedCutsLoop_stuck fuel safeCuts totalHeightPx pageHeightPx cursor :
  pageHeightPx <= 0 ->
  cursor < totalHeightPx ->
  pagedCutsLoop fuel safeCuts totalHeightPx pageHeightPx cursor = None.
Proof.
  intros Hp. revert cursor.
  induction fuel as [|fuel IH]; intros cursor Hc; [reflexivity|].
  cbn [pagedCutsLoop].
  destruct (cursor <? totalHeightPx) eqn:E1; [|lia].
  destruct (cursor + pageHeightPx >=? totalHeightPx) eqn:E2; [lia|].
  assert (Hnext :
    (if withDefault
          (findLastSafeCut safeCuts (cursor + minimumSegment pageHeightPx)
             (cursor + pageHeightPx)) (cursor + pageHeightPx) <=? cursor + 80
     then Z.min totalHeightPx (cursor + pageHeightPx)
     else withDefault
            (findLastSafeCut safeCuts (cursor + minimumSegment pageHeightPx)
               (cursor + pageHeightPx)) (cursor + pageHeightPx))
    < totalHeightPx).
  { destruct (findLastSafeCut safeCuts _ _) as [r|] eqn:Hf; cbn [withDefault].
    - apply findLastSafeCut_range in Hf.
      destruct (r <=? cursor + 80) eqn:E3; lia.
    - destruct (cursor + pageHeightPx <=? cursor + 80) eqn:E3; lia. }
  now rewrite (IH _ Hnext).
Qed.

(** X24. With a page height of zero or less and a document of positive
    height, the loop of [getPagedCuts] never ends: whatever the number of
    iterations allowed, no list of segments is returned. *)
Theorem getPagedCuts_never_returns fuel safeCuts totalHeightPx pageHeightPx :
  pageHeightPx <= 0 ->
  0 < totalHeightPx ->
  getPagedCuts fuel safeCuts totalHeightPx pageHeightPx = None.
Proof.
  intros Hp Ht. unfold getPagedCuts. now apply pagedCutsLoop_stuck.
Qed.

Lemma getPagedCuts_never_returns_witness :
  getPagedCuts 1000 [0; 40; 100] 100 0 = None.
Proof. apply getPagedCuts_never_returns; lia. Defined.

(* ================================================================== *)
(** * Texts the renderer can rely on *)
(* ================================================================== *)

Local Open Scope N_scope.

Lemma resumeLink_filled item link :
  resumeLink item = Some link -> filledText (label link) /\ url link <> [].
Proof.
  unfold resumeLink.
  destruct (toStringValue (getOpt (asRecord item) "label")) as [[|c l]|] eqn:Hl;
    try discriminate.
  destruct (toStringValue (getOpt (asRecord item) "url")) as [[|d u]|] eqn:Hu;
    try discriminate.
  intros H. injection H as <-. cbn [label url]. split; [|discriminate].
  exact (toStringValue_filled _ Hl).
Qed.

Lemma normalizeLegacyAddressLinks_filled basicLegacy links :
  normalizeLegacyAddressLinks basicLegacy = Ok links ->
  Forall (fun link => filledText (label link) /\ url link <> []) links.
Proof.
  unfold normalizeLegacyAddressLinks.
  destruct (toStringValue (getOpt basicLegacy "city")) as [[|c city]|] eqn:Hc.
  - intros H. injection H as <-. constructor.
  - destruct (encodeURIComponent (c :: city)) as [encoded|e]; cbn [bind];
      [|discriminate].
    intros H. injection H as <-. constructor; [|constructor].
    cbn [label url]. split; [exact (toStringValue_filled _ Hc)|].
    discriminate.
  - intros H. injection H as <-. constructor.
Qed.

Lemma normalizeProfileSection_filled input p :
  normalizeProfileSection input = Some p -> filledText (content p).
Proof.
  unfold normalizeProfileSection.
  destruct (negb (truthy input)); [discriminate|].
  destruct (toStringValue _) as [[|c text]|] eqn:Hc; try discriminate.
  intros H. injection H as <-. exact (toStringValue_filled _ Hc).
Qed.

(** X25. On both paths, every address link of a normalized document has a
    trimmed, non-empty label and a non-empty url, and a profile section,
    when there is one, has trimmed and non-empty content. *)
Theorem normalizeConfig_filled_texts raw doc :
  normalizeConfig raw = Ok doc ->
  Forall (fun link => filledText (label link) /\ url link <> [])
    (addressLinks (basic doc))
  /\ forall p, profile doc = Some p -> filledText (content p).
Proof.
  intros H. apply normalizeConfig_cases in H.
  destruct H as [[_ ->]|[_ H]].
  - cbn [normalizeModernConfig basic addressLinks profile]. split.
    + apply filterMap_Forall. exact resumeLink_filled.
    + exact (@normalizeProfileSection_filled _).
  - unfold normalizeLegacyConfig in H.
    destruct (normalizeLegacyAddressLinks _) as [links|e] eqn:Hl; cbn [bind] in H;
      [|discriminate].
    injection H as <-. cbn [basic addressLinks profile]. split.
    + exact (normalizeLegacyAddressLinks_filled _ Hl).
    + destruct (toStringValue (getProp _ "evaluation")) as [[|c text]|] eqn:Hc;
        try discriminate.
      intros p Hp. injection Hp as <-. exact (toStringValue_filled _ Hc).
Qed.

Lemma normalizeConfig_filled_texts_witness :
  exists doc,
    normalizeConfig cityLegacy = Ok doc
    /\ map label (addressLinks (basic doc)) = [lit "Oslo"]
    /\ Forall (fun link => filledText (label link) /\ url link <> [])
         (addressLinks (basic doc)).
Proof.
  eexists. split; [reflexivity|]. split; [reflexivity|].
  match goal with
  | |- Forall _ (addressLinks (basic ?d)) =>
      exact (proj1 (@normalizeConfig_filled_texts cityLegacy d eq_refl))
  end.
Defined.

(* ================================================================== *)
(** * Work experience text *)
(* ================================================================== *)

Local Open Scope Z_scope.

Lemma isDigit_value c : isDigit c = true -> 0 <= Z.of_N c - 48 <= 9.
Proof.
  unfold isDigit. rewrite andb_true_iff, !N.leb_le. lia.
Qed.

Lemma numberOfDigits_year y :
  List.length y = 4%nat -> Forall (fun c => isDigit c = true) y ->
  0 <= numberOfDigits y <= 9999.
Proof.
  destruct y as [|a [|b [|c [|d [|e y]]]]]; try discriminate. intros _ H.
  inversion_clear H as [|? ? Ha H1]. inversion_clear H1 as [|? ? Hb H2].
  inversion_clear H2 as [|? ? Hc H3]. inversion_clear H3 as [|? ? Hd _].
  apply isDigit_value in Ha, Hb, Hc, Hd.
  unfold numberOfDigits. cbn [fold_left]. lia.
Qed.

Lemma monthDigits_value s digits :
  monthDigits s = Some digits -> 0 <= numberOfDigits digits <= 99.
Proof.
  unfold monthDigits. destruct s as [|d1 rest]; [discriminate|].
  destruct (isDigit d1) eqn:H1; [|discriminate].
  apply isDigit_value in H1.
  destruct rest as [|d2 rest].
  - intros H. injection H as <-. unfold numberOfDigits. cbn [fold_left]. lia.
  - destruct (isDigit d2) eqn:H2; intros H; injection H as <-;
      unfold numberOfDigits; cbn [fold_left]; [apply isDigit_value in H2|]; lia.
Qed.

Lemma afterYear_value s digits :
  afterYear s = Some digits -> 0 <= numberOfDigits digits <= 99.
Proof.
  unfold afterYear. destruct s as [|c rest]; [discriminate|].
  destruct (isDigit c); apply monthDigits_value.
Qed.

Lemma matchYearMonth_some input y m :
  matchYearMonth input = Some (y, m) ->
  (exists before rest, input = before ++ y ++ rest)
  /\ List.length y = 4%nat
  /\ Forall (fun c => isDigit c = true) y
  /\ forall digits, m = Some digits -> 0 <= numberOfDigits digits <= 99.
Proof.
  induction input as [|a tail IH]; [discriminate|].
  cbn [matchYearMonth].
  destruct tail as [|b [|c [|d rest]]]; try discriminate.
  destruct (isDigit a && isDigit b && isDigit c && isDigit d)%bool eqn:E.
  - intros H. injection H as <- <-.
    rewrite !andb_true_iff in E. destruct E as [[[Ha Hb] Hc] Hd].
    split; [exists [], rest; reflexivity|].
    split; [reflexivity|].
    split; [repeat constructor; assumption|].
    intros digits. apply afterYear_value.
  - intros H. destruct (IH H) as ((before & rest' & Heq) & Hrest).
    split; [|exact Hrest].
    exists (a :: before), rest'. cbn [app]. now rewrite <- Heq.
Qed.

Lemma matchYearMonth_none input :
  matchYearMonth input = None -> ~ hasYear input.
Proof.
  induction input as [|a tail IH]; intros H (before & y & rest & Heq & Hlen & Hy).
  - destruct before; [|discriminate]. destruct y; discriminate.
  - destruct y as [|y1 [|y2 [|y3 [|y4 [|y5 y]]]]]; try discriminate.
    inversion_clear Hy as [|? ? H1 Hy1]. inversion_clear Hy1 as [|? ? H2 Hy2].
    inversion_clear Hy2 as [|? ? H3 Hy3]. inversion_clear Hy3 as [|? ? H4 _].
    destruct before as [|p before].
    + cbn [app] in Heq. injection Heq as -> ->.
      cbn [matchYearMonth] in H. rewrite H1, H2, H3, H4 in H. discriminate.
    + cbn [app] in Heq. injection Heq as -> Heq.
      assert (Htail : matchYearMonth tail = None).
      { cbn [matchYearMonth] in H.
        destruct tail as [|b [|c [|d rest']]];
          try (destruct before as [|? [|? [|? ?]]]; discriminate).
        destruct (isDigit p && isDigit b && isDigit c && isDigit d)%bool;
          [discriminate|exact H]. }
      apply (IH Htail). exists before, [y1; y2; y3; y4], rest.
      repeat split; [exact Heq|repeat constructor; assumption].
Qed.

Lemma newDate_range year monthIndex :
  0 <= year <= 9999 -> 0 <= monthIndex <= 98 ->
  100 <= getFullYear (newDate year monthIndex) <= 10007
  /\ 0 <= getMonth (newDate year monthIndex) <= 11.
Proof.
  intros Hy Hm. unfold newDate. cbn [getFullYear getMonth].
  assert (0 <= monthIndex / 12 <= 8).
  { split; [apply Z.div_pos; lia|].
    enough (monthIndex / 12 < 9) by lia.
    apply Z.div_lt_upper_bound; lia. }
  pose proof (Z.mod_pos_bound monthIndex 12 ltac:(lia)).
  destruct ((0 <=? year) && (year <=? 99))%bool eqn:E.
  - lia.
  - rewrite andb_false_iff in E. destruct E as [E|E]; lia.
Qed.

Lemma parseYearMonth_plain now c input :
  namesNoPresent (c :: input) ->
  parseYearMonth now (Some (c :: input))
  = match matchYearMonth (c :: input) with
    | None => None
    | Some (y, m) =>
        Some (newDate (numberOfDigits y)
                (Z.max 0 (match m with
                          | Some digits => numberOfDigits digits
                          | None => 1
                          end - 1)))
    end.
Proof.
  intros [H1 H2]. unfold parseYearMonth. now rewrite H1, H2.
Qed.

(** X26. For a text that names no present, [parseYearMonth] gives no date
    exactly when the text has no four digits in a row; a date it gives has
    a month index from 0 to 11 and a year from 100 to 10007, whatever the
    digits say: a year below 100 counts from 1900, a month number past 12
    runs into the following years. *)
Theorem parseYearMonth_reads now input :
  input <> [] ->
  namesNoPresent input ->
  (parseYearMonth now (Some input) = None <-> ~ hasYear input)
  /\ forall date,
       parseYearMonth now (Some input) = Some date ->
       100 <= getFullYear date <= 10007 /\ 0 <= getMonth date <= 11.
Proof.
  intros Hne Hplain. destruct input as [|c input]; [congruence|].
  rewrite (parseYearMonth_plain now Hplain).
  destruct (matchYearMonth (c :: input)) as [[y m]|] eqn:Hm.
  - apply matchYearMonth_some in Hm.
    destruct Hm as ((before & rest & Heq) & Hlen & Hy & Hmonth).
    split.
    + split; [discriminate|]. intros Hno. exfalso. apply Hno.
      exists before, y, rest. auto.
    + intros date H. injection H as <-.
      apply newDate_range; [now apply numberOfDigits_year|].
      destruct m as [digits|]; [|lia].
      specialize (Hmonth digits eq_refl). lia.
  - split; [|discriminate].
    split; [intros _; now apply matchYearMonth_none|reflexivity].
Qed.

Lemma parseYearMonth_reads_witness :
  parseYearMonth {| getFullYear := 2026; getMonth := 10 |}
    (Some (lit "0019/13"))
  = Some {| getFullYear := 1920; getMonth := 0 |}
  /\ (100 <= 1920 <= 10007 /\ 0 <= 0 <= 11).
Proof.
  split; [reflexivity|].
  apply (proj2 (@parseYearMonth_reads
                  {| getFullYear := 2026; getMonth := 10 |} (lit "0019/13")
                  ltac:(discriminate) (conj eq_refl eq_refl))
           {| getFullYear := 1920; getMonth := 0 |}).
  reflexivity.
Defined.

(** X27. [getExperienceText] never shows a negative duration: when the
    start is read as a date and the end, or today where the end gives no
    date, does not lie a month or more after it, the text is the start, the
    end if there is one, and the words for less than a year in brackets. *)
Theorem getExperienceText_never_negative now start end_ dateStart :
  start <> [] ->
  parseYearMonth now (Some start) = Some dateStart ->
  monthsBetween dateStart (withDefault (parseYearMonth now end_) now) <= 0 ->
  getExperienceText now (Some start) end_
  = start
    ++ (if truthyStr end_ then lit " - " ++ withDefault end_ [] else [])
    ++ [0xFF08; 0x4E0D; 0x8DB3; 0x31; 0x5E74; 0xFF09]%N.
Proof.
  intros Hne Hs Hd. unfold getExperienceText.
  destruct start as [|c start]; [congruence|].
  cbn [truthyStr negb]. rewrite Hs.
  unfold monthsBetween in Hd.
  set (diff := (getFullYear (withDefault (parseYearMonth now end_) now)
                - getFullYear dateStart) * 12
               + (getMonth (withDefault (parseYearMonth now end_) now)
                  - getMonth dateStart)) in *.
  assert (Hz : (if diff <? 0 then 0 else diff) = 0).
  { destruct (diff <? 0) eqn:E; lia. }
  rewrite Hz. reflexivity.
Qed.

Lemma getExperienceText_never_negative_witness :
  getExperienceText {| getFullYear := 2026; getMonth := 10 |}
    (Some (lit "2021.06")) (Some (lit "2019.01"))
  = lit "2021.06 - 2019.01" ++ [0xFF08; 0x4E0D; 0x8DB3; 0x31; 0x5E74; 0xFF09]%N.
Proof.
  apply (@getExperienceText_never_negative
           {| getFullYear := 2026; getMonth := 10 |}
           (lit "2021.06") (Some (lit "2019.01"))
           {| getFullYear := 2021; getMonth := 5 |}).
  - discriminate.
  - reflexivity.
  - vm_compute. discriminate.
Defined.
